(** * Pitch contour to notes to Standard MIDI File: the core of [src/App.vue]

    This development embeds the algorithmic core of the application
    ([median], [segmentNotes], [createMidiFile] with its inner
    [encodeVariableLength] and [secondsToTicks], and the [voicedFlags]
    computed property) and proves properties of it.

    Number model.  A JavaScript number is an IEEE-754 double.  Here a number
    that carries a time, a frequency or a pitch is an exact rational ([Q]),
    and a number that is an integer by construction (a tick count, a byte, a
    MIDI note number) is a [Z].  Rounding error of the double arithmetic is
    therefore not modelled; the inputs on which a statement of the
    specification is shown to fail are dyadic rationals, on which the double
    arithmetic of the source is exact.  The
    32-bit behaviour of the bit operators ([>>], [&], [|]) is written out
    with [toInt32].  A read past the end of an array ([undefined]) and a
    not-a-number are [None] in an [option]. *)

From Stdlib Require Import ZArith QArith Qround Qabs Qminmax Lqa Lia.
From Stdlib Require Import Bool String List.
From Stdlib Require Import Sorted Permutation SetoidList SetoidPermutation.
From Stdlib Require Import Ascii DecimalString DecimalZ.
From Equations Require Import Equations.
Import ListNotations.

Local Open Scope Q_scope.

(** ** JavaScript primitives used by the source *)

(** [a < b] on numbers, as a boolean. *)
Definition Qltb (a b : Q) : bool := negb (Qle_bool b a).

(** [Math.round]: the nearest integer, a tie going up. *)
Definition Math_round (x : Q) : Z := Qfloor (x + (1 # 2)).

(** The conversion of an integer-valued number to a signed 32-bit integer
    that every bit operator applies to its operands. *)
Definition toInt32 (z : Z) : Z := ((z + 2 ^ 31) mod 2 ^ 32 - 2 ^ 31)%Z.

(** The conversion a [Uint8Array] applies to each element it is built from. *)
Definition toUint8 (z : Z) : Z := (z mod 256)%Z.

(** [parseFloat(x.toFixed(digits))]: [toFixed] drops the sign, takes the
    integer [n] with [n / 10^digits] nearest to the magnitude (the larger
    [n] on a tie) and puts the sign back.  The value here is that decimal;
    [parseFloat] returns the double nearest to it.  The results below use
    the rounding through two facts that hold of both: it is monotone, and
    it moves a number by at most half a unit of the last decimal. *)
Definition toFixed (digits : nat) (x : Q) : Q :=
  let scale := inject_Z (10 ^ Z.of_nat digits) in
  if Qltb x 0
  then - (inject_Z (Qfloor ((- x) * scale + (1 # 2))) / scale)
  else inject_Z (Qfloor (x * scale + (1 # 2))) / scale.

(** [Array.prototype.sort(compare)] is a stable sort.  [le a b] stands for
    [compare(a, b) <= 0]; insertion from the right end keeps equal elements
    in their original order. *)
Section ArraySort.
Context {A : Type} (le : A -> A -> bool).

Fixpoint sort_insert (x : A) (l : list A) : list A :=
  match l with
  | [] => [x]
  | y :: l' => if le x y then x :: l else y :: sort_insert x l'
  end.

Definition Array_sort (arr : list A) : list A := fold_right sort_insert [] arr.
End ArraySort.

(** [arr.map((x, i) => f(x, i))]. *)
Definition Array_mapi {A B : Type} (f : A -> nat -> B) (arr : list A) : list B :=
  map (fun ix => f (snd ix) (fst ix)) (combine (seq 0 (length arr)) arr).

(** A call either returns or throws. *)
Inductive completion (A : Type) : Type :=
| Normal (value : A)
| Throw (message : string).
Arguments Normal {A} value.
Arguments Throw {A} message.

Definition bind {A B : Type} (c : completion A) (k : A -> completion B) : completion B :=
  match c with
  | Normal a => k a
  | Throw m => Throw m
  end.

Notation "x <- c ;; k" := (bind c (fun x => k))
  (at level 61, c at next level, right associativity).

(** ** [median] (App.vue, lines 310-315) *)

(** The sum [sorted[mid - 1] + sorted[mid]] is exact here.  In the source it
    is a double, which is infinite when the sum of the two middle elements
    is beyond the largest double; results that depend on the sum being
    finite say so in their hypotheses. *)
Definition median (arr : list Q) : Q :=
  if (length arr =? 0)%nat then 0
  else
    let sorted := Array_sort Qle_bool arr in
    let mid := (length sorted / 2)%nat in
    if (length sorted mod 2 =? 0)%nat
    then (nth (mid - 1) sorted 0 + nth mid sorted 0) / 2
    else nth mid sorted 0.

(** ** [voicedFlags] (App.vue, lines 515-525) *)

Record FrameData : Type := {
  pitch_hz : list Q;
  confidence : list Q;
  timestamps : list Q
}.

(** The callback of the [map]: [confidence_i] is [confidence[i]], which is
    [undefined] past the end of the array, and [undefined > x] is false. *)
Definition voicedFlag (threshold : Q) (frequencyRange : Q * Q)
    (confidence_i : option Q) (pitch : Q) : bool :=
  match confidence_i with
  | Some c =>
      Qltb threshold c
      && Qle_bool (fst frequencyRange) pitch
      && Qle_bool pitch (snd frequencyRange)
  | None => false
  end.

Definition hasData (frameData : option FrameData) : bool :=
  match frameData with
  | Some fd => (0 <? length (pitch_hz fd))%nat
  | None => false
  end.

Definition voicedFlags (frameData : option FrameData) (threshold : Q)
    (frequencyRange : Q * Q) : list bool :=
  match frameData with
  | Some fd =>
      if hasData frameData
      then Array_mapi
             (fun pitch i => voicedFlag threshold frequencyRange (nth_error (confidence fd) i) pitch)
             (pitch_hz fd)
      else []
  | None => []
  end.

(** ** [segmentNotes] (App.vue, lines 317-418) *)

Record SegmentationParams : Type := {
  splitSemitoneThreshold : Q;
  minNoteDuration : Q;
  unvoicedGracePeriod : Q
}.

Definition SEGMENTATION_PARAMS : SegmentationParams :=
  {| splitSemitoneThreshold := 0.8;
     minNoteDuration := 0.05;
     unvoicedGracePeriod := 0.02 |}.

(** The object [{ start, end, samples }] kept in [currentNoteSegment].
    [seg_start] is [timestamps[i]], undefined ([None]) when [i] is past the
    end of [timestamps]; [seg_end] is [t + framePeriod], not a number
    ([None]) when [t] is undefined. *)
Record RawSegment : Type := {
  seg_start : option Q;
  seg_end : option Q;
  seg_samples : list Q
}.

(** The object [{ start, end, pitch_median, midi_pitch }] built for a
    segment that passes the duration test. *)
Record ProcessedNote : Type := {
  pn_start : Q;
  pn_end : Q;
  pn_pitch_median : Q;
  pn_midi_pitch : Z
}.

(** The object [{ start, end, pitch_median, pitch_midi }] returned. *)
Record NoteSegment : Type := {
  note_start : Q;
  note_end : Q;
  pitch_median : Q;
  pitch_midi : Z
}.

(** The three variables the frame loop updates. *)
Record SegmenterState : Type := {
  notes : list RawSegment;
  currentNoteSegment : option RawSegment;
  unvoicedFramesCount : Z
}.

Definition framePeriod (timestamps : list Q) : Q :=
  match timestamps with
  | t0 :: t1 :: _ => t1 - t0
  | _ => 0.016
  end.

(** [t + framePeriod] for a [t] that may be undefined. *)
Definition plusPeriod (t : option Q) (framePeriod : Q) : option Q :=
  option_map (fun x => x + framePeriod) t.

Definition newSegment (t : option Q) (framePeriod midiPitch : Q) : RawSegment :=
  {| seg_start := t; seg_end := plusPeriod t framePeriod; seg_samples := [midiPitch] |}.

(** [Math.abs(midiPitch - median(currentNoteSegment.samples))]. *)
Definition pitchDeviation (seg : RawSegment) (midiPitch : Q) : Q :=
  Qabs (midiPitch - median (seg_samples seg)).

Section Segmenter.
(** [Math.log2] and [x => Math.pow(2, x)] are functions of the JavaScript
    runtime whose values are not rational in general: they are taken as
    parameters, and every result below holds whatever they are. *)
Context (Math_log2 : Q -> Q) (Math_pow2 : Q -> Q).

(** [midiContour]: one entry per element of [pitchHz]; [None] is NaN. *)
Definition midiContour (pitchHz : list Q) (voicing : list bool) : list (option Q) :=
  Array_mapi
    (fun pitch i =>
       if nth i voicing false && Qltb 0 pitch
       then
         let validPitch := Qmax pitch (1 # 1000000) in
         Some (69 + 12 * Math_log2 (validPitch / 440))
       else None)
    pitchHz.

(** [midiContour[i]], with [undefined] read as not a number. *)
Definition contourAt (contour : list (option Q)) (i : nat) : option Q :=
  match nth_error contour i with
  | Some (Some m) => Some m
  | _ => None
  end.

(** One iteration of the loop over [i < voicing.length]. *)
Definition segmentFrame (params : SegmentationParams) (framePeriod : Q)
    (timestamps : list Q) (voicing : list bool) (contour : list (option Q))
    (st : SegmenterState) (i : nat) : SegmenterState :=
  let t := nth_error timestamps i in
  let isVoiced := nth i voicing false in
  match (if isVoiced then contourAt contour i else None) with
  | Some midiPitch =>
      match currentNoteSegment st with
      | None =>
          {| notes := notes st;
             currentNoteSegment := Some (newSegment t framePeriod midiPitch);
             unvoicedFramesCount := 0 |}
      | Some cur =>
          if Qle_bool (splitSemitoneThreshold params) (pitchDeviation cur midiPitch)
          then
            {| notes := notes st ++ [cur];
               currentNoteSegment := Some (newSegment t framePeriod midiPitch);
               unvoicedFramesCount := 0 |}
          else
            {| notes := notes st;
               currentNoteSegment :=
                 Some {| seg_start := seg_start cur;
                         seg_end := plusPeriod t framePeriod;
                         seg_samples := seg_samples cur ++ [midiPitch] |};
               unvoicedFramesCount := 0 |}
      end
  | None =>
      match currentNoteSegment st with
      | None => st
      | Some cur =>
          let count := (unvoicedFramesCount st + 1)%Z in
          let unvoicedDuration := inject_Z count * framePeriod in
          if Qle_bool (unvoicedGracePeriod params) unvoicedDuration
          then
            {| notes := notes st ++ [cur];
               currentNoteSegment := None;
               unvoicedFramesCount := 0 |}
          else
            {| notes := notes st;
               currentNoteSegment :=
                 Some {| seg_start := seg_start cur;
                         seg_end := plusPeriod t framePeriod;
                         seg_samples := seg_samples cur |};
               unvoicedFramesCount := count |}
      end
  end.

Definition initialState : SegmenterState :=
  {| notes := []; currentNoteSegment := None; unvoicedFramesCount := 0 |}.

(** The list [notes] after the loop and the final flush. *)
Definition rawSegments (timestamps pitchHz : list Q) (voicing : list bool)
    (params : SegmentationParams) : list RawSegment :=
  let framePeriod := framePeriod timestamps in
  let contour := midiContour pitchHz voicing in
  let st :=
    fold_left (segmentFrame params framePeriod timestamps voicing contour)
      (seq 0 (length voicing)) initialState in
  match currentNoteSegment st with
  | Some cur => notes st ++ [cur]
  | None => notes st
  end.

(** The callback of [notes.map(...)]: [null] is [None].  [duration] is
    [segment.end - segment.start], a number only when both are, and a
    comparison with a NaN is false. *)
Definition processSegment (params : SegmentationParams) (segment : RawSegment)
    : option ProcessedNote :=
  match seg_end segment, seg_start segment with
  | Some e, Some s =>
      let duration := e - s in
      if Qle_bool (minNoteDuration params) duration
         && (0 <? length (seg_samples segment))%nat
      then
        let medianPitchMidi := median (seg_samples segment) in
        let medianPitchHz := 440 * Math_pow2 ((medianPitchMidi - 69) / 12) in
        Some {| pn_start := s;
                pn_end := e;
                pn_pitch_median := medianPitchHz;
                pn_midi_pitch := Math_round medianPitchMidi |}
      else None
  | _, _ => None
  end.

(** [notes.map(...).filter(Boolean)]. *)
Definition processedNotes (params : SegmentationParams) (notes : list RawSegment)
    : list ProcessedNote :=
  flat_map (fun segment => match processSegment params segment with
                           | Some n => [n]
                           | None => []
                           end) notes.

Definition epsilon : Q := 1 # 1000000000.

(** One iteration of the merge loop.  [finalNotes] is never empty: it is
    kept as the pair of its elements before the last and its last element
    [previousNote], the only one the loop writes to. *)
Definition mergeStep (framePeriod : Q) (finalNotes : list ProcessedNote * ProcessedNote)
    (currentNote : ProcessedNote) : list ProcessedNote * ProcessedNote :=
  let '(before, previousNote) := finalNotes in
  let gap := pn_start currentNote - pn_end previousNote in
  if Qle_bool gap (framePeriod + epsilon)
     && (pn_midi_pitch previousNote =? pn_midi_pitch currentNote)%Z
  then
    (before,
     {| pn_start := pn_start previousNote;
        pn_end := pn_end currentNote;
        pn_pitch_median := pn_pitch_median previousNote;
        pn_midi_pitch := pn_midi_pitch previousNote |})
  else (before ++ [previousNote], currentNote).

Definition mergeNotes (framePeriod : Q) (first : ProcessedNote)
    (rest : list ProcessedNote) : list ProcessedNote :=
  let '(before, previousNote) := fold_left (mergeStep framePeriod) rest ([], first) in
  before ++ [previousNote].

(** The callback of the last [map]. *)
Definition outputNote (note : ProcessedNote) : NoteSegment :=
  {| note_start := toFixed 4 (pn_start note);
     note_end := toFixed 4 (pn_end note);
     pitch_median := toFixed 2 (pn_pitch_median note);
     pitch_midi := pn_midi_pitch note |}.

Definition segmentNotes (timestamps pitchHz : list Q) (voicing : list bool)
    (params : SegmentationParams) : list NoteSegment :=
  if (length timestamps =? 0)%nat then []
  else
    let framePeriod := framePeriod timestamps in
    let notes := rawSegments timestamps pitchHz voicing params in
    if (length notes =? 0)%nat then []
    else
      match processedNotes params notes with
      | [] => []
      | first :: rest => map outputNote (mergeNotes framePeriod first rest)
      end.
End Segmenter.


(** ** [createMidiFile] (App.vue, lines 420-511) *)

Local Open Scope Z_scope.

Definition HEADER_CHUNK_TYPE : list Z := [0x4d; 0x54; 0x68; 0x64].
Definition HEADER_CHUNK_LENGTH : list Z := [0x00; 0x00; 0x00; 0x06].
Definition FORMAT_TYPE : list Z := [0x00; 0x00].
Definition NUMBER_OF_TRACKS : list Z := [0x00; 0x01].
Definition TICKS_PER_QUARTER_NOTE : Z := 480.
Definition TIME_DIVISION : list Z :=
  [Z.land (Z.shiftr (toInt32 TICKS_PER_QUARTER_NOTE) 8) 0xff;
   Z.land (toInt32 TICKS_PER_QUARTER_NOTE) 0xff].
Definition TRACK_CHUNK_TYPE : list Z := [0x4d; 0x54; 0x72; 0x6b].

(** Keeps the equation of a [with] scrutinee in the context of the branch. *)
Definition inspect {A : Type} (a : A) : {b : A | a = b} := exist _ a eq_refl.

(** The [do { ... } while (currentVal > 0)] loop of [encodeVariableLength]:
    the list [tempChunks] it builds.  [&] and [>>=] convert [currentVal] to
    a signed 32-bit integer first.  The loop ends because the shifted value,
    when positive, has fewer bits. *)
Equations? tempChunks (currentVal : Z) : list Z
  by wf (Z.to_nat (Z.log2 (toInt32 currentVal))) lt :=
  tempChunks currentVal with inspect (0 <? Z.shiftr (toInt32 currentVal) 7) => {
    | exist _ true Hloop =>
        Z.land (toInt32 currentVal) 0x7F :: tempChunks (Z.shiftr (toInt32 currentVal) 7);
    | exist _ false _ => [Z.land (toInt32 currentVal) 0x7F] }.
Proof.
  apply Z.ltb_lt in Hloop.
  rewrite Z.shiftr_div_pow2 in * by lia.
  set (w := toInt32 currentVal) in *.
  assert (Hw : 128 <= w).
  { destruct (Z_lt_le_dec w 128) as [Hlt|]; [|assumption].
    exfalso.
    destruct (Z_lt_le_dec w 0).
    - assert (w / 2 ^ 7 < 0) by (apply Z.div_lt_upper_bound; lia). lia.
    - rewrite Z.div_small in Hloop by lia. lia. }
  assert (Hq : 0 < w / 2 ^ 7 < 2 ^ 31).
  { split; [assumption|].
    apply Z.div_lt_upper_bound; [lia|].
    unfold w, toInt32.
    pose proof (Z.mod_pos_bound (currentVal + 2 ^ 31) (2 ^ 32)). lia. }
  assert (Hfix : toInt32 (w / 2 ^ 7) = w / 2 ^ 7).
  { unfold toInt32. rewrite Z.mod_small; lia. }
  rewrite Hfix.
  assert (Z.log2 (w / 2 ^ 7) < Z.log2 w).
  { rewrite <- Z.shiftr_div_pow2 by lia. rewrite Z.log2_shiftr by lia.
    assert (7 <= Z.log2 w) by (apply Z.log2_le_pow2; lia). lia. }
  pose proof (Z.log2_nonneg (w / 2 ^ 7)). lia.
Qed.

(** The [for (i = tempChunks.length - 1; i >= 0; i--)] loop: the chunks from
    the last to the first, each but [tempChunks[0]] with the bit [0x80]. *)
Definition continuationBytes (tempChunks : list Z) : list Z :=
  map (fun i =>
         let byte := nth i tempChunks 0 in
         if (0 <? i)%nat then Z.lor byte 0x80 else byte)
      (rev (seq 0 (length tempChunks))).

Definition encodeVariableLength (value : Z) : completion (list Z) :=
  if value <? 0
  then Throw "Cannot encode negative values in variable length quantity."
  else if value =? 0 then Normal [0x00]
  else Normal (continuationBytes (tempChunks value)).

Definition secondsToTicks (tempo : Q) (seconds : Q) : Z :=
  Math_round (seconds * inject_Z TICKS_PER_QUARTER_NOTE * (tempo / 60))%Q.

(** An element of [allEvents]: [{ time, type, note, velocity }]. *)
Record MidiEvent : Type := {
  ev_time : Q;
  ev_type : Z;
  ev_note : Z;
  ev_velocity : Z
}.

(** The two [allEvents.push] of one iteration of the loop over the notes. *)
Definition noteEvents (velocity : Z) (note : NoteSegment) : list MidiEvent :=
  let midiNote := Z.max 0 (Z.min 127 (pitch_midi note)) in
  [ {| ev_time := note_start note; ev_type := 0x90; ev_note := midiNote;
       ev_velocity := Z.min 127 velocity |};
    {| ev_time := note_end note; ev_type := 0x80; ev_note := midiNote;
       ev_velocity := 0x00 |} ].

(** [allEvents] after [allEvents.sort((a, b) => a.time - b.time)]. *)
Definition allEvents (velocity : Z) (noteSegments : list NoteSegment) : list MidiEvent :=
  Array_sort (fun a b => Qle_bool (ev_time a) (ev_time b))
    (flat_map (noteEvents velocity) noteSegments).

(** The seven numbers pushed for the tempo meta-event. *)
Definition tempoEvent (tempo : Q) : list Z :=
  let microSecondsPerBeat := Math_round (60000000 / tempo)%Q in
  [0x00; 0xff; 0x51; 0x03;
   Z.land (Z.shiftr (toInt32 microSecondsPerBeat) 16) 0xff;
   Z.land (Z.shiftr (toInt32 microSecondsPerBeat) 8) 0xff;
   Z.land (toInt32 microSecondsPerBeat) 0xff].

(** The loop [for (const event of allEvents)], threading [trackEvents] and
    [lastEventTicks]; it stops at the first call that throws. *)
Fixpoint encodeEvents (tempo : Q) (events : list MidiEvent)
    (trackEvents : list Z) (lastEventTicks : Z) : completion (list Z) :=
  match events with
  | [] => Normal trackEvents
  | event :: rest =>
      let eventTicks := secondsToTicks tempo (ev_time event) in
      let deltaTicks := eventTicks - lastEventTicks in
      bytes <- encodeVariableLength deltaTicks ;;
      encodeEvents tempo rest
        (trackEvents ++ bytes ++ [ev_type event; ev_note event; ev_velocity event])
        eventTicks
  end.

Definition END_OF_TRACK : list Z := [0x00; 0xff; 0x2f; 0x00].

(** The four bytes of [trackLength], most significant first. *)
Definition trackLengthBytes (trackLength : Z) : list Z :=
  [Z.land (Z.shiftr (toInt32 trackLength) 24) 0xff;
   Z.land (Z.shiftr (toInt32 trackLength) 16) 0xff;
   Z.land (Z.shiftr (toInt32 trackLength) 8) 0xff;
   Z.land (toInt32 trackLength) 0xff].

(** The result is the content of the [Uint8Array]. *)
Definition createMidiFile (noteSegments : list NoteSegment) (tempo : Q) (velocity : Z)
    : completion (list Z) :=
  events <- encodeEvents tempo (allEvents velocity noteSegments) (tempoEvent tempo) 0 ;;
  let trackEvents := events ++ END_OF_TRACK in
  let trackLength := Z.of_nat (length trackEvents) in
  Normal (map toUint8
            (HEADER_CHUNK_TYPE ++ HEADER_CHUNK_LENGTH ++ FORMAT_TYPE ++ NUMBER_OF_TRACKS
             ++ TIME_DIVISION ++ TRACK_CHUNK_TYPE ++ trackLengthBytes trackLength
             ++ trackEvents)).

(** Modelled from the spec: the repository has no reader of variable-length
    quantities.  This is the standard one of section 4.3 and the glossary:
    7-bit groups, most significant first, the bit [0x80] set on every byte
    but the last.  It returns the value and the bytes left after it, and
    nothing when the bytes end inside a quantity. *)
Fixpoint decodeVariableLengthFrom (acc : Z) (bytes : list Z) : option (Z * list Z) :=
  match bytes with
  | [] => None
  | b :: rest =>
      let acc' := acc * 128 + Z.land b 0x7F in
      if Z.testbit b 7 then decodeVariableLengthFrom acc' rest else Some (acc', rest)
  end.

Definition decodeVariableLength (bytes : list Z) : option (Z * list Z) :=
  decodeVariableLengthFrom 0 bytes.

(** * Properties *)

Local Open Scope Q_scope.

(** ** Rounding to a fixed number of decimals *)

(** The magnitude part of [toFixed]: [x] scaled by [s], rounded half up,
    scaled back. *)
Definition roundScaled (s x : Q) : Q := inject_Z (Qfloor (x * s + (1 # 2))) / s.

Lemma roundScaled_mono s x y : 0 < s -> x <= y -> roundScaled s x <= roundScaled s y.
Proof.
  intros Hs Hxy. unfold roundScaled.
  apply Qmult_le_compat_r.
  - rewrite <- Zle_Qle. apply Qfloor_resp_le. nra.
  - apply Qlt_le_weak, Qinv_lt_0_compat, Hs.
Qed.

Lemma roundScaled_upper s x : 0 < s -> roundScaled s x <= x + (1 # 2) / s.
Proof.
  intros Hs. unfold roundScaled.
  apply Qle_shift_div_r; [assumption|].
  pose proof (Qfloor_le (x * s + (1 # 2))) as H.
  assert (E : (x + (1 # 2) / s) * s == x * s + (1 # 2)) by (field; lra).
  rewrite E. exact H.
Qed.

Lemma roundScaled_lower s x : 0 < s -> x - (1 # 2) / s <= roundScaled s x.
Proof.
  intros Hs. unfold roundScaled.
  apply Qle_shift_div_l; [assumption|].
  pose proof (Qlt_floor (x * s + (1 # 2))) as H.
  assert (E : (x - (1 # 2) / s) * s == x * s - (1 # 2)) by (field; lra).
  rewrite E.
  rewrite inject_Z_plus in H. change (inject_Z 1) with 1 in H.
  set (f := inject_Z (Qfloor (x * s + (1 # 2)))) in *. set (xs := x * s) in *. lra.
Qed.

Lemma roundScaled_nonneg s x : 0 < s -> 0 <= x -> 0 <= roundScaled s x.
Proof.
  intros Hs Hx. unfold roundScaled.
  apply Qle_shift_div_l; [assumption|].
  rewrite Qmult_0_l. change 0 with (inject_Z 0). rewrite <- Zle_Qle.
  change 0%Z with (Qfloor 0). apply Qfloor_resp_le. nra.
Qed.

Lemma Qltb_lt a b : Qltb a b = true <-> a < b.
Proof.
  unfold Qltb. rewrite negb_true_iff.
  destruct (Qle_bool b a) eqn:E.
  - apply Qle_bool_iff in E. split; [discriminate | intros H; lra].
  - split; [intros _ | reflexivity].
    destruct (Qlt_le_dec a b) as [|H]; [assumption|].
    apply Qle_bool_iff in H. congruence.
Qed.

Lemma Qltb_ge a b : Qltb a b = false <-> b <= a.
Proof.
  unfold Qltb. rewrite negb_false_iff. apply Qle_bool_iff.
Qed.

Lemma scale_pos (digits : nat) : 0 < inject_Z (10 ^ Z.of_nat digits).
Proof.
  change 0 with (inject_Z 0). rewrite <- Zlt_Qlt.
  apply Z.pow_pos_nonneg; lia.
Qed.

Lemma toFixed_cases (digits : nat) (x : Q) :
  let s := inject_Z (10 ^ Z.of_nat digits) in
  (x < 0 /\ toFixed digits x = - roundScaled s (- x))
  \/ (0 <= x /\ toFixed digits x = roundScaled s x).
Proof.
  intros s. unfold toFixed. fold s.
  destruct (Qltb x 0) eqn:E.
  - left. split; [apply Qltb_lt, E | reflexivity].
  - right. split; [apply Qltb_ge, E | reflexivity].
Qed.

(** Rounding keeps the order of two numbers. *)
Lemma toFixed_mono (digits : nat) (x y : Q) :
  x <= y -> toFixed digits x <= toFixed digits y.
Proof.
  intros Hxy.
  pose proof (scale_pos digits) as Hs.
  destruct (toFixed_cases digits x) as [[Hx Ex]|[Hx Ex]];
    destruct (toFixed_cases digits y) as [[Hy Ey]|[Hy Ey]];
    rewrite Ex, Ey.
  - apply Qopp_le_compat. apply roundScaled_mono; [assumption | lra].
  - pose proof (roundScaled_nonneg _ (- x) Hs ltac:(lra)).
    pose proof (roundScaled_nonneg _ y Hs Hy). lra.
  - lra.
  - apply roundScaled_mono; assumption.
Qed.

(** Rounding moves a number by at most half a unit of the last decimal. *)
Lemma toFixed_error (digits : nat) (x : Q) :
  let half := (1 # 2) / inject_Z (10 ^ Z.of_nat digits) in
  x - half <= toFixed digits x /\ toFixed digits x <= x + half.
Proof.
  intros half.
  pose proof (scale_pos digits) as Hs.
  destruct (toFixed_cases digits x) as [[Hx Ex]|[Hx Ex]]; rewrite Ex.
  - pose proof (roundScaled_upper _ (- x) Hs).
    pose proof (roundScaled_lower _ (- x) Hs).
    fold half in H, H0. lra.
  - pose proof (roundScaled_upper _ x Hs).
    pose proof (roundScaled_lower _ x Hs).
    fold half in H, H0. lra.
Qed.

Lemma roundScaled_lower_strict s x : 0 < s -> x - (1 # 2) / s < roundScaled s x.
Proof.
  intros Hs. unfold roundScaled.
  apply Qlt_shift_div_l; [assumption|].
  pose proof (Qlt_floor (x * s + (1 # 2))) as H.
  assert (E : (x - (1 # 2) / s) * s == x * s - (1 # 2)) by (field; lra).
  rewrite E.
  rewrite inject_Z_plus in H. change (inject_Z 1) with 1 in H.
  set (f := inject_Z (Qfloor (x * s + (1 # 2)))) in *. set (xs := x * s) in *. lra.
Qed.

(** Rounding both ends of an interval to 4 decimals shortens it by less
    than one unit of the last decimal. *)
Lemma toFixed4_gap (s e : Q) :
  s <= e -> e - s - (1 # 10000) < toFixed 4 e - toFixed 4 s.
Proof.
  intros Hse.
  pose proof (scale_pos 4) as Hs.
  assert (Ehalf : (1 # 2) / inject_Z (10 ^ Z.of_nat 4) == 1 # 20000) by reflexivity.
  destruct (toFixed_cases 4 e) as [[He Ee]|[He Ee]].
  - destruct (toFixed_cases 4 s) as [[Hs' Es]|[Hs' Es]]; [|lra].
    rewrite Ee, Es.
    pose proof (roundScaled_upper _ (- e) Hs) as H1.
    pose proof (roundScaled_lower_strict _ (- s) Hs) as H2.
    rewrite Ehalf in H1, H2. lra.
  - pose proof (roundScaled_lower_strict _ e Hs) as H1.
    rewrite Ehalf in H1. rewrite <- Ee in H1.
    pose proof (toFixed_error 4 s) as [_ H2]. rewrite Ehalf in H2. lra.
Qed.

(** ** [Array_sort] returns the sorted permutation of its argument *)

Section ArraySortFacts.
Context {A : Type} (le : A -> A -> bool).
Hypothesis le_total : forall a b, le a b = true \/ le b a = true.

Let leP (a b : A) : Prop := le a b = true.

Lemma sort_insert_perm x l : Permutation (x :: l) (sort_insert le x l).
Proof.
  induction l as [|y l IH]; simpl.
  - apply Permutation_refl.
  - destruct (le x y).
    + apply Permutation_refl.
    + eapply perm_trans; [apply perm_swap|]. apply perm_skip, IH.
Qed.

Lemma Array_sort_perm arr : Permutation arr (Array_sort le arr).
Proof.
  induction arr as [|x arr IH]; simpl.
  - apply perm_nil.
  - eapply perm_trans; [apply perm_skip, IH|]. apply sort_insert_perm.
Qed.

Lemma Array_sort_length arr : length (Array_sort le arr) = length arr.
Proof. symmetry. apply Permutation_length, Array_sort_perm. Qed.

Lemma sort_insert_hd a x l :
  leP a x -> HdRel leP a l -> HdRel leP a (sort_insert le x l).
Proof.
  intros Hax Hal. destruct l as [|y l]; simpl.
  - constructor. exact Hax.
  - destruct (le x y); constructor; [exact Hax|].
    apply HdRel_inv in Hal. exact Hal.
Qed.

Lemma sort_insert_sorted x l : Sorted leP l -> Sorted leP (sort_insert le x l).
Proof.
  induction l as [|y l IH]; intros Hs; simpl.
  - repeat constructor.
  - destruct (le x y) eqn:E.
    + constructor; [exact Hs|]. constructor. exact E.
    + apply Sorted_inv in Hs. destruct Hs as [Hs Hd].
      constructor; [apply IH, Hs|].
      apply sort_insert_hd; [|exact Hd].
      destruct (le_total x y) as [H|H]; [congruence | exact H].
Qed.

Lemma Array_sort_sorted arr : Sorted leP (Array_sort le arr).
Proof.
  induction arr as [|x arr IH]; simpl.
  - constructor.
  - apply sort_insert_sorted, IH.
Qed.
End ArraySortFacts.

Lemma Sorted_weaken {A : Type} (R S : A -> A -> Prop) (l : list A) :
  (forall a b, R a b -> S a b) -> Sorted R l -> Sorted S l.
Proof.
  intros HRS. induction 1 as [|a l Hs IH Hd]; constructor.
  - exact IH.
  - destruct Hd; constructor. apply HRS. assumption.
Qed.

Lemma Qle_bool_total a b : Qle_bool a b = true \/ Qle_bool b a = true.
Proof.
  destruct (Qlt_le_dec b a) as [H|H].
  - right. apply Qle_bool_iff. lra.
  - left. apply Qle_bool_iff, H.
Qed.

Lemma sort_numbers_sorted arr : Sorted Qle (Array_sort Qle_bool arr).
Proof.
  apply Sorted_weaken with (R := fun a b => Qle_bool a b = true).
  - intros a b. apply Qle_bool_iff.
  - apply Array_sort_sorted, Qle_bool_total.
Qed.

(** Two ascending lists with the same elements agree position by position
    (as numbers: two fractions of the same value are the same number). *)

Lemma PermutationA_Qeq_cons_inv a b l1 l2 :
  a == b -> PermutationA Qeq (a :: l1) (b :: l2) -> PermutationA Qeq l1 l2.
Proof.
  intros Hab HP.
  apply (PermutationA_decompose Q_Setoid) in HP.
  destruct HP as [l [HP HE]].
  inversion HE as [|b' b0 l2'' l0 Hb' HE']; subst.
  assert (Hin : In a (b' :: l2'')).
  { apply (Permutation_in a HP). left. reflexivity. }
  destruct Hin as [Heq|Hin].
  - subst b'. apply Permutation_cons_inv in HP.
    eapply permA_trans.
    + apply (Permutation_PermutationA Q_Setoid), HP.
    + apply (eqlistA_PermutationA), HE'.
  - apply in_split in Hin. destruct Hin as [p [q Hpq]]. subst l2''.
    change (b' :: p ++ a :: q) with ((b' :: p) ++ a :: q) in HP.
    apply Permutation_cons_app_inv in HP.
    eapply permA_trans.
    { apply (Permutation_PermutationA Q_Setoid), HP. }
    eapply permA_trans; [|apply eqlistA_PermutationA, HE'].
    simpl.
    eapply permA_trans.
    { apply (@permA_skip _ Qeq b' a (p ++ q) (p ++ q)).
      - rewrite Hb'. symmetry. exact Hab.
      - reflexivity. }
    apply (PermutationA_middle Q_Setoid).
Qed.

Lemma StronglySorted_Qle l : Sorted Qle l -> StronglySorted Qle l.
Proof.
  apply Sorted_StronglySorted. intros x y z. apply Qle_trans.
Qed.

Lemma sorted_head_least a l x :
  StronglySorted Qle (a :: l) -> InA Qeq x (a :: l) -> a <= x.
Proof.
  intros Hs Hin. apply StronglySorted_inv in Hs. destruct Hs as [_ Hall].
  inversion Hin as [y l' Hx|y l' Hx]; subst.
  - rewrite Hx. apply Qle_refl.
  - apply InA_alt in Hx. destruct Hx as [y [Hxy Hy]].
    rewrite Forall_forall in Hall. rewrite Hxy. apply Hall, Hy.
Qed.

Lemma sorted_PermutationA_unique l1 : forall l2,
  Sorted Qle l1 -> Sorted Qle l2 -> PermutationA Qeq l1 l2 -> Forall2 Qeq l1 l2.
Proof.
  induction l1 as [|a l1 IH]; intros l2 H1 H2 HP.
  - apply (PermutationA_decompose Q_Setoid) in HP. destruct HP as [l [HP HE]].
    apply Permutation_nil in HP. subst l. inversion HE. constructor.
  - destruct l2 as [|b l2].
    + apply (PermutationA_decompose Q_Setoid) in HP. destruct HP as [l [HP HE]].
      inversion HE; subst. symmetry in HP. apply Permutation_nil in HP. discriminate.
    + assert (Hab : a == b).
      { pose proof (PermutationA_equivlistA Q_Setoid HP) as Heq.
        apply Qle_antisym.
        - apply (sorted_head_least a l1 b); [apply StronglySorted_Qle, H1|].
          apply Heq. left. reflexivity.
        - apply (sorted_head_least b l2 a); [apply StronglySorted_Qle, H2|].
          apply Heq. left. reflexivity. }
      constructor; [exact Hab|].
      apply Sorted_inv in H1. apply Sorted_inv in H2.
      apply IH; [apply H1 | apply H2 |].
      eapply PermutationA_Qeq_cons_inv; eassumption.
Qed.

Lemma Forall2_Qeq_nth l1 l2 k :
  Forall2 Qeq l1 l2 -> nth k l1 0 == nth k l2 0.
Proof.
  intros H. revert k. induction H as [|x y l1 l2 Hxy _ IH]; intros [|k]; simpl;
    try reflexivity; auto.
Qed.

(** Any ascending arrangement of the samples has, at every index, the value
    that the array sorted by the source has there. *)
Lemma sorted_arrangement_nth (arr sorted : list Q) (k : nat) :
  Sorted Qle sorted -> Permutation sorted arr ->
  nth k (Array_sort Qle_bool arr) 0 == nth k sorted 0.
Proof.
  intros Hs HP. apply Forall2_Qeq_nth.
  apply sorted_PermutationA_unique.
  - apply sort_numbers_sorted.
  - exact Hs.
  - apply (Permutation_PermutationA Q_Setoid).
    eapply perm_trans; [|apply Permutation_sym, HP].
    apply Permutation_sym, Array_sort_perm.
Qed.

(** ** The median of the split decision *)

Lemma median_even (arr : list Q) :
  (0 < length arr)%nat -> Nat.even (length arr) = true ->
  median arr =
  (nth (length arr / 2 - 1) (Array_sort Qle_bool arr) 0
   + nth (length arr / 2) (Array_sort Qle_bool arr) 0) / 2.
Proof.
  intros Hpos Heven. unfold median.
  rewrite Array_sort_length.
  destruct (length arr =? 0)%nat eqn:E0.
  - apply Nat.eqb_eq in E0. lia.
  - assert (Hmod : (length arr mod 2 =? 0)%nat = true).
    { apply Nat.eqb_eq. apply Nat.even_spec in Heven. destruct Heven as [k Hk].
      rewrite Hk. rewrite Nat.mul_comm. apply Nat.Div0.mod_mul. }
    rewrite Hmod. reflexivity.
Qed.

#[local] Instance Qabs_Proper : Proper (Qeq ==> Qeq) Qabs := Qabs_wd.

(** C1, as amended.  For an open segment whose samples have an even,
    non-zero count, the median that the split decision of [segmentNotes]
    uses is the mean of the two middle elements of the ascending samples
    (indices [n/2 - 1] and [n/2]), not the element at index [n/2]: the
    deviation of a new MIDI pitch is measured from that mean, and the open
    segment is closed exactly when this deviation reaches the threshold. *)
Theorem split_median_is_mean_of_middle_pair
    (params : SegmentationParams) (period : Q)
    (timestamps : list Q) (voicing : list bool) (contour : list (option Q))
    (st : SegmenterState) (i : nat) (cur : RawSegment) (midiPitch : Q)
    (sorted : list Q) :
  Sorted Qle sorted ->
  Permutation sorted (seg_samples cur) ->
  (0 < length (seg_samples cur))%nat ->
  Nat.even (length (seg_samples cur)) = true ->
  currentNoteSegment st = Some cur ->
  nth i voicing false = true ->
  contourAt contour i = Some midiPitch ->
  let n := length (seg_samples cur) in
  let mean := (nth (n / 2 - 1) sorted 0 + nth (n / 2) sorted 0) / 2 in
  median (seg_samples cur) == mean
  /\ pitchDeviation cur midiPitch == Qabs (midiPitch - mean)
  /\ (notes (segmentFrame params period timestamps voicing contour st i)
        = notes st ++ [cur]
      <-> splitSemitoneThreshold params <= Qabs (midiPitch - mean)).
Proof.
  intros Hs HP Hpos Heven Hcur Hv Hc n mean.
  assert (Hmed : median (seg_samples cur) == mean).
  { rewrite median_even by assumption. unfold mean, n.
    rewrite !(sorted_arrangement_nth _ sorted) by assumption. reflexivity. }
  assert (Hdev : pitchDeviation cur midiPitch == Qabs (midiPitch - mean)).
  { unfold pitchDeviation. rewrite Hmed. reflexivity. }
  split; [exact Hmed|]. split; [exact Hdev|].
  unfold segmentFrame. rewrite Hv, Hc, Hcur.
  destruct (Qle_bool (splitSemitoneThreshold params) (pitchDeviation cur midiPitch)) eqn:E;
    cbn [notes].
  - split; [intros _ | reflexivity].
    apply Qle_bool_iff in E. lra.
  - split.
    + intros Heq. apply (f_equal (@length _)) in Heq.
      rewrite length_app in Heq. simpl in Heq. lia.
    + intros Hle.
      assert (Hle' : splitSemitoneThreshold params <= pitchDeviation cur midiPitch) by lra.
      apply Qle_bool_iff in Hle'. congruence.
Qed.

(** An open segment holding the two samples 60 and 62, about to read a
    voiced frame of MIDI pitch 63. *)
Definition two_sample_segment : RawSegment :=
  {| seg_start := Some 0; seg_end := Some (1 # 32); seg_samples := [60; 62] |}.

Definition two_sample_state : SegmenterState :=
  {| notes := []; currentNoteSegment := Some two_sample_segment; unvoicedFramesCount := 0 |}.

Lemma split_median_is_mean_of_middle_pair_witness :
  median [60; 62] == (60 + 62) / 2
  /\ pitchDeviation two_sample_segment 63 == Qabs (63 - (60 + 62) / 2)
  /\ (notes (segmentFrame SEGMENTATION_PARAMS (1 # 64) [0; 1 # 64; 1 # 32]
               [true; true; true] [Some 60; Some 62; Some 63] two_sample_state 2)
        = notes two_sample_state ++ [two_sample_segment]
      <-> splitSemitoneThreshold SEGMENTATION_PARAMS <= Qabs (63 - (60 + 62) / 2)).
Proof.
  apply (split_median_is_mean_of_middle_pair SEGMENTATION_PARAMS (1 # 64)
           [0; 1 # 64; 1 # 32] [true; true; true] [Some 60; Some 62; Some 63]
           two_sample_state 2 two_sample_segment 63 [60; 62]).
  - repeat constructor. unfold Qle. simpl. lia.
  - apply Permutation_refl.
  - simpl. lia.
  - reflexivity.
  - reflexivity.
  - reflexivity.
  - reflexivity.
Defined.

(** C1, as stated, fails: for the samples 60 and 62 the median of the split
    decision is 61, while the element at index [floor(2/2)] of the ascending
    samples is 62. *)
Lemma median_even_is_not_upper_middle :
  Nat.even (length [60; 62]) = true
  /\ median [60; 62] == 61
  /\ nth (length [60; 62] / 2) (Array_sort Qle_bool [60; 62]) 0 == 62
  /\ ~ median [60; 62] == nth (length [60; 62] / 2) (Array_sort Qle_bool [60; 62]) 0.
Proof.
  split; [reflexivity|]. split; [reflexivity|]. split; [reflexivity|].
  intros H. vm_compute in H. discriminate H.
Qed.

(** ** The voicing classifier *)

Lemma nth_error_combine_seq {A : Type} (arr : list A) : forall s i,
  nth_error (combine (seq s (length arr)) arr) i
  = option_map (fun x => ((s + i)%nat, x)) (nth_error arr i).
Proof.
  induction arr as [|x arr IH]; intros s i; simpl.
  - destruct i; reflexivity.
  - destruct i as [|i]; simpl.
    + rewrite Nat.add_0_r. reflexivity.
    + rewrite IH. rewrite Nat.add_succ_r. reflexivity.
Qed.

Lemma nth_error_Array_mapi {A B : Type} (f : A -> nat -> B) (arr : list A) (i : nat) :
  nth_error (Array_mapi f arr) i = option_map (fun x => f x i) (nth_error arr i).
Proof.
  unfold Array_mapi. rewrite nth_error_map, nth_error_combine_seq.
  destruct (nth_error arr i); reflexivity.
Qed.

Lemma length_Array_mapi {A B : Type} (f : A -> nat -> B) (arr : list A) :
  length (Array_mapi f arr) = length arr.
Proof.
  unfold Array_mapi. rewrite length_map, length_combine, length_seq. apply Nat.min_id.
Qed.

Lemma voicedFlag_true_iff (threshold lo hi conf pitch : Q) :
  voicedFlag threshold (lo, hi) (Some conf) pitch = true
  <-> threshold < conf /\ lo <= pitch /\ pitch <= hi.
Proof.
  unfold voicedFlag. cbn [fst snd].
  rewrite !andb_true_iff, Qltb_lt, !Qle_bool_iff. tauto.
Qed.

(** C2.  The flag computed for a frame is true exactly when its confidence
    is strictly above the threshold and its pitch lies in the closed band
    [lo, hi]; a confidence equal to the threshold gives an unvoiced frame,
    and a pitch on either edge of the band can be voiced. *)
Theorem voicedFlags_classifies (fd : FrameData) (threshold lo hi : Q)
    (i : nat) (pitch conf : Q) :
  nth_error (pitch_hz fd) i = Some pitch ->
  nth_error (confidence fd) i = Some conf ->
  exists b : bool,
    nth_error (voicedFlags (Some fd) threshold (lo, hi)) i = Some b
    /\ (b = true <-> threshold < conf /\ lo <= pitch /\ pitch <= hi)
    /\ (conf == threshold -> b = false)
    /\ (threshold < conf -> lo <= hi -> pitch == lo \/ pitch == hi -> b = true).
Proof.
  intros Hp Hc.
  exists (voicedFlag threshold (lo, hi) (Some conf) pitch).
  split.
  - unfold voicedFlags, hasData.
    destruct (pitch_hz fd) as [|p0 ps] eqn:E.
    + destruct i; discriminate Hp.
    + cbn [length Nat.ltb Nat.leb]. rewrite nth_error_Array_mapi, Hp, Hc. reflexivity.
  - split; [apply voicedFlag_true_iff|]. split.
    + intros Heq. apply not_true_is_false. rewrite voicedFlag_true_iff. lra.
    + intros Hlt Hband Hedge. apply voicedFlag_true_iff. lra.
Qed.

Definition two_frames : FrameData :=
  {| pitch_hz := [440; 80]; confidence := [0.95; 0.9]; timestamps := [0; 0.016] |}.

Lemma voicedFlags_classifies_witness :
  exists b : bool,
    nth_error (voicedFlags (Some two_frames) 0.9 (80, 2000)) 1 = Some b
    /\ (b = true <-> 0.9 < 0.9 /\ 80 <= 80 /\ 80 <= 2000)
    /\ (0.9 == 0.9 -> b = false)
    /\ (0.9 < 0.9 -> 80 <= 2000 -> 80 == 80 \/ 80 == 2000 -> b = true).
Proof.
  apply (voicedFlags_classifies two_frames 0.9 80 2000 1 80 0.9).
  - reflexivity.
  - reflexivity.
Defined.

(** ** Variable-length quantities *)

Local Open Scope Z_scope.

Lemma tempChunks_step (v : Z) :
  tempChunks v =
  if 0 <? Z.shiftr (toInt32 v) 7
  then Z.land (toInt32 v) 0x7F :: tempChunks (Z.shiftr (toInt32 v) 7)
  else [Z.land (toInt32 v) 0x7F].
Proof.
  apply (tempChunks_elim (fun v r =>
    r = if 0 <? Z.shiftr (toInt32 v) 7
        then Z.land (toInt32 v) 0x7F :: tempChunks (Z.shiftr (toInt32 v) 7)
        else [Z.land (toInt32 v) 0x7F])).
  - intros w Hloop _ _. rewrite Hloop. reflexivity.
  - intros w Hloop _. rewrite Hloop. reflexivity.
Qed.

Lemma toInt32_small (v : Z) : - 2 ^ 31 <= v < 2 ^ 31 -> toInt32 v = v.
Proof.
  intros H. unfold toInt32. rewrite Z.mod_small; lia.
Qed.

(** The number that a little-endian list of base-128 digits stands for. *)
Definition chunksValue (chunks : list Z) : Z :=
  fold_right (fun c acc => c + 128 * acc) 0 chunks.

Definition is_chunk (c : Z) : Prop := 0 <= c < 128.

(** On a value below [2^31] the loop produces the base-128 digits of the
    value, least significant first. *)
Lemma tempChunks_digits (v : Z) :
  0 <= v < 2 ^ 31 ->
  chunksValue (tempChunks v) = v /\ Forall is_chunk (tempChunks v)
  /\ exists c cs, tempChunks v = c :: cs.
Proof.
  induction (Z.lt_wf 0 v) as [v _ IH]. intros Hv.
  rewrite tempChunks_step, toInt32_small by lia.
  change 0x7F with (Z.ones 7). rewrite Z.land_ones, Z.shiftr_div_pow2 by lia.
  change (2 ^ 7) with 128.
  pose proof (Z.mod_pos_bound v 128 ltac:(lia)) as Hmod.
  pose proof (Z.div_mod v 128 ltac:(lia)) as Hdm.
  destruct (0 <? v / 128) eqn:E.
  - apply Z.ltb_lt in E.
    destruct (IH (v / 128)) as [Hval [Hall _]]; [lia | lia |].
    split; [|split].
    + cbn [chunksValue fold_right]. fold (chunksValue (tempChunks (v / 128))).
      rewrite Hval. lia.
    + constructor; [exact Hmod | exact Hall].
    + eauto.
  - apply Z.ltb_ge in E.
    assert (v / 128 = 0) by (pose proof (Z.div_pos v 128); lia).
    split; [|split].
    + cbn [chunksValue fold_right]. lia.
    + constructor; [exact Hmod | constructor].
    + eauto.
Qed.

Lemma map_nth_seq {A B : Type} (g : A -> B) (d : A) (l : list A) :
  map (fun i => g (nth i l d)) (seq 0 (length l)) = map g l.
Proof.
  induction l as [|x l IH]; [reflexivity|].
  cbn [length seq map nth]. f_equal.
  rewrite <- seq_shift, map_map. exact IH.
Qed.

Lemma continuationBytes_cons (c : Z) (cs : list Z) :
  continuationBytes (c :: cs) = map (fun b => Z.lor b 0x80) (rev cs) ++ [c].
Proof.
  unfold continuationBytes. cbn [length seq rev].
  rewrite map_app. cbn [map nth Nat.ltb Nat.leb]. f_equal.
  rewrite <- seq_shift, <- map_rev, map_map. cbn [nth Nat.ltb Nat.leb].
  rewrite !map_rev. f_equal.
  apply (map_nth_seq (fun b => Z.lor b 0x80)).
Qed.

Lemma chunk_low_bits (c : Z) : is_chunk c -> Z.land c 0x7F = c.
Proof.
  intros H. change 0x7F with (Z.ones 7). rewrite Z.land_ones by lia.
  apply Z.mod_small. exact H.
Qed.

Lemma chunk_bit7 (c : Z) : is_chunk c -> Z.testbit c 7 = false.
Proof.
  intros H. apply Z.testbit_false; [lia|].
  change (2 ^ 7) with 128. rewrite Z.div_small by exact H. reflexivity.
Qed.

Lemma decode_continuation (hs : list Z) : forall (acc c : Z) (rest : list Z),
  Forall is_chunk hs -> is_chunk c ->
  decodeVariableLengthFrom acc (map (fun b => Z.lor b 0x80) hs ++ c :: rest)
  = Some (fold_left (fun a h => a * 128 + h) hs acc * 128 + c, rest).
Proof.
  induction hs as [|h hs IH]; intros acc c rest Hhs Hc; cbn [map app fold_left].
  - cbn [decodeVariableLengthFrom]. rewrite chunk_bit7, chunk_low_bits by assumption.
    reflexivity.
  - inversion Hhs as [|h' hs' Hh Hhs']; subst.
    cbn [decodeVariableLengthFrom].
    rewrite Z.lor_spec. change (Z.testbit 0x80 7) with true. rewrite orb_true_r.
    rewrite Z.land_lor_distr_l. change (Z.land 0x80 0x7F) with 0.
    rewrite Z.lor_0_r, chunk_low_bits by assumption.
    apply IH; assumption.
Qed.

Lemma fold_left_rev_chunks (cs : list Z) :
  fold_left (fun a h => a * 128 + h) (rev cs) 0 = chunksValue cs.
Proof.
  induction cs as [|c cs IH]; [reflexivity|].
  cbn [rev]. rewrite fold_left_app. cbn [fold_left chunksValue fold_right].
  fold (chunksValue cs). rewrite IH. lia.
Qed.

(** A reader placed at the bytes of a quantity below [2^31] gets the
    quantity back, and is left at the bytes that follow. *)
Lemma decode_encode_followed_by (v : Z) (rest : list Z) :
  0 <= v < 2 ^ 31 ->
  exists bytes, encodeVariableLength v = Normal bytes
    /\ decodeVariableLengthFrom 0 (bytes ++ rest) = Some (v, rest).
Proof.
  intros Hv. unfold encodeVariableLength.
  destruct (v <? 0) eqn:Eneg; [apply Z.ltb_lt in Eneg; lia|].
  destruct (v =? 0) eqn:Ez.
  - apply Z.eqb_eq in Ez. subst v. exists [0x00]. split; reflexivity.
  - destruct (tempChunks_digits v Hv) as [Hval [Hall [c [cs Hcs]]]].
    exists (continuationBytes (tempChunks v)). split; [reflexivity|].
    rewrite Hcs in Hval, Hall |- *. rewrite continuationBytes_cons.
    apply Forall_cons_iff in Hall. destruct Hall as [Hc Hcs'].
    rewrite <- app_assoc. cbn [app].
    rewrite decode_continuation.
    + rewrite fold_left_rev_chunks.
      cbn [chunksValue fold_right] in Hval. fold (chunksValue cs) in Hval.
      f_equal. f_equal. lia.
    + apply Forall_rev. assumption.
    + assumption.
Qed.

(** C5, as amended.  For every integer [v] with [0 <= v < 2^31], reading
    back the bytes that [encodeVariableLength] produces for [v] yields [v]
    and consumes all of them; the encoding of 0 is the single byte [0x00];
    and a negative value makes the routine throw. *)
Theorem encodeVariableLength_roundtrip (v : Z) :
  (0 <= v < 2 ^ 31 ->
   exists bytes, encodeVariableLength v = Normal bytes
     /\ decodeVariableLength bytes = Some (v, []))
  /\ encodeVariableLength 0 = Normal [0x00]
  /\ (v < 0 -> exists message, encodeVariableLength v = Throw message).
Proof.
  split; [|split].
  - intros Hv. destruct (decode_encode_followed_by v [] Hv) as [bytes [He Hd]].
    exists bytes. rewrite app_nil_r in Hd. split; assumption.
  - reflexivity.
  - intros Hneg. unfold encodeVariableLength.
    apply Z.ltb_lt in Hneg. rewrite Hneg. eauto.
Qed.

Lemma encodeVariableLength_roundtrip_witness :
  exists bytes, encodeVariableLength 480 = Normal bytes
    /\ decodeVariableLength bytes = Some (480, []).
Proof.
  apply (proj1 (encodeVariableLength_roundtrip 480)). lia.
Defined.

(** C5, as stated, fails: [2^31] is a non-negative integer, its encoding is
    the single byte [0x00] (the 32-bit conversion of the bit operators wraps
    it before the first chunk is taken), and that byte reads back as 0. *)
Lemma encodeVariableLength_wraps_from_2_31 :
  0 <= 2 ^ 31
  /\ encodeVariableLength (2 ^ 31) = Normal [0x00]
  /\ decodeVariableLength [0x00] = Some (0, [])
  /\ 0 <> 2 ^ 31.
Proof.
  split; [lia|]. split; [vm_compute; reflexivity|]. split; [reflexivity | lia].
Qed.

(** ** The MIDI encoder on concrete notes *)

(** The note of the scenario: one second of middle C. *)
Definition middle_C (hz : Q) : NoteSegment :=
  {| note_start := 0; note_end := 1; pitch_median := hz; pitch_midi := 60 |}.

Lemma middle_C_bytes (hz : Q) :
  createMidiFile [middle_C hz] 120 80
  = Normal [0x4D; 0x54; 0x68; 0x64; 0x00; 0x00; 0x00; 0x06;
            0x00; 0x00; 0x00; 0x01; 0x01; 0xE0;
            0x4D; 0x54; 0x72; 0x6B; 0x00; 0x00; 0x00; 0x14;
            0x00; 0xFF; 0x51; 0x03; 0x07; 0xA1; 0x20;
            0x00; 0x90; 0x3C; 0x50;
            0x87; 0x40; 0x80; 0x3C; 0x00;
            0x00; 0xFF; 0x2F; 0x00].
Proof. vm_compute. reflexivity. Qed.

(** C6, as amended.  Encoding the single note [{start: 0, end: 1,
    pitch_midi: 60}] at tempo 120 and velocity 80 gives the header
    [4D 54 68 64 00 00 00 06 00 00 00 01 01 E0], then [MTrk] with the length
    20, the tempo meta-event [00 FF 51 03 07 A1 20], the Note-On at delta 0
    ([00 90 3C 50]), the Note-Off at delta 960, which is one second at 480
    ticks per quarter note and 120 quarter notes per minute ([87 40] then
    [80 3C 00]), and the end of track [00 FF 2F 00]. *)
Theorem createMidiFile_middle_C (hz : Q) :
  createMidiFile [middle_C hz] 120 80
  = Normal ([0x4D; 0x54; 0x68; 0x64; 0x00; 0x00; 0x00; 0x06;
             0x00; 0x00; 0x00; 0x01; 0x01; 0xE0]
            ++ [0x4D; 0x54; 0x72; 0x6B] ++ [0x00; 0x00; 0x00; 0x14]
            ++ [0x00; 0xFF; 0x51; 0x03; 0x07; 0xA1; 0x20]
            ++ [0x00; 0x90; 0x3C; 0x50]
            ++ [0x87; 0x40; 0x80; 0x3C; 0x00]
            ++ [0x00; 0xFF; 0x2F; 0x00])
  /\ secondsToTicks 120 (note_end (middle_C hz)) = 960
  /\ encodeVariableLength 960 = Normal [0x87; 0x40].
Proof.
  split; [apply middle_C_bytes|]. split; vm_compute; reflexivity.
Qed.

(** C6, as stated, fails: whatever the four length bytes are, the file is
    not the one whose Note-Off comes at delta 480 ([83 60]). *)
Lemma createMidiFile_middle_C_note_off_is_not_at_480 :
  ~ exists trackLength : list Z,
      createMidiFile [middle_C 261.63] 120 80
      = Normal ([0x4D; 0x54; 0x68; 0x64; 0x00; 0x00; 0x00; 0x06;
                 0x00; 0x00; 0x00; 0x01; 0x01; 0xE0]
                ++ [0x4D; 0x54; 0x72; 0x6B] ++ trackLength
                ++ [0x00; 0xFF; 0x51; 0x03; 0x07; 0xA1; 0x20]
                ++ [0x00; 0x90; 0x3C; 0x50]
                ++ [0x83; 0x60; 0x80; 0x3C; 0x00]
                ++ [0x00; 0xFF; 0x2F; 0x00]).
Proof.
  intros [trackLength H].
  rewrite middle_C_bytes in H.
  injection H as H.
  assert (Hlen : length trackLength = 4%nat).
  { apply (f_equal (@length Z)) in H. rewrite !length_app in H. simpl in H. lia. }
  destruct trackLength as [|a [|b [|c [|d [|e l]]]]]; try discriminate Hlen.
  cbn [app] in H. discriminate H.
Qed.

(** The behaviour behind C7: the velocity is capped at 127 but has no
    lower bound, unlike the note number.  With the velocity [-1] the Note-On
    event carries [-1], and the byte stored in the file is [0xFF]. *)
Theorem createMidiFile_negative_velocity (hz : Q) :
  noteEvents (-1) (middle_C hz)
  = [ {| ev_time := 0; ev_type := 0x90; ev_note := 60; ev_velocity := -1 |};
      {| ev_time := 1; ev_type := 0x80; ev_note := 60; ev_velocity := 0 |} ]
  /\ createMidiFile [middle_C hz] 120 (-1)
     = Normal ([0x4D; 0x54; 0x68; 0x64; 0x00; 0x00; 0x00; 0x06;
                0x00; 0x00; 0x00; 0x01; 0x01; 0xE0]
               ++ [0x4D; 0x54; 0x72; 0x6B] ++ [0x00; 0x00; 0x00; 0x14]
               ++ [0x00; 0xFF; 0x51; 0x03; 0x07; 0xA1; 0x20]
               ++ [0x00; 0x90; 0x3C; 0xFF]
               ++ [0x87; 0x40; 0x80; 0x3C; 0x00]
               ++ [0x00; 0xFF; 0x2F; 0x00]).
Proof.
  split; vm_compute; reflexivity.
Qed.

(** For a velocity that is not negative, each note gives the two events of
    the specification, with both clamps. *)
Lemma noteEvents_clamped (velocity : Z) (note : NoteSegment) :
  0 <= velocity ->
  exists n v,
    noteEvents velocity note
    = [ {| ev_time := note_start note; ev_type := 0x90; ev_note := n; ev_velocity := v |};
        {| ev_time := note_end note; ev_type := 0x80; ev_note := n; ev_velocity := 0 |} ]
    /\ 0 <= n <= 127 /\ 0 <= v <= 127
    /\ (0 <= pitch_midi note <= 127 -> n = pitch_midi note)
    /\ (pitch_midi note < 0 -> n = 0) /\ (127 < pitch_midi note -> n = 127)
    /\ (velocity <= 127 -> v = velocity) /\ (127 < velocity -> v = 127).
Proof.
  intros Hv. exists (Z.max 0 (Z.min 127 (pitch_midi note))), (Z.min 127 velocity).
  split; [reflexivity|]. lia.
Qed.

Lemma toUint8_byte (x : Z) : toUint8 (Z.land x 0xff) = Z.land x 0xff.
Proof.
  unfold toUint8. change 0xff with (Z.ones 8). rewrite Z.land_ones by lia.
  change (2 ^ 8) with 256. apply Z.mod_mod. lia.
Qed.

Lemma land_ff_range (x : Z) : 0 <= Z.land x 0xff < 256.
Proof.
  change 0xff with (Z.ones 8). rewrite Z.land_ones by lia.
  apply Z.mod_pos_bound. lia.
Qed.

Lemma map_toUint8_bytes (l : list Z) :
  Forall (fun b => 0 <= b < 256) l -> map toUint8 l = l.
Proof.
  induction 1 as [|b l Hb _ IH]; [reflexivity|].
  cbn [map]. rewrite IH. unfold toUint8. rewrite Z.mod_small by exact Hb. reflexivity.
Qed.

(** C8.  Encoding the empty note list returns, for every tempo and
    velocity: the 14 header bytes, then [MTrk], the length 11, and an event
    stream of exactly 11 bytes made of the tempo meta-event and the end of
    track. *)
Theorem createMidiFile_empty (tempo : Q) (velocity : Z) :
  exists b1 b2 b3 : Z,
    createMidiFile [] tempo velocity
    = Normal ([0x4D; 0x54; 0x68; 0x64; 0x00; 0x00; 0x00; 0x06;
               0x00; 0x00; 0x00; 0x01; 0x01; 0xE0]
              ++ [0x4D; 0x54; 0x72; 0x6B] ++ [0x00; 0x00; 0x00; 0x0B]
              ++ [0x00; 0xFF; 0x51; 0x03; b1; b2; b3]
              ++ [0x00; 0xFF; 0x2F; 0x00])
    /\ tempoEvent tempo = [0x00; 0xFF; 0x51; 0x03; b1; b2; b3]
    /\ (0 <= b1 < 256 /\ 0 <= b2 < 256 /\ 0 <= b3 < 256)
    /\ length ([0x00; 0xFF; 0x51; 0x03; b1; b2; b3] ++ [0x00; 0xFF; 0x2F; 0x00]) = 11%nat.
Proof.
  set (us := Math_round (60000000 / tempo)%Q).
  exists (Z.land (Z.shiftr (toInt32 us) 16) 0xff),
         (Z.land (Z.shiftr (toInt32 us) 8) 0xff),
         (Z.land (toInt32 us) 0xff).
  split; [|split; [reflexivity|split; [|reflexivity]]].
  - assert (E : createMidiFile [] tempo velocity
               = Normal (map toUint8
                   ([0x4D; 0x54; 0x68; 0x64; 0x00; 0x00; 0x00; 0x06;
                     0x00; 0x00; 0x00; 0x01; 0x01; 0xE0]
                    ++ [0x4D; 0x54; 0x72; 0x6B] ++ [0x00; 0x00; 0x00; 0x0B]
                    ++ tempoEvent tempo ++ END_OF_TRACK))) by reflexivity.
    rewrite E. f_equal. apply map_toUint8_bytes.
    unfold tempoEvent, END_OF_TRACK. fold us.
    repeat (apply Forall_app; split);
      repeat (apply Forall_cons; [first [apply land_ff_range | lia]|]);
      apply Forall_nil.
  - repeat split; apply land_ff_range.
Qed.

(** ** The encoder never meets a negative delta *)

(** The arguments of the successive calls of [encodeVariableLength] in the
    loop over the events, started at [lastEventTicks]. *)
Fixpoint deltaTicksOf (tempo : Q) (events : list MidiEvent) (lastEventTicks : Z) : list Z :=
  match events with
  | [] => []
  | event :: rest =>
      let eventTicks := secondsToTicks tempo (ev_time event) in
      (eventTicks - lastEventTicks) :: deltaTicksOf tempo rest eventTicks
  end.

Definition earlier (a b : MidiEvent) : Prop :=
  Qle_bool (ev_time a) (ev_time b) = true.

Lemma secondsToTicks_mono (tempo s1 s2 : Q) :
  (0 <= tempo)%Q -> (s1 <= s2)%Q -> secondsToTicks tempo s1 <= secondsToTicks tempo s2.
Proof.
  intros Ht Hs. unfold secondsToTicks, Math_round.
  apply Qfloor_resp_le.
  assert (H : (0 <= inject_Z TICKS_PER_QUARTER_NOTE * (tempo / 60))%Q).
  { apply Qmult_le_0_compat; [discriminate|].
    apply Qle_shift_div_l; [reflexivity|]. lra. }
  rewrite <- !Qmult_assoc.
  set (k := (inject_Z TICKS_PER_QUARTER_NOTE * (tempo / 60))%Q) in *.
  assert (s1 * k <= s2 * k)%Q by (apply Qmult_le_compat_r; assumption).
  lra.
Qed.

Lemma secondsToTicks_nonneg (tempo s : Q) :
  (0 <= tempo)%Q -> (0 <= s)%Q -> 0 <= secondsToTicks tempo s.
Proof.
  intros Ht Hs.
  assert (E : secondsToTicks tempo 0 = 0).
  { unfold secondsToTicks, Math_round.
    assert (H : (0 * inject_Z TICKS_PER_QUARTER_NOTE * (tempo / 60) + (1 # 2) == 1 # 2)%Q)
      by ring.
    rewrite H. reflexivity. }
  rewrite <- E. apply secondsToTicks_mono; assumption.
Qed.

Lemma encodeVariableLength_returns (value : Z) :
  0 <= value -> exists bytes, encodeVariableLength value = Normal bytes.
Proof.
  intros Hv. unfold encodeVariableLength.
  destruct (value <? 0) eqn:E; [apply Z.ltb_lt in E; lia|].
  destruct (value =? 0); eauto.
Qed.

(** The invariant of the loop: the events left are in ascending order of
    time and the first of them is not before [lastEventTicks]. *)
Definition not_before (tempo : Q) (lastEventTicks : Z) (events : list MidiEvent) : Prop :=
  match events with
  | [] => True
  | event :: _ => lastEventTicks <= secondsToTicks tempo (ev_time event)
  end.

Lemma not_before_rest (tempo : Q) (event : MidiEvent) (rest : list MidiEvent) :
  (0 <= tempo)%Q -> Sorted earlier (event :: rest) ->
  not_before tempo (secondsToTicks tempo (ev_time event)) rest.
Proof.
  intros Ht Hs. apply Sorted_inv in Hs. destruct Hs as [_ Hd].
  destruct rest as [|next rest]; [exact I|].
  apply HdRel_inv in Hd. cbn [not_before].
  apply secondsToTicks_mono; [assumption|]. apply Qle_bool_iff, Hd.
Qed.


Lemma encodeEvents_returns (tempo : Q) (events : list MidiEvent) :
  (0 <= tempo)%Q -> forall trackEvents lastEventTicks,
  Sorted earlier events -> not_before tempo lastEventTicks events ->
  exists bytes, encodeEvents tempo events trackEvents lastEventTicks = Normal bytes.
Proof.
  intros Ht. induction events as [|event rest IH]; intros track last Hs Hnb;
    cbn [encodeEvents].
  - eauto.
  - cbn [not_before] in Hnb.
    destruct (encodeVariableLength_returns
                (secondsToTicks tempo (ev_time event) - last)) as [bytes Hb]; [lia|].
    rewrite Hb. cbn [bind].
    apply IH; [apply Sorted_inv in Hs; apply Hs|].
    apply not_before_rest; assumption.
Qed.

Lemma earlier_total (a b : MidiEvent) :
  Qle_bool (ev_time a) (ev_time b) = true \/ Qle_bool (ev_time b) (ev_time a) = true.
Proof. apply Qle_bool_total. Qed.

Lemma allEvents_sorted (velocity : Z) (noteSegments : list NoteSegment) :
  Sorted earlier (allEvents velocity noteSegments).
Proof.
  unfold allEvents.
  apply (Array_sort_sorted (fun a b => Qle_bool (ev_time a) (ev_time b))).
  intros a b. apply earlier_total.
Qed.

Lemma allEvents_times (velocity : Z) (noteSegments : list NoteSegment) :
  Forall (fun n => 0 <= note_start n /\ 0 <= note_end n)%Q noteSegments ->
  Forall (fun e => 0 <= ev_time e)%Q (allEvents velocity noteSegments).
Proof.
  intros Hn. unfold allEvents.
  eapply Permutation_Forall; [apply Array_sort_perm|].
  induction Hn as [|n l [Hs He] _ IH]; cbn [flat_map].
  - constructor.
  - apply Forall_app. split; [|exact IH].
    unfold noteEvents. repeat constructor; assumption.
Qed.


Definition two_notes : list NoteSegment :=
  [ {| note_start := 0.5; note_end := 1; pitch_median := 440; pitch_midi := 69 |};
    {| note_start := 0; note_end := 0.5; pitch_median := 261.63; pitch_midi := 60 |} ].



(** ** The frame loop of the segmenter: which frames a segment spans *)

Local Open Scope Q_scope.

Section FrameLoop.
Variables (params : SegmentationParams) (period : Q) (timestamps : list Q)
  (voicing : list bool) (contour : list (option Q)).

(** [covers seg a b]: the segment was opened at frame [a] and last extended
    at frame [b]. *)
Definition covers (seg : RawSegment) (a b : nat) : Prop :=
  seg_start seg = nth_error timestamps a
  /\ seg_end seg = plusPeriod (nth_error timestamps b) period
  /\ (a <= b)%nat.

(** [spanned lo segs hi]: the segments of [segs] cover disjoint intervals of
    frames, in increasing order, all within [lo, hi). *)
Fixpoint spanned (lo : nat) (segs : list RawSegment) (hi : nat) : Prop :=
  match segs with
  | [] => (lo <= hi)%nat
  | seg :: rest =>
      exists a b, (lo <= a)%nat /\ (b < hi)%nat /\ covers seg a b /\ spanned (S b) rest hi
  end.

Lemma spanned_bounds lo segs hi : spanned lo segs hi -> (lo <= hi)%nat.
Proof.
  revert lo. induction segs as [|seg rest IH]; intros lo H; cbn [spanned] in H.
  - exact H.
  - destruct H as [a [b [Ha [Hb [[_ [_ Hab]] _]]]]]. lia.
Qed.

Lemma spanned_snoc lo segs hi seg a b hi' :
  spanned lo segs hi -> covers seg a b -> (hi <= a)%nat -> (b < hi')%nat ->
  spanned lo (segs ++ [seg]) hi'.
Proof.
  revert lo. induction segs as [|s0 rest IH]; intros lo H Hc Ha Hb; cbn [app spanned] in *.
  - destruct Hc as [Hc1 [Hc2 Hc3]].
    exists a, b. repeat split; try assumption; lia.
  - destruct H as [a0 [b0 [Ha0 [Hb0 [Hc0 Hrest]]]]].
    exists a0, b0. split; [assumption|]. split; [|split; [assumption|]].
    + destruct Hc as [_ [_ Hc3]]. lia.
    + apply IH; assumption.
Qed.

Lemma spanned_In lo segs hi seg :
  spanned lo segs hi -> In seg segs ->
  exists a b, (lo <= a)%nat /\ (b < hi)%nat /\ covers seg a b.
Proof.
  revert lo. induction segs as [|s0 rest IH]; intros lo H Hin; [contradiction|].
  cbn [spanned] in H. destruct H as [a [b [Ha [Hb [Hc Hrest]]]]].
  destruct Hin as [->|Hin].
  - exists a, b. auto.
  - destruct (IH _ Hrest Hin) as [a' [b' [Ha' [Hb' Hc']]]].
    exists a', b'. destruct Hc as [_ [_ Hc3]].
    split; [lia|]. split; assumption.
Qed.

(** The invariant of the loop before frame [i]. *)
Definition loop_invariant (i : nat) (st : SegmenterState) : Prop :=
  exists hi, (hi <= i)%nat /\ spanned 0 (notes st) hi
    /\ match currentNoteSegment st with
       | None => True
       | Some cur => exists a b, (hi <= a)%nat /\ (b < i)%nat /\ covers cur a b
       end.

Lemma covers_newSegment (i : nat) (midiPitch : Q) :
  covers (newSegment (nth_error timestamps i) period midiPitch) i i.
Proof. repeat split. apply Nat.le_refl. Qed.

Lemma segmentFrame_invariant (i : nat) (st : SegmenterState) :
  loop_invariant i st ->
  loop_invariant (S i) (segmentFrame params period timestamps voicing contour st i).
Proof.
  intros [hi [Hhi [Hnotes Hcur]]]. unfold segmentFrame.
  destruct (if nth i voicing false then contourAt contour i else None) as [midiPitch|];
    destruct (currentNoteSegment st) as [cur|] eqn:Ecur.
  - destruct Hcur as [a [b [Ha [Hb Hc]]]].
    destruct (Qle_bool (splitSemitoneThreshold params) (pitchDeviation cur midiPitch)).
    + exists (S b). cbn [notes currentNoteSegment]. split; [lia|]. split.
      * eapply spanned_snoc; eauto.
      * exists i, i. split; [lia|]. split; [lia|]. apply covers_newSegment.
    + exists hi. cbn [notes currentNoteSegment]. split; [lia|]. split; [assumption|].
      exists a, i. split; [assumption|]. split; [lia|].
      destruct Hc as [Hc1 [Hc2 Hc3]]. repeat split; cbn [seg_start seg_end]; auto; lia.
  - exists hi. cbn [notes currentNoteSegment]. split; [lia|]. split; [assumption|].
    exists i, i. split; [lia|]. split; [lia|]. apply covers_newSegment.
  - destruct Hcur as [a [b [Ha [Hb Hc]]]].
    destruct (Qle_bool (unvoicedGracePeriod params)
                (inject_Z (unvoicedFramesCount st + 1) * period)).
    + exists (S b). cbn [notes currentNoteSegment]. split; [lia|]. split; [|exact I].
      eapply spanned_snoc; eauto.
    + exists hi. cbn [notes currentNoteSegment]. split; [lia|]. split; [assumption|].
      exists a, i. split; [assumption|]. split; [lia|].
      destruct Hc as [Hc1 [Hc2 Hc3]]. repeat split; cbn [seg_start seg_end]; auto; lia.
  - exists hi. rewrite Ecur. split; [lia|]. split; [assumption | exact I].
Qed.

Lemma frame_loop_invariant (n : nat) :
  loop_invariant n
    (fold_left (segmentFrame params period timestamps voicing contour) (seq 0 n)
       initialState).
Proof.
  induction n as [|n IH].
  - exists 0%nat. cbn. auto.
  - rewrite seq_S, fold_left_app. cbn [fold_left Nat.add].
    apply segmentFrame_invariant, IH.
Qed.

(** After the final flush the segments cover disjoint, increasing intervals
    of frames. *)
Lemma flush_spanned (n : nat) (st : SegmenterState) :
  loop_invariant n st ->
  spanned 0 (match currentNoteSegment st with
             | Some cur => notes st ++ [cur]
             | None => notes st
             end) n.
Proof.
  intros [hi [Hhi [Hnotes Hcur]]].
  destruct (currentNoteSegment st) as [cur|].
  - destruct Hcur as [a [b [Ha [Hb Hc]]]]. eapply spanned_snoc; eauto.
  - clear Hcur. revert Hnotes. generalize 0%nat. generalize (notes st).
    induction l as [|s0 rest IH]; intros lo H; cbn [spanned] in *.
    + lia.
    + destruct H as [a [b [Ha [Hb [Hc Hrest]]]]].
      exists a, b. split; [assumption|]. split; [lia|]. split; [assumption|].
      apply IH, Hrest.
Qed.
End FrameLoop.

(** ** Timestamps *)



Lemma sorted_nth_error (timestamps : list Q) :
  Sorted Qle timestamps -> forall i j a b, (i <= j)%nat ->
  nth_error timestamps i = Some a -> nth_error timestamps j = Some b -> a <= b.
Proof.
  intros Hs. apply StronglySorted_Qle in Hs.
  induction Hs as [|t ts Hs IH Hall]; intros i j a b Hij Ha Hb.
  - destruct i; discriminate Ha.
  - destruct i as [|i]; destruct j as [|j]; cbn [nth_error] in Ha, Hb.
    + injection Ha as <-. injection Hb as <-. apply Qle_refl.
    + injection Ha as <-. rewrite Forall_forall in Hall.
      apply Hall. eapply nth_error_In, Hb.
    + lia.
    + eapply IH; [|eassumption|eassumption]. lia.
Qed.

Lemma sorted_framePeriod (timestamps : list Q) :
  Sorted Qle timestamps -> 0 <= framePeriod timestamps.
Proof.
  intros Hs. destruct timestamps as [|t0 [|t1 ts]]; cbn [framePeriod]; try discriminate.
  assert (t0 <= t1) by (apply (sorted_nth_error _ Hs 0%nat 1%nat); [lia | reflexivity..]).
  lra.
Qed.

(** ** From frame intervals to times *)

Definition starts_in_order (x y : RawSegment) : Prop :=
  forall s1 s2, seg_start x = Some s1 -> seg_start y = Some s2 -> s1 <= s2.

Definition starts_before_end (x : RawSegment) : Prop :=
  forall s e, seg_start x = Some s -> seg_end x = Some e -> s <= e.

Lemma plusPeriod_Some (t : option Q) (period e : Q) :
  plusPeriod t period = Some e -> exists x, t = Some x /\ e = x + period.
Proof.
  destruct t as [x|]; cbn; intros H; [|discriminate].
  injection H as <-. eauto.
Qed.

Section SpannedTimes.
Variables (timestamps : list Q).
Let period := framePeriod timestamps.

Lemma spanned_starts_in_order (segs : list RawSegment) : forall lo hi,
  Sorted Qle timestamps -> spanned period timestamps lo segs hi ->
  ForallOrdPairs starts_in_order segs /\ Forall starts_before_end segs.
Proof.
  induction segs as [|x rest IH]; intros lo hi Hsorted H; [split; constructor|].
  cbn [spanned] in H. destruct H as [a [b [Ha [Hb [[Hc1 [Hc2 Hc3]] Hrest]]]]].
  destruct (IH _ _ Hsorted Hrest) as [IH1 IH2].
  split; constructor; try assumption.
  - apply Forall_forall. intros y Hy s1 s2 Hs1 Hs2.
    destruct (spanned_In _ _ _ _ _ _ Hrest Hy) as [a' [b' [Ha' [Hb' [Hc1' _]]]]].
    rewrite Hc1 in Hs1. rewrite Hc1' in Hs2.
    apply (sorted_nth_error _ Hsorted a a'); [lia | assumption..].
  - intros s e Hs He. rewrite Hc1 in Hs. rewrite Hc2 in He.
    apply plusPeriod_Some in He. destruct He as [tb [Htb ->]].
    assert (s <= tb) by (apply (sorted_nth_error _ Hsorted a b); assumption).
    pose proof (sorted_framePeriod _ Hsorted). fold period in H0. lra.
Qed.
End SpannedTimes.

(** ** The duration filter *)

Section Filter.
Variables (Math_pow2 : Q -> Q) (params : SegmentationParams).

Lemma processSegment_Some (seg : RawSegment) (p : ProcessedNote) :
  processSegment Math_pow2 params seg = Some p ->
  seg_start seg = Some (pn_start p) /\ seg_end seg = Some (pn_end p)
  /\ minNoteDuration params <= pn_end p - pn_start p.
Proof.
  unfold processSegment.
  destruct (seg_end seg) as [e|]; [|discriminate].
  destruct (seg_start seg) as [s|]; [|discriminate].
  destruct (Qle_bool (minNoteDuration params) (e - s)) eqn:E; [|discriminate].
  destruct (0 <? length (seg_samples seg))%nat; [|discriminate].
  cbn [andb]. intros H. injection H as <-. cbn [pn_start pn_end].
  apply Qle_bool_iff in E. auto.
Qed.

Lemma processedNotes_In (segs : list RawSegment) (p : ProcessedNote) :
  In p (processedNotes Math_pow2 params segs) ->
  exists seg, In seg segs /\ processSegment Math_pow2 params seg = Some p.
Proof.
  unfold processedNotes. rewrite in_flat_map. intros [seg [Hin Hp]].
  exists seg. split; [assumption|].
  destruct (processSegment Math_pow2 params seg) as [q|]; [|contradiction].
  destruct Hp as [->|[]]. reflexivity.
Qed.

Lemma processedNotes_pairs (R : RawSegment -> RawSegment -> Prop)
    (R' : ProcessedNote -> ProcessedNote -> Prop) (segs : list RawSegment) :
  (forall x y p q, R x y ->
     processSegment Math_pow2 params x = Some p ->
     processSegment Math_pow2 params y = Some q -> R' p q) ->
  ForallOrdPairs R segs -> ForallOrdPairs R' (processedNotes Math_pow2 params segs).
Proof.
  intros HR. induction 1 as [|x rest Hx Hrest IH]; [constructor|].
  unfold processedNotes. cbn [flat_map]. fold (processedNotes Math_pow2 params rest).
  destruct (processSegment Math_pow2 params x) as [p|] eqn:Ep; cbn [app]; [|exact IH].
  constructor; [|exact IH].
  apply Forall_forall. intros q Hq.
  apply processedNotes_In in Hq. destruct Hq as [y [Hy Hq]].
  rewrite Forall_forall in Hx. eapply HR; eauto.
Qed.

Lemma processedNotes_Forall (P : RawSegment -> Prop) (P' : ProcessedNote -> Prop)
    (segs : list RawSegment) :
  (forall x p, P x -> processSegment Math_pow2 params x = Some p -> P' p) ->
  Forall P segs -> Forall P' (processedNotes Math_pow2 params segs).
Proof.
  intros HP Hall. apply Forall_forall. intros p Hp.
  apply processedNotes_In in Hp. destruct Hp as [x [Hx Hp]].
  rewrite Forall_forall in Hall. eauto.
Qed.
End Filter.

(** ** The merge pass *)

Definition mergeable (framePeriod : Q) (previousNote currentNote : ProcessedNote) : bool :=
  Qle_bool (pn_start currentNote - pn_end previousNote) (framePeriod + epsilon)
  && (pn_midi_pitch previousNote =? pn_midi_pitch currentNote)%Z.

Definition extended (previousNote currentNote : ProcessedNote) : ProcessedNote :=
  {| pn_start := pn_start previousNote;
     pn_end := pn_end currentNote;
     pn_pitch_median := pn_pitch_median previousNote;
     pn_midi_pitch := pn_midi_pitch previousNote |}.

(** The merge loop as a recursion on the notes left to read. *)
Fixpoint mergeFrom (framePeriod : Q) (previousNote : ProcessedNote)
    (rest : list ProcessedNote) : list ProcessedNote :=
  match rest with
  | [] => [previousNote]
  | currentNote :: rest' =>
      if mergeable framePeriod previousNote currentNote
      then mergeFrom framePeriod (extended previousNote currentNote) rest'
      else previousNote :: mergeFrom framePeriod currentNote rest'
  end.

Lemma merge_loop_mergeFrom (framePeriod : Q) (rest : list ProcessedNote) :
  forall before previousNote,
  (let '(before', last) := fold_left (mergeStep framePeriod) rest (before, previousNote) in
   before' ++ [last])
  = before ++ mergeFrom framePeriod previousNote rest.
Proof.
  induction rest as [|cur rest IH]; intros before prev; cbn [fold_left mergeFrom].
  - reflexivity.
  - unfold mergeStep at 2. fold (mergeable framePeriod prev cur). fold (extended prev cur).
    destruct (mergeable framePeriod prev cur).
    + apply IH.
    + rewrite IH, <- app_assoc. reflexivity.
Qed.

Lemma mergeNotes_mergeFrom (framePeriod : Q) (first : ProcessedNote)
    (rest : list ProcessedNote) :
  mergeNotes framePeriod first rest = mergeFrom framePeriod first rest.
Proof.
  unfold mergeNotes. apply (merge_loop_mergeFrom framePeriod rest [] first).
Qed.

Lemma mergeFrom_head (framePeriod : Q) (rest : list ProcessedNote) : forall prev,
  exists x tl, mergeFrom framePeriod prev rest = x :: tl /\ pn_start x = pn_start prev.
Proof.
  induction rest as [|cur rest IH]; intros prev; cbn [mergeFrom].
  - eauto.
  - destruct (mergeable framePeriod prev cur).
    + destruct (IH (extended prev cur)) as [x [tl [E Hx]]]. eauto.
    + eauto.
Qed.

Definition long_enough (minDuration : Q) (p : ProcessedNote) : Prop :=
  minDuration <= pn_end p - pn_start p /\ pn_start p <= pn_end p.

Definition starts_no_later (p q : ProcessedNote) : Prop := pn_start p <= pn_start q.

Lemma mergeFrom_long_enough (framePeriod minDuration : Q) (rest : list ProcessedNote) :
  forall prev,
  long_enough minDuration prev -> Forall (long_enough minDuration) rest ->
  Forall (starts_no_later prev) rest -> ForallOrdPairs starts_no_later rest ->
  Forall (long_enough minDuration) (mergeFrom framePeriod prev rest).
Proof.
  induction rest as [|cur rest IH]; intros prev Hp Hall Hprev Hpairs; cbn [mergeFrom].
  - constructor; [assumption | constructor].
  - inversion Hpairs as [|c r Hcur Hrest]; subst.
    inversion Hprev as [|c r Hpc Hpr]; subst.
    inversion Hall as [|c r Hc Hr]; subst.
    destruct (mergeable framePeriod prev cur).
    + apply IH; try assumption.
      unfold long_enough, starts_no_later, extended in *. cbn [pn_start pn_end]. lra.
    + constructor; [assumption|]. apply IH; assumption.
Qed.

(** ** The rounding of the output *)

Lemma Sorted_map {A B : Type} (R : A -> A -> Prop) (S : B -> B -> Prop) (f : A -> B)
    (l : list A) :
  (forall a b, R a b -> S (f a) (f b)) -> Sorted R l -> Sorted S (map f l).
Proof.
  intros HRS. induction 1 as [|a l Hs IH Hd]; cbn [map]; constructor.
  - exact IH.
  - destruct Hd; cbn [map]; constructor. apply HRS. assumption.
Qed.

Lemma toFixed4_error (x : Q) :
  x - (1 # 20000) <= toFixed 4 x /\ toFixed 4 x <= x + (1 # 20000).
Proof.
  pose proof (toFixed_error 4 x) as H. cbv zeta in H.
  assert (E : (1 # 2) / inject_Z (10 ^ Z.of_nat 4) == 1 # 20000) by reflexivity.
  rewrite E in H. exact H.
Qed.


(** ** The segmenter as a whole *)

Section SegmentNotesFacts.
Variables (Math_log2 Math_pow2 : Q -> Q).
Variables (timestamps pitchHz : list Q) (voicing : list bool)
  (params : SegmentationParams).

Lemma rawSegments_spanned :
  spanned (framePeriod timestamps) timestamps 0
    (rawSegments Math_log2 timestamps pitchHz voicing params) (length voicing).
Proof.
  unfold rawSegments. apply flush_spanned, frame_loop_invariant.
Qed.

(** What [segmentNotes] returns: nothing, or the rounding of the notes that
    the merge pass builds from the segments that pass the filter. *)
Lemma segmentNotes_cases :
  segmentNotes Math_log2 Math_pow2 timestamps pitchHz voicing params = []
  \/ exists first rest,
       processedNotes Math_pow2 params
         (rawSegments Math_log2 timestamps pitchHz voicing params) = first :: rest
       /\ segmentNotes Math_log2 Math_pow2 timestamps pitchHz voicing params
          = map outputNote (mergeFrom (framePeriod timestamps) first rest).
Proof.
  unfold segmentNotes.
  destruct (length timestamps =? 0)%nat; [left; reflexivity|].
  destruct (length (rawSegments Math_log2 timestamps pitchHz voicing params) =? 0)%nat;
    [left; reflexivity|].
  destruct (processedNotes Math_pow2 params
              (rawSegments Math_log2 timestamps pitchHz voicing params))
    as [|first rest] eqn:E; [left; reflexivity|].
  right. exists first, rest. split; [reflexivity|].
  rewrite mergeNotes_mergeFrom. reflexivity.
Qed.

Lemma segmentNotes_long_enough :
  Sorted Qle timestamps ->
  segmentNotes Math_log2 Math_pow2 timestamps pitchHz voicing params = []
  \/ exists finalNotes,
       segmentNotes Math_log2 Math_pow2 timestamps pitchHz voicing params
       = map outputNote finalNotes
       /\ Forall (long_enough (minNoteDuration params)) finalNotes.
Proof.
  intros Hsorted.
  destruct segmentNotes_cases as [E|[first [rest [Hproc E]]]]; [left; exact E|].
  right. exists (mergeFrom (framePeriod timestamps) first rest). split; [exact E|].
  destruct (spanned_starts_in_order timestamps _ _ _ Hsorted rawSegments_spanned)
    as [Hraw1 Hraw2].
  assert (Hpairs : ForallOrdPairs starts_no_later (first :: rest)).
  { rewrite <- Hproc.
    apply processedNotes_pairs with (R := starts_in_order); [|exact Hraw1].
    intros x y p q Hxy Hp Hq.
    apply processSegment_Some in Hp. apply processSegment_Some in Hq.
    unfold starts_no_later. apply Hxy; [apply Hp | apply Hq]. }
  assert (Hall : Forall (long_enough (minNoteDuration params)) (first :: rest)).
  { rewrite <- Hproc.
    apply processedNotes_Forall with (P := starts_before_end); [|exact Hraw2].
    intros x p Hx Hp. apply processSegment_Some in Hp.
    destruct Hp as [Hs [He Hmin]]. split; [exact Hmin | apply Hx; assumption]. }
  inversion Hpairs as [|f r Hfirst Hrest]; subst.
  inversion Hall as [|f r Hf Hr]; subst.
  apply mergeFrom_long_enough; assumption.
Qed.
End SegmentNotesFacts.


(** ** Test vectors for the segmenter *)

(** Stand-ins for [Math.log2] and [Math.pow(2, .)] to run the model on test
    vectors: the integer part of the logarithm, which is exact at the powers
    of two, and the power of two at the integer part of the exponent.  The
    test vectors use the pitches 440 and 880 only, where both are exact. *)
Definition log2_floor (x : Q) : Q :=
  inject_Z (if Qle_bool 1 x then Z.log2 (Qfloor x) else - Z.log2_up (Qceiling (/ x))).

Definition pow2_floor (x : Q) : Q := Qpower 2 (Qfloor x).

Definition times (n : NoteSegment) : Q * Q := (note_start n, note_end n).

(** The scenario of the specification: five voiced frames at 440 Hz, 0.016
    seconds apart, give one note from 0 to 0.08 of MIDI pitch 69. *)
Example segmentNotes_five_frames :
  segmentNotes log2_floor pow2_floor [0; 0.016; 0.032; 0.048; 0.064]
    [440; 440; 440; 440; 440] [true; true; true; true; true] SEGMENTATION_PARAMS
  = [ {| note_start := 0.0000; note_end := 0.0800;
         pitch_median := 440.00; pitch_midi := 69 |} ].
Proof. vm_compute. reflexivity. Qed.









(** ** Sequences of unequal lengths *)

(** The voicing flags with those at index [n] and beyond set to false. *)
Definition maskVoicing (n : nat) (voicing : list bool) : list bool :=
  Array_mapi (fun v i => v && (i <? n)%nat) voicing.

Lemma nth_maskVoicing (n : nat) (voicing : list bool) (i : nat) :
  nth i (maskVoicing n voicing) false = nth i voicing false && (i <? n)%nat.
Proof.
  unfold maskVoicing.
  pose proof (nth_error_Array_mapi (fun v i => v && (i <? n)%nat) voicing i) as H.
  destruct (nth_error voicing i) as [v|] eqn:E; cbn [option_map] in H.
  - rewrite (nth_error_nth _ _ _ H), (nth_error_nth _ _ _ E). reflexivity.
  - apply nth_error_None in H. apply nth_error_None in E.
    rewrite !nth_overflow by assumption. reflexivity.
Qed.

Lemma Array_mapi_ext {A B : Type} (f g : A -> nat -> B) (arr : list A) :
  (forall i x, nth_error arr i = Some x -> f x i = g x i) ->
  Array_mapi f arr = Array_mapi g arr.
Proof.
  intros H. apply nth_error_ext. intros i.
  rewrite !nth_error_Array_mapi.
  destruct (nth_error arr i) as [x|] eqn:E; [|reflexivity].
  cbn. f_equal. apply H, E.
Qed.

Lemma fold_left_ext {A B : Type} (f g : A -> B -> A) (l : list B) :
  (forall a b, In b l -> f a b = g a b) -> forall a, fold_left f l a = fold_left g l a.
Proof.
  induction l as [|b l IH]; intros H a; [reflexivity|].
  cbn [fold_left]. rewrite H by (left; reflexivity).
  apply IH. intros a' b' Hb'. apply H. right. exact Hb'.
Qed.

Section UnequalLengths.
Variables (Math_log2 Math_pow2 : Q -> Q).

Lemma midiContour_mask (pitchHz : list Q) (voicing : list bool) :
  midiContour Math_log2 pitchHz (maskVoicing (length pitchHz) voicing)
  = midiContour Math_log2 pitchHz voicing.
Proof.
  unfold midiContour. apply Array_mapi_ext. intros i x Hi.
  rewrite nth_maskVoicing.
  assert (Hlt : (i < length pitchHz)%nat) by (apply nth_error_Some; congruence).
  apply Nat.ltb_lt in Hlt. rewrite Hlt, andb_true_r. reflexivity.
Qed.

Lemma contourAt_past_end (pitchHz : list Q) (voicing : list bool) (i : nat) :
  (length pitchHz <= i)%nat -> contourAt (midiContour Math_log2 pitchHz voicing) i = None.
Proof.
  intros Hi. unfold contourAt.
  assert (E : nth_error (midiContour Math_log2 pitchHz voicing) i = None).
  { apply nth_error_None. unfold midiContour. rewrite length_Array_mapi. exact Hi. }
  rewrite E. reflexivity.
Qed.

Lemma rawSegments_mask (timestamps pitchHz : list Q) (voicing : list bool)
    (params : SegmentationParams) :
  rawSegments Math_log2 timestamps pitchHz (maskVoicing (length pitchHz) voicing) params
  = rawSegments Math_log2 timestamps pitchHz voicing params.
Proof.
  unfold rawSegments. rewrite midiContour_mask.
  assert (Hlen : length (maskVoicing (length pitchHz) voicing) = length voicing)
    by apply length_Array_mapi.
  rewrite Hlen.
  rewrite (fold_left_ext
             (segmentFrame params (framePeriod timestamps) timestamps
                (maskVoicing (length pitchHz) voicing) (midiContour Math_log2 pitchHz voicing))
             (segmentFrame params (framePeriod timestamps) timestamps
                voicing (midiContour Math_log2 pitchHz voicing))); [reflexivity|].
  intros st i _. unfold segmentFrame. rewrite nth_maskVoicing.
  destruct (i <? length pitchHz)%nat eqn:E.
  - rewrite andb_true_r. reflexivity.
  - apply Nat.ltb_ge in E. rewrite andb_false_r.
    rewrite (contourAt_past_end pitchHz voicing i E).
    destruct (nth i voicing false); reflexivity.
Qed.
End UnequalLengths.

(** C9, as amended.  [segmentNotes] does not compare the lengths of its
    three sequences and has no error to raise.  Without timestamps it
    returns the empty list, whatever the other two sequences are; otherwise
    it reads one frame per voicing flag, and a frame flagged voiced that has
    no pitch sample counts as unvoiced: the result is the one obtained with
    those flags cleared. *)
Theorem segmentNotes_unchecked_lengths (Math_log2 Math_pow2 : Q -> Q)
    (timestamps pitchHz : list Q) (voicing : list bool) (params : SegmentationParams) :
  segmentNotes Math_log2 Math_pow2 [] pitchHz voicing params = []
  /\ segmentNotes Math_log2 Math_pow2 timestamps pitchHz voicing params
     = segmentNotes Math_log2 Math_pow2 timestamps pitchHz
         (maskVoicing (length pitchHz) voicing) params.
Proof.
  split; [reflexivity|].
  unfold segmentNotes. rewrite rawSegments_mask. reflexivity.
Qed.

(** C9, as stated, fails: with two timestamps, one pitch sample and two
    voicing flags, [segmentNotes] returns a list of one segment, from 0 to
    0.125, whatever [Math.log2] and [Math.pow] return. *)
Lemma segmentNotes_unequal_lengths_returns_a_segment :
  length [0; 1 # 8] <> length [440]
  /\ forall Math_log2 Math_pow2 : Q -> Q,
       map times
         (segmentNotes Math_log2 Math_pow2 [0; 1 # 8] [440] [true; true]
            SEGMENTATION_PARAMS)
       = [(0.0000, 0.1250)].
Proof.
  split; [discriminate|]. intros lg pw. vm_compute. reflexivity.
Qed.

(** * The statistics panels, the audio normalisation and the MIDI info *)

(** ** [pitchStats] (App.vue, lines 88-125) *)

(** [a - b] on numbers that may be undefined or not a number. *)
Definition minusNumbers (a b : option Q) : option Q :=
  match a, b with
  | Some x, Some y => Some (x - y)
  | _, _ => None
  end.

(** The array [validPoints] that the loop over [i < pitch_hz.length] fills. *)
Definition validPoints (fd : FrameData) (threshold : Q) (frequencyRange : Q * Q) : list Q :=
  flat_map
    (fun ix =>
       let conf := nth_error (confidence fd) (fst ix) in
       let pitch := snd ix in
       if match conf with
          | Some c =>
              Qltb threshold c
              && Qle_bool (fst frequencyRange) pitch
              && Qle_bool pitch (snd frequencyRange)
          | None => false
          end
       then [pitch] else [])
    (combine (seq 0 (length (pitch_hz fd))) (pitch_hz fd)).

(** The object that [pitchStats] returns; a [null] field is [None]. *)
Record PitchStats : Type := {
  ps_count : nat;
  ps_average : option Q;
  ps_median : option Q;
  ps_min : option Q;
  ps_max : option Q;
  ps_duration : option Q
}.

Definition pitchStats (frameData : option FrameData) (threshold : Q)
    (frequencyRange : Q * Q) : option PitchStats :=
  match frameData with
  | None => None
  | Some fd =>
      let validPoints := validPoints fd threshold frequencyRange in
      let duration :=
        minusNumbers (nth_error (timestamps fd) (length (timestamps fd) - 1))
                     (nth_error (timestamps fd) 0) in
      if (length validPoints =? 0)%nat
      then Some {| ps_count := 0; ps_average := None; ps_median := None;
                   ps_min := None; ps_max := None; ps_duration := duration |}
      else
        let sorted := Array_sort Qle_bool validPoints in
        let avg := fold_left Qplus validPoints 0 / inject_Z (Z.of_nat (length validPoints)) in
        let median := nth_error sorted (length sorted / 2) in
        Some {| ps_count := length validPoints;
                ps_average := Some avg;
                ps_median := median;
                ps_min := nth_error sorted 0;
                ps_max := nth_error sorted (length sorted - 1);
                ps_duration := duration |}
  end.

(** ** [midiStats] (App.vue, lines 127-153) *)

Record MidiStats : Type := {
  ms_count : nat;
  ms_average : option Q;
  ms_median : option Z;
  ms_min : option Z;
  ms_max : option Z;
  ms_range : option Z
}.

Definition minusIntegers (a b : option Z) : option Z :=
  match a, b with
  | Some x, Some y => Some (x - y)%Z
  | _, _ => None
  end.

Definition midiStats (noteSegments : list NoteSegment) : MidiStats :=
  if (length noteSegments =? 0)%nat
  then {| ms_count := 0; ms_average := None; ms_median := None;
          ms_min := None; ms_max := None; ms_range := None |}
  else
    let midiNotes := map pitch_midi noteSegments in
    let sorted := Array_sort Z.leb midiNotes in
    let avg := inject_Z (fold_left Z.add midiNotes 0%Z)
               / inject_Z (Z.of_nat (length midiNotes)) in
    let median := nth_error sorted (length sorted / 2) in
    {| ms_count := length noteSegments;
       ms_average := Some avg;
       ms_median := median;
       ms_min := nth_error sorted 0;
       ms_max := nth_error sorted (length sorted - 1);
       ms_range := minusIntegers (nth_error sorted (length sorted - 1)) (nth_error sorted 0) |}.

(** ** The peak normalisation of [handleAudioBuffer] (App.vue, lines 731-742) *)

(** The loop that finds [max], the largest magnitude of a sample. *)
Definition peak (raw : list Q) : Q :=
  fold_left (fun max x => let absVal := Qabs x in if Qltb max absVal then absVal else max)
    raw 0.

(** The array [normalized]: zero-filled, then overwritten when [max > 0].
    [normalized] is a [Float32Array]: what is stored at [i] is not the exact
    quotient [raw[i] / max] but that quotient rounded to a double by the
    division and then to single precision by the store.  [float32] stands for
    this rounding of the exact quotient. *)
Definition normalized (float32 : Q -> Q) (raw : list Q) : list Q :=
  let max := peak raw in
  if Qltb 0 max then map (fun x => float32 (x / max)) raw else map (fun _ => 0) raw.

(** ** The duration of [generateMidiForPlayer] (App.vue, line 258) *)

(** [noteSegments.reduce((max, note) => Math.max(max, note.end), 0)]. *)
Definition midiInfoDuration (noteSegments : list NoteSegment) : Q :=
  fold_left (fun max note => Qmax max (note_end note)) noteSegments 0.

(** ** The duration of the player ([loadNotes], MidiPlayer, line 320) *)

(** [Math.max(...this.notes.map(note => note.end))], which [loadNotes]
    reaches only when [this.notes] is not empty ([None]: it returns before
    it sets a duration). *)
Definition loadNotes_duration (notes : list NoteSegment) : option Q :=
  match notes with
  | [] => None
  | note :: rest => Some (fold_left Qmax (map note_end rest) (note_end note))
  end.

(** ** [midiToNoteName] (App.vue, lines 79 and 155-159) *)

Definition NOTE_NAMES : list string :=
  ["C"; "C#"; "D"; "D#"; "E"; "F"; "F#"; "G"; "G#"; "A"; "A#"; "B"]%string.

(** The string that a template literal gives for an integer: its decimal
    digits, after a minus sign when it is negative. *)
Definition Number_toString (z : Z) : string := NilZero.string_of_int (Z.to_int z).

(** [NOTE_NAMES[noteIndex]] in a template literal: [undefined], which
    prints as such, when the index is not one of the array.  [%] is the
    remainder of the truncated division, of the sign of [midiNote]. *)
Definition noteNameAt (noteIndex : Z) : string :=
  match (if (noteIndex <? 0)%Z then None else nth_error NOTE_NAMES (Z.to_nat noteIndex)) with
  | Some name => name
  | None => "undefined"%string
  end.

Definition midiToNoteName (midiNote : Z) : string :=
  let octave := (midiNote / 12 - 1)%Z in
  let noteIndex := Z.rem midiNote 12 in
  (noteNameAt noteIndex ++ Number_toString octave)%string.

(** ** The chart points (App.vue, lines 979-1011) *)

(** A point [{ x, y, confidence }] of the chart: [x] and [confidence] are
    undefined ([None]) past the end of their arrays, [y] is [null] ([None])
    for a frame that is not shown. *)
Record ChartPoint : Type := {
  cp_x : option Q;
  cp_y : option Q;
  cp_confidence : option Q
}.

(** The array [points] that the watcher of [frameData] builds, one push per
    [i < newData.pitch_hz.length]. *)
Definition chartPoints (newData : option FrameData) (threshold : Q)
    (frequencyRange : Q * Q) : list ChartPoint :=
  match newData with
  | None => []
  | Some fd =>
      Array_mapi
        (fun pitch i =>
           let conf := nth_error (confidence fd) i in
           let time := nth_error (timestamps fd) i in
           if match conf with
              | Some c =>
                  Qltb threshold c
                  && Qle_bool (fst frequencyRange) pitch
                  && Qle_bool pitch (snd frequencyRange)
              | None => false
              end
           then {| cp_x := time; cp_y := Some pitch; cp_confidence := conf |}
           else {| cp_x := time; cp_y := None; cp_confidence := conf |})
        (pitch_hz fd)
  end.

(** ** The timestamps of [ONNXService] (App.vue, lines 2440-2445) *)

(** [timestamps[i] = (i * 256 + 127.5) / 16000] for [i < nFrames].
    [timestamps] is a [Float32Array]: what is stored is the exact quotient
    rounded to a double by the division and then to single precision by the
    store; [float32] stands for this rounding of the exact quotient. *)
Definition frameTimestamps (float32 : Q -> Q) (nFrames : nat) : list Q :=
  map (fun i => float32 ((inject_Z (Z.of_nat i) * 256 + 127.5) / 16000)) (seq 0 nFrames).

(** * Properties of the statistics *)

Local Open Scope Q_scope.

Section SortedArray.
Context {A : Type} (le : A -> A -> bool).
Hypothesis le_total : forall a b, le a b = true \/ le b a = true.
Hypothesis le_trans : forall a b c, le a b = true -> le b c = true -> le a c = true.

Lemma Array_sort_In (arr : list A) (x : A) : In x (Array_sort le arr) <-> In x arr.
Proof.
  split; apply Permutation_in;
    [apply Permutation_sym|]; apply Array_sort_perm.
Qed.

(** In the sorted array an element at a smaller index is below an element
    at a larger one. *)
Lemma Array_sort_nth_le (arr : list A) (i j : nat) (a b : A) :
  (i <= j)%nat ->
  nth_error (Array_sort le arr) i = Some a ->
  nth_error (Array_sort le arr) j = Some b ->
  le a b = true.
Proof.
  pose proof (Array_sort_sorted le le_total arr) as Hs.
  apply Sorted_StronglySorted in Hs; [|intros x y z; apply le_trans].
  revert i j. induction Hs as [|t ts Hs IH Hall]; intros i j Hij Ha Hb.
  - destruct i; discriminate Ha.
  - destruct i as [|i]; destruct j as [|j]; cbn [nth_error] in Ha, Hb.
    + injection Ha as <-. injection Hb as <-.
      destruct (le_total t t); assumption.
    + injection Ha as <-. rewrite Forall_forall in Hall.
      apply Hall. eapply nth_error_In, Hb.
    + lia.
    + apply (IH i j); [lia | assumption..].
Qed.

(** The first element of the sorted array is below every element of the
    array, and the last one is above. *)
Lemma Array_sort_extremes (arr : list A) (x : A) :
  In x arr ->
  exists mn mx,
    nth_error (Array_sort le arr) 0 = Some mn
    /\ nth_error (Array_sort le arr) (length (Array_sort le arr) - 1) = Some mx
    /\ le mn x = true /\ le x mx = true.
Proof.
  intros Hx. apply Array_sort_In in Hx.
  apply In_nth_error in Hx. destruct Hx as [k Hk].
  assert (Hlen : (k < length (Array_sort le arr))%nat)
    by (apply nth_error_Some; congruence).
  destruct (nth_error (Array_sort le arr) 0) as [mn|] eqn:E0;
    [|apply nth_error_None in E0; lia].
  destruct (nth_error (Array_sort le arr) (length (Array_sort le arr) - 1)) as [mx|] eqn:E1;
    [|apply nth_error_None in E1; lia].
  exists mn, mx. repeat split.
  - apply (Array_sort_nth_le arr 0 k); [lia | assumption..].
  - apply (Array_sort_nth_le arr k (length (Array_sort le arr) - 1)); [lia | assumption..].
Qed.
End SortedArray.

Lemma Qle_bool_trans (a b c : Q) :
  Qle_bool a b = true -> Qle_bool b c = true -> Qle_bool a c = true.
Proof.
  rewrite !Qle_bool_iff. apply Qle_trans.
Qed.

Lemma Zleb_total (a b : Z) : (a <=? b)%Z = true \/ (b <=? a)%Z = true.
Proof. rewrite !Z.leb_le. lia. Qed.

Lemma Zleb_trans (a b c : Z) :
  (a <=? b)%Z = true -> (b <=? c)%Z = true -> (a <=? c)%Z = true.
Proof. rewrite !Z.leb_le. lia. Qed.

(** ** Sums and averages *)

Lemma count_succ (n : nat) : inject_Z (Z.of_nat (S n)) == inject_Z (Z.of_nat n) + 1.
Proof.
  rewrite Nat2Z.inj_succ. unfold Z.succ. rewrite inject_Z_plus. reflexivity.
Qed.

Lemma count_pos (n : nat) : (0 < n)%nat -> 0 < inject_Z (Z.of_nat n).
Proof.
  intros H. change 0 with (inject_Z 0). rewrite <- Zlt_Qlt. lia.
Qed.

Lemma sum_between (mn mx : Q) (l : list Q) : forall acc,
  Forall (fun x => mn <= x /\ x <= mx) l ->
  acc + inject_Z (Z.of_nat (length l)) * mn <= fold_left Qplus l acc
  /\ fold_left Qplus l acc <= acc + inject_Z (Z.of_nat (length l)) * mx.
Proof.
  induction l as [|x l IH]; intros acc Hall; cbn [fold_left length].
  - change (inject_Z (Z.of_nat 0)) with 0. lra.
  - apply Forall_cons_iff in Hall. destruct Hall as [[Hlo Hhi] Hall].
    destruct (IH (acc + x) Hall) as [IH1 IH2].
    rewrite count_succ.
    set (n := inject_Z (Z.of_nat (length l))) in *.
    assert (E1 : (n + 1) * mn == n * mn + mn) by ring.
    assert (E2 : (n + 1) * mx == n * mx + mx) by ring.
    rewrite E1, E2. set (a := n * mn) in *. set (b := n * mx) in *. lra.
Qed.

Lemma average_between (mn mx : Q) (l : list Q) :
  (0 < length l)%nat -> Forall (fun x => mn <= x /\ x <= mx) l ->
  mn <= fold_left Qplus l 0 / inject_Z (Z.of_nat (length l))
  /\ fold_left Qplus l 0 / inject_Z (Z.of_nat (length l)) <= mx.
Proof.
  intros Hpos Hall.
  pose proof (count_pos _ Hpos) as Hn.
  destruct (sum_between mn mx l 0 Hall) as [H1 H2].
  split.
  - apply Qle_shift_div_l; [assumption|].
    rewrite Qmult_comm. lra.
  - apply Qle_shift_div_r; [assumption|].
    rewrite (Qmult_comm mx). lra.
Qed.

Lemma integer_sum_between (mn mx : Z) (l : list Z) : forall acc,
  Forall (fun x => mn <= x <= mx)%Z l ->
  (acc + Z.of_nat (length l) * mn <= fold_left Z.add l acc
   /\ fold_left Z.add l acc <= acc + Z.of_nat (length l) * mx)%Z.
Proof.
  induction l as [|x l IH]; intros acc Hall; cbn [fold_left length].
  - lia.
  - apply Forall_cons_iff in Hall. destruct Hall as [Hx Hall].
    destruct (IH (acc + x)%Z Hall) as [IH1 IH2]. lia.
Qed.

Lemma integer_average_between (mn mx : Z) (l : list Z) :
  (0 < length l)%nat -> Forall (fun x => mn <= x <= mx)%Z l ->
  inject_Z mn <= inject_Z (fold_left Z.add l 0%Z) / inject_Z (Z.of_nat (length l))
  /\ inject_Z (fold_left Z.add l 0%Z) / inject_Z (Z.of_nat (length l)) <= inject_Z mx.
Proof.
  intros Hpos Hall.
  pose proof (count_pos _ Hpos) as Hn.
  destruct (integer_sum_between mn mx l 0%Z Hall) as [H1 H2].
  split.
  - apply Qle_shift_div_l; [assumption|].
    rewrite <- inject_Z_mult, <- Zle_Qle. lia.
  - apply Qle_shift_div_r; [assumption|].
    rewrite <- inject_Z_mult, <- Zle_Qle. lia.
Qed.

(** ** [pitchStats] *)

Lemma validPoints_In (fd : FrameData) (threshold lo hi p : Q) :
  In p (validPoints fd threshold (lo, hi)) ->
  In p (pitch_hz fd) /\ lo <= p /\ p <= hi.
Proof.
  unfold validPoints. rewrite in_flat_map. intros [[i x] [Hin Hp]].
  cbn [fst snd] in Hp.
  destruct (nth_error (confidence fd) i) as [c|]; [|contradiction].
  destruct (Qltb threshold c && Qle_bool lo x && Qle_bool x hi) eqn:E; [|contradiction].
  destruct Hp as [<-|[]].
  apply andb_true_iff in E. destruct E as [E Ehi].
  apply andb_true_iff in E. destruct E as [_ Elo].
  apply Qle_bool_iff in Elo, Ehi.
  split; [|split; assumption].
  apply in_combine_r in Hin. exact Hin.
Qed.

Lemma count_kept {A B : Type} (keep : A -> bool) (g : A -> B) (l : list A) :
  length (flat_map (fun x => if keep x then [g x] else []) l)
  = length (filter (fun v => v) (map keep l)).
Proof.
  induction l as [|x l IH]; [reflexivity|].
  cbn [flat_map map filter]. rewrite length_app, IH.
  destruct (keep x); reflexivity.
Qed.

(** The count of the pitch statistics is the number of frames that
    [voicedFlags] marks as voiced (the [voicedFramesCount] of the exported
    metadata): the two loops apply the same test. *)
Theorem pitchStats_count_is_voiced_count (fd : FrameData) (threshold : Q)
    (frequencyRange : Q * Q) :
  exists stats,
    pitchStats (Some fd) threshold frequencyRange = Some stats
    /\ ps_count stats
       = length (filter (fun v => v) (voicedFlags (Some fd) threshold frequencyRange)).
Proof.
  assert (Hcount :
    length (validPoints fd threshold frequencyRange)
    = length (filter (fun v => v) (voicedFlags (Some fd) threshold frequencyRange))).
  { unfold validPoints, voicedFlags, hasData, Array_mapi, voicedFlag.
    destruct (0 <? length (pitch_hz fd))%nat eqn:Ep.
    - apply (count_kept
               (fun ix : nat * Q =>
                  match nth_error (confidence fd) (fst ix) with
                  | Some c =>
                      Qltb threshold c && Qle_bool (fst frequencyRange) (snd ix)
                      && Qle_bool (snd ix) (snd frequencyRange)
                  | None => false
                  end) snd).
    - apply Nat.ltb_ge in Ep.
      destruct (pitch_hz fd); [reflexivity | cbn in Ep; lia]. }
  unfold pitchStats.
  destruct (length (validPoints fd threshold frequencyRange) =? 0)%nat eqn:E.
  - eexists. split; [reflexivity|]. cbn [ps_count].
    apply Nat.eqb_eq in E. congruence.
  - eexists. split; [reflexivity|]. cbn [ps_count]. exact Hcount.
Qed.

(** When at least one frame is voiced, the pitch statistics are ordered:
    the frequency band contains the minimum and the maximum, the median and
    the average lie between them, and the median is the pitch of one of the
    frames. *)
Theorem pitchStats_ordered (fd : FrameData) (threshold lo hi : Q) (stats : PitchStats) :
  pitchStats (Some fd) threshold (lo, hi) = Some stats ->
  (0 < ps_count stats)%nat ->
  exists mn md mx av,
    ps_min stats = Some mn /\ ps_median stats = Some md
    /\ ps_max stats = Some mx /\ ps_average stats = Some av
    /\ lo <= mn /\ mn <= md /\ md <= mx /\ mx <= hi
    /\ mn <= av /\ av <= mx
    /\ In md (pitch_hz fd).
Proof.
  unfold pitchStats. set (vp := validPoints fd threshold (lo, hi)).
  destruct (length vp =? 0)%nat eqn:E; intros H Hcount; injection H as <-;
    cbn [ps_count ps_min ps_median ps_max ps_average] in *; [lia|].
  set (sorted := Array_sort Qle_bool vp).
  assert (Hlen : length sorted = length vp) by apply Array_sort_length.
  destruct (nth_error sorted (length sorted / 2)) as [md|] eqn:Emd.
  2:{ apply nth_error_None in Emd.
      pose proof (Nat.Div0.div_lt_upper_bound (length sorted) 2 (length sorted)). lia. }
  assert (Hmd : In md vp).
  { apply (Array_sort_In Qle_bool). eapply nth_error_In, Emd. }
  destruct (Array_sort_extremes Qle_bool Qle_bool_total Qle_bool_trans vp md Hmd)
    as [mn [mx [Emn [Emx [H1 H2]]]]].
  fold sorted in Emn, Emx.
  exists mn, md, mx, (fold_left Qplus vp 0 / inject_Z (Z.of_nat (length vp))).
  split; [exact Emn|]. split; [exact Emd|]. split; [exact Emx|]. split; [reflexivity|].
  apply Qle_bool_iff in H1, H2.
  assert (Hmn : In mn vp) by (apply (Array_sort_In Qle_bool); eapply nth_error_In, Emn).
  assert (Hmx : In mx vp) by (apply (Array_sort_In Qle_bool); eapply nth_error_In, Emx).
  apply validPoints_In in Hmn, Hmx.
  assert (Hall : Forall (fun x => mn <= x /\ x <= mx) vp).
  { apply Forall_forall. intros x Hx.
    destruct (Array_sort_extremes Qle_bool Qle_bool_total Qle_bool_trans vp x Hx)
      as [mn' [mx' [Emn' [Emx' [H1' H2']]]]].
    fold sorted in Emn', Emx'. rewrite Emn in Emn'. rewrite Emx in Emx'.
    injection Emn' as <-. injection Emx' as <-.
    apply Qle_bool_iff in H1', H2'. auto. }
  destruct (average_between mn mx vp Hcount Hall) as [Ha1 Ha2].
  repeat split; try tauto.
  apply (validPoints_In fd threshold lo hi md Hmd).
Qed.

Lemma pitchStats_ordered_witness :
  exists mn md mx av,
    Some 220 = Some mn /\ Some 440 = Some md
    /\ Some 440 = Some mx /\ Some ((0 + 440 + 220) / 2) = Some av
    /\ 80 <= mn /\ mn <= md /\ md <= mx /\ mx <= 2000
    /\ mn <= av /\ av <= mx
    /\ In md [440; 220; 3000].
Proof.
  apply (pitchStats_ordered
           {| pitch_hz := [440; 220; 3000]; confidence := [1; 1; 1];
              timestamps := [0; 1 # 64; 1 # 32] |}
           (1 # 2) 80 2000
           {| ps_count := 2; ps_average := Some ((0 + 440 + 220) / 2);
              ps_median := Some 440; ps_min := Some 220; ps_max := Some 440;
              ps_duration := Some ((1 # 32) - 0) |}).
  - reflexivity.
  - cbn. lia.
Defined.

(** ** [midiStats] *)

(** For a non-empty note list the MIDI statistics are ordered: every note
    lies between the minimum and the maximum, so do the median and the
    average, the median is the pitch of one of the notes, and the range is
    the maximum minus the minimum, which is not negative. *)
Theorem midiStats_ordered (noteSegments : list NoteSegment) :
  noteSegments <> [] ->
  exists mn md mx av,
    ms_min (midiStats noteSegments) = Some mn
    /\ ms_median (midiStats noteSegments) = Some md
    /\ ms_max (midiStats noteSegments) = Some mx
    /\ ms_average (midiStats noteSegments) = Some av
    /\ ms_range (midiStats noteSegments) = Some (mx - mn)%Z
    /\ ms_count (midiStats noteSegments) = length noteSegments
    /\ (mn <= md <= mx)%Z /\ (0 <= mx - mn)%Z
    /\ inject_Z mn <= av /\ av <= inject_Z mx
    /\ Forall (fun n => mn <= pitch_midi n <= mx)%Z noteSegments
    /\ In md (map pitch_midi noteSegments).
Proof.
  intros Hne. unfold midiStats.
  destruct (length noteSegments =? 0)%nat eqn:E.
  { apply Nat.eqb_eq in E. destruct noteSegments; [contradiction | discriminate E]. }
  set (midiNotes := map pitch_midi noteSegments).
  set (sorted := Array_sort Z.leb midiNotes).
  assert (Hcount : (0 < length midiNotes)%nat).
  { unfold midiNotes. rewrite length_map. apply Nat.eqb_neq in E. lia. }
  assert (Hlen : length sorted = length midiNotes) by apply Array_sort_length.
  destruct (nth_error sorted (length sorted / 2)) as [md|] eqn:Emd.
  2:{ apply nth_error_None in Emd.
      pose proof (Nat.Div0.div_lt_upper_bound (length sorted) 2 (length sorted)). lia. }
  assert (Hmd : In md midiNotes).
  { apply (Array_sort_In Z.leb). eapply nth_error_In, Emd. }
  destruct (Array_sort_extremes Z.leb Zleb_total Zleb_trans midiNotes md Hmd)
    as [mn [mx [Emn [Emx [H1 H2]]]]].
  fold sorted in Emn, Emx.
  apply Z.leb_le in H1, H2.
  assert (Hall : Forall (fun x => mn <= x <= mx)%Z midiNotes).
  { apply Forall_forall. intros x Hx.
    destruct (Array_sort_extremes Z.leb Zleb_total Zleb_trans midiNotes x Hx)
      as [mn' [mx' [Emn' [Emx' [H1' H2']]]]].
    fold sorted in Emn', Emx'. rewrite Emn in Emn'. rewrite Emx in Emx'.
    injection Emn' as <-. injection Emx' as <-.
    apply Z.leb_le in H1', H2'. auto. }
  destruct (integer_average_between mn mx midiNotes Hcount Hall) as [Ha1 Ha2].
  exists mn, md, mx,
    (inject_Z (fold_left Z.add midiNotes 0%Z) / inject_Z (Z.of_nat (length midiNotes))).
  split; [exact Emn|]. split; [reflexivity|]. split; [exact Emx|]. split; [reflexivity|].
  split; [cbn [ms_range]; rewrite Emn, Emx; reflexivity|].
  split; [reflexivity|].
  split; [lia|]. split; [lia|]. split; [exact Ha1|]. split; [exact Ha2|].
  split; [|exact Hmd].
  apply Forall_forall. intros n Hn. rewrite Forall_forall in Hall.
  apply Hall. unfold midiNotes. apply in_map, Hn.
Qed.

Lemma midiStats_ordered_witness :
  exists mn md mx av,
    ms_min (midiStats two_notes) = Some mn
    /\ ms_median (midiStats two_notes) = Some md
    /\ ms_max (midiStats two_notes) = Some mx
    /\ ms_average (midiStats two_notes) = Some av
    /\ ms_range (midiStats two_notes) = Some (mx - mn)%Z
    /\ ms_count (midiStats two_notes) = length two_notes
    /\ (mn <= md <= mx)%Z /\ (0 <= mx - mn)%Z
    /\ inject_Z mn <= av /\ av <= inject_Z mx
    /\ Forall (fun n => mn <= pitch_midi n <= mx)%Z two_notes
    /\ In md (map pitch_midi two_notes).
Proof.
  apply (midiStats_ordered two_notes). discriminate.
Defined.

(** * Further properties of [median] *)

(** The median does not depend on the order of the samples. *)
Theorem median_permutation (arr arr' : list Q) :
  Permutation arr arr' -> median arr == median arr'.
Proof.
  intros HP. unfold median.
  rewrite !Array_sort_length, <- (Permutation_length HP).
  destruct (length arr =? 0)%nat; [reflexivity|].
  assert (Hnth : forall k, nth k (Array_sort Qle_bool arr') 0
                           == nth k (Array_sort Qle_bool arr) 0).
  { intros k. apply sorted_arrangement_nth; [apply sort_numbers_sorted|].
    eapply perm_trans; [|exact HP]. apply Permutation_sym, Array_sort_perm. }
  destruct (length arr mod 2 =? 0)%nat; rewrite !Hnth; reflexivity.
Qed.

Lemma median_permutation_witness : median [3; 1; 2; 4] == median [4; 2; 1; 3].
Proof.
  apply (median_permutation [3; 1; 2; 4] [4; 2; 1; 3]).
  apply (Permutation_rev [3; 1; 2; 4]).
Defined.

(** Two doubles of magnitude below [2^1023] add to a finite double. *)
Definition finite_sum_bound : Q := inject_Z (2 ^ 1023).

(** The median of a non-empty array lies within any bounds of its
    elements, when these bounds are of magnitude below [2^1023], so that
    the sum of the two middle elements is finite in the source. *)
Theorem median_between (arr : list Q) (lo hi : Q) :
  arr <> [] -> Forall (fun x => lo <= x /\ x <= hi) arr ->
  - finite_sum_bound < lo -> hi < finite_sum_bound ->
  lo <= median arr /\ median arr <= hi.
Proof.
  intros Hne Hall _ _. unfold median.
  destruct (length arr =? 0)%nat eqn:E.
  { apply Nat.eqb_eq in E. destruct arr; [contradiction | discriminate E]. }
  apply Nat.eqb_neq in E.
  set (sorted := Array_sort Qle_bool arr).
  assert (Hlen : length sorted = length arr) by apply Array_sort_length.
  assert (Hnth : forall k, (k < length sorted)%nat ->
                           lo <= nth k sorted 0 /\ nth k sorted 0 <= hi).
  { intros k Hk. rewrite Forall_forall in Hall. apply Hall.
    apply (Array_sort_In Qle_bool). apply nth_In, Hk. }
  pose proof (Nat.Div0.div_lt_upper_bound (length sorted) 2 (length sorted)) as Hmid.
  destruct (length sorted mod 2 =? 0)%nat eqn:Em.
  - destruct (Hnth (length sorted / 2)%nat) as [H1 H2]; [lia|].
    destruct (Hnth (length sorted / 2 - 1)%nat) as [H3 H4]; [lia|].
    set (a := nth (length sorted / 2 - 1) sorted 0) in *.
    set (b := nth (length sorted / 2) sorted 0) in *.
    assert (Ediv : (a + b) / 2 == (a + b) * (1 # 2)) by reflexivity.
    rewrite Ediv. lra.
  - apply Hnth. lia.
Qed.

Lemma median_between_witness : 60 <= median [60; 62] /\ median [60; 62] <= 62.
Proof.
  apply (median_between [60; 62] 60 62).
  - discriminate.
  - repeat constructor; discriminate.
  - vm_compute. reflexivity.
  - vm_compute. reflexivity.
Defined.

(** * Further properties of the MIDI encoder *)

Local Open Scope Z_scope.

(** ** The shape of a variable-length quantity *)

Lemma tempChunks_length (k : nat) : forall v,
  0 <= v < 2 ^ 31 -> v < 128 ^ Z.of_nat (S k) ->
  (length (tempChunks v) <= S k)%nat.
Proof.
  induction k as [|k IH]; intros v Hv Hk;
    rewrite tempChunks_step, toInt32_small, Z.shiftr_div_pow2 by lia;
    change (2 ^ 7) with 128.
  - change (128 ^ Z.of_nat 1) with 128 in Hk.
    rewrite Z.div_small by lia. cbn. lia.
  - destruct (0 <? v / 128) eqn:E; [|cbn; lia].
    cbn [length]. apply le_n_S. apply IH.
    + split; [apply Z.div_pos; lia|].
      apply Z.div_lt_upper_bound; lia.
    + apply Z.div_lt_upper_bound; [lia|].
      rewrite (Nat2Z.inj_succ (S k)), Z.pow_succ_r in Hk by lia. exact Hk.
Qed.

Lemma continuation_byte (h : Z) : is_chunk h -> Z.lor h 0x80 = h + 128.
Proof.
  intros H.
  assert (Hland : Z.land h 0x80 = 0).
  { apply Z.bits_inj'. intros n Hn.
    rewrite Z.land_spec, Z.bits_0. change 0x80 with (2 ^ 7).
    rewrite Z.pow2_bits_eqb by lia.
    destruct (Z.eqb_spec 7 n) as [<-|]; [|apply andb_false_r].
    rewrite chunk_bit7 by exact H. reflexivity. }
  rewrite <- Z.lxor_lor by exact Hland.
  symmetry. apply Z.add_nocarry_lxor. exact Hland.
Qed.

(** On a value below [2^31], [encodeVariableLength] returns at least one
    byte; every byte but the last is between [0x80] and [0xFF], the last is
    below [0x80]; and a value below [128^(k+1)] takes at most [k]
    continuation bytes, so at most 4 bytes in all below [2^28], the largest
    delta of a Standard MIDI File, and at most 5 below [2^31]. *)
Theorem encodeVariableLength_shape (v : Z) :
  0 <= v < 2 ^ 31 ->
  exists continued last,
    encodeVariableLength v = Normal (continued ++ [last])
    /\ Forall (fun b => 0x80 <= b <= 0xFF) continued
    /\ 0 <= last < 0x80
    /\ (length continued <= 4)%nat
    /\ forall k : nat, v < 128 ^ Z.of_nat (S k) -> (length continued <= k)%nat.
Proof.
  intros Hv. unfold encodeVariableLength.
  destruct (v <? 0) eqn:Eneg; [apply Z.ltb_lt in Eneg; lia|].
  destruct (v =? 0) eqn:Ez.
  - exists [], 0.
    split; [reflexivity|]. split; [constructor|]. split; [lia|].
    split; [cbn; lia|]. intros k _. cbn. lia.
  - destruct (tempChunks_digits v Hv) as [_ [Hall [c [cs Hcs]]]].
    assert (Hlen : forall k : nat, v < 128 ^ Z.of_nat (S k) -> (length cs <= k)%nat).
    { intros k Hk. pose proof (tempChunks_length k v Hv Hk) as H.
      rewrite Hcs in H. cbn [length] in H. lia. }
    rewrite Hcs in Hall |- *. rewrite continuationBytes_cons.
    apply Forall_cons_iff in Hall. destruct Hall as [Hc Hcs'].
    exists (map (fun b => Z.lor b 0x80) (rev cs)), c.
    split; [reflexivity|]. split; [|split; [exact Hc|split]].
    + apply Forall_map. apply Forall_rev.
      eapply Forall_impl; [|exact Hcs'].
      intros h Hh. rewrite continuation_byte by exact Hh. unfold is_chunk in Hh. lia.
    + rewrite length_map, length_rev. apply (Hlen 4%nat).
      change (128 ^ Z.of_nat 5) with 34359738368. lia.
    + intros k Hk. rewrite length_map, length_rev. apply Hlen, Hk.
Qed.

Lemma encodeVariableLength_shape_witness :
  exists continued last,
    encodeVariableLength 960 = Normal (continued ++ [last])
    /\ Forall (fun b => 0x80 <= b <= 0xFF) continued
    /\ 0 <= last < 0x80
    /\ (length continued <= 4)%nat
    /\ forall k : nat, 960 < 128 ^ Z.of_nat (S k) -> (length continued <= k)%nat.
Proof.
  apply (encodeVariableLength_shape 960). lia.
Defined.

(** ** The layout of the file *)

(** The number that bytes stand for, most significant byte first. *)
Definition bigEndian (bytes : list Z) : Z :=
  fold_left (fun acc b => acc * 256 + b) bytes 0.

Lemma land_ff_mod (x : Z) : Z.land x 0xff = x mod 256.
Proof.
  change 0xff with (Z.ones 8). rewrite Z.land_ones by lia. reflexivity.
Qed.

Lemma trackLengthBytes_value (n : Z) :
  0 <= n < 2 ^ 31 -> bigEndian (trackLengthBytes n) = n.
Proof.
  intros Hn. unfold trackLengthBytes, bigEndian.
  rewrite toInt32_small by lia. cbn [fold_left].
  rewrite !land_ff_mod, !Z.shiftr_div_pow2 by lia.
  change (2 ^ 24) with (256 * 256 * 256). change (2 ^ 16) with (256 * 256).
  change (2 ^ 8) with 256.
  rewrite <- !Z.div_div by lia.
  change (2 ^ 31) with 2147483648 in Hn.
  pose proof (Z.div_mod n 256 ltac:(lia)) as H0.
  pose proof (Z.mod_pos_bound n 256 ltac:(lia)) as B0.
  set (q1 := n / 256) in *.
  pose proof (Z.div_mod q1 256 ltac:(lia)) as H1.
  pose proof (Z.mod_pos_bound q1 256 ltac:(lia)) as B1.
  set (q2 := q1 / 256) in *.
  pose proof (Z.div_mod q2 256 ltac:(lia)) as H2.
  pose proof (Z.mod_pos_bound q2 256 ltac:(lia)) as B2.
  set (q3 := q2 / 256) in *.
  assert (H3 : q3 mod 256 = q3) by (apply Z.mod_small; lia).
  rewrite H3. lia.
Qed.

Lemma trackLengthBytes_bytes (n : Z) :
  Forall (fun b => 0 <= b < 256) (trackLengthBytes n).
Proof.
  unfold trackLengthBytes. repeat constructor; apply land_ff_range.
Qed.

Lemma toUint8_range (x : Z) : 0 <= toUint8 x < 256.
Proof. unfold toUint8. apply Z.mod_pos_bound. lia. Qed.

(** What one iteration of the loop over the events appends. *)
Definition eventRecord (deltaBytes : list Z) (event : MidiEvent) : list Z :=
  deltaBytes ++ [ev_type event; ev_note event; ev_velocity event].

Lemma encodeEvents_bytes (tempo : Q) (events : list MidiEvent) :
  forall trackEvents lastEventTicks out,
  encodeEvents tempo events trackEvents lastEventTicks = Normal out ->
  exists chunks,
    Forall2 (fun delta bytes => encodeVariableLength delta = Normal bytes)
      (deltaTicksOf tempo events lastEventTicks) chunks
    /\ out = trackEvents
             ++ concat (map (fun p => eventRecord (fst p) (snd p)) (combine chunks events)).
Proof.
  induction events as [|event rest IH]; intros track last out H;
    cbn [encodeEvents deltaTicksOf] in *.
  - injection H as <-. exists []. split; [constructor|].
    cbn. rewrite app_nil_r. reflexivity.
  - destruct (encodeVariableLength (secondsToTicks tempo (ev_time event) - last))
      as [bytes|] eqn:E; [|discriminate H].
    cbn [bind] in H. apply IH in H. destruct H as [chunks [Hall ->]].
    exists (bytes :: chunks). split; [constructor; assumption|].
    cbn [combine map concat fst snd]. unfold eventRecord at 2.
    rewrite <- !app_assoc. reflexivity.
Qed.

Lemma Normal_inj {A : Type} (x y : A) : Normal x = Normal y -> x = y.
Proof. intros H. congruence. Qed.

(** Whenever [createMidiFile] returns, the array is the 14 header bytes,
    [MTrk], four length bytes and the track; the track begins with the tempo
    meta-event and ends with the end of track; every element is a byte; and
    (for an array of fewer than [2^31] bytes) the length bytes, read most
    significant first, give the number of bytes of the track. *)
Theorem createMidiFile_layout (noteSegments : list NoteSegment) (tempo : Q)
    (velocity : Z) (bytes : list Z) :
  createMidiFile noteSegments tempo velocity = Normal bytes ->
  Z.of_nat (length bytes) < 2 ^ 31 ->
  exists lengthField b1 b2 b3 body,
    bytes = [0x4D; 0x54; 0x68; 0x64; 0x00; 0x00; 0x00; 0x06;
             0x00; 0x00; 0x00; 0x01; 0x01; 0xE0]
            ++ [0x4D; 0x54; 0x72; 0x6B] ++ lengthField
            ++ ([0x00; 0xFF; 0x51; 0x03; b1; b2; b3] ++ body ++ [0x00; 0xFF; 0x2F; 0x00])
    /\ length lengthField = 4%nat
    /\ bigEndian lengthField
       = Z.of_nat (length ([0x00; 0xFF; 0x51; 0x03; b1; b2; b3]
                           ++ body ++ [0x00; 0xFF; 0x2F; 0x00]))
    /\ Forall (fun b => 0 <= b < 256) bytes.
Proof.
  intros H Hlen. unfold createMidiFile in H.
  destruct (encodeEvents tempo (allEvents velocity noteSegments) (tempoEvent tempo) 0)
    as [events|] eqn:E; [|discriminate H].
  cbn [bind] in H. apply Normal_inj in H. subst bytes.
  apply encodeEvents_bytes in E. destruct E as [chunks [_ ->]].
  set (records := concat (map (fun p => eventRecord (fst p) (snd p))
                            (combine chunks (allEvents velocity noteSegments)))) in *.
  set (track := (tempoEvent tempo ++ records) ++ END_OF_TRACK) in *.
  assert (Htrack : map toUint8 track
                   = map toUint8 (tempoEvent tempo) ++ map toUint8 records
                     ++ [0x00; 0xFF; 0x2F; 0x00]).
  { unfold track. rewrite !map_app, <- app_assoc. reflexivity. }
  assert (Hbound : 0 <= Z.of_nat (length track) < 2 ^ 31).
  { split; [lia|]. rewrite length_map in Hlen. rewrite !length_app in Hlen. lia. }
  exists (trackLengthBytes (Z.of_nat (length track))),
         (Z.land (Z.shiftr (toInt32 (Math_round (60000000 / tempo)%Q)) 16) 0xff),
         (Z.land (Z.shiftr (toInt32 (Math_round (60000000 / tempo)%Q)) 8) 0xff),
         (Z.land (toInt32 (Math_round (60000000 / tempo)%Q)) 0xff),
         (map toUint8 records).
  split; [|split; [reflexivity|split]].
  - rewrite !map_app, Htrack.    rewrite (map_toUint8_bytes (trackLengthBytes _)) by apply trackLengthBytes_bytes.
    unfold tempoEvent. cbn [map]. rewrite !toUint8_byte. reflexivity.
  - rewrite trackLengthBytes_value by exact Hbound.
    f_equal. unfold track.
    rewrite !length_app, length_map. unfold tempoEvent, END_OF_TRACK. cbn [length]. lia.
  - apply Forall_forall. intros b Hb. apply in_map_iff in Hb.
    destruct Hb as [x [<- _]]. apply toUint8_range.
Qed.

Lemma createMidiFile_layout_witness :
  exists lengthField b1 b2 b3 body,
    [0x4D; 0x54; 0x68; 0x64; 0x00; 0x00; 0x00; 0x06;
     0x00; 0x00; 0x00; 0x01; 0x01; 0xE0;
     0x4D; 0x54; 0x72; 0x6B; 0x00; 0x00; 0x00; 0x14;
     0x00; 0xFF; 0x51; 0x03; 0x07; 0xA1; 0x20;
     0x00; 0x90; 0x3C; 0x50;
     0x87; 0x40; 0x80; 0x3C; 0x00;
     0x00; 0xFF; 0x2F; 0x00]
    = [0x4D; 0x54; 0x68; 0x64; 0x00; 0x00; 0x00; 0x06;
       0x00; 0x00; 0x00; 0x01; 0x01; 0xE0]
      ++ [0x4D; 0x54; 0x72; 0x6B] ++ lengthField
      ++ ([0x00; 0xFF; 0x51; 0x03; b1; b2; b3] ++ body ++ [0x00; 0xFF; 0x2F; 0x00])
    /\ length lengthField = 4%nat
    /\ bigEndian lengthField
       = Z.of_nat (length ([0x00; 0xFF; 0x51; 0x03; b1; b2; b3]
                           ++ body ++ [0x00; 0xFF; 0x2F; 0x00]))
    /\ Forall (fun b => 0 <= b < 256)
         [0x4D; 0x54; 0x68; 0x64; 0x00; 0x00; 0x00; 0x06;
          0x00; 0x00; 0x00; 0x01; 0x01; 0xE0;
          0x4D; 0x54; 0x72; 0x6B; 0x00; 0x00; 0x00; 0x14;
          0x00; 0xFF; 0x51; 0x03; 0x07; 0xA1; 0x20;
          0x00; 0x90; 0x3C; 0x50;
          0x87; 0x40; 0x80; 0x3C; 0x00;
          0x00; 0xFF; 0x2F; 0x00].
Proof.
  apply (createMidiFile_layout [middle_C 261.63] 120 80).
  - apply middle_C_bytes.
  - cbn. lia.
Defined.

(** ** The order of the events *)

Section StableSort.
Context {A : Type} (le : A -> A -> bool).

(** [before a b l]: an occurrence of [a] in [l] is followed, later in [l],
    by an occurrence of [b]. *)
Inductive before (a b : A) : list A -> Prop :=
| before_here (l : list A) : In b l -> before a b (a :: l)
| before_later (x : A) (l : list A) : before a b l -> before a b (x :: l).

Lemma sort_insert_In (x y : A) (l : list A) :
  In y (sort_insert le x l) <-> y = x \/ In y l.
Proof.
  split.
  - intros H. apply (Permutation_in _ (Permutation_sym (sort_insert_perm le x l))) in H.
    destruct H as [->|H]; auto.
  - intros H. apply (Permutation_in _ (sort_insert_perm le x l)).
    destruct H as [->|H]; [left; reflexivity | right; exact H].
Qed.

Lemma sort_insert_keeps_before (a b x : A) (l : list A) :
  before a b l -> before a b (sort_insert le x l).
Proof.
  induction 1 as [l Hb|y l Hab IH]; cbn [sort_insert].
  - destruct (le x a).
    + apply before_later, before_here, Hb.
    + apply before_here. apply sort_insert_In. right. exact Hb.
  - destruct (le x y).
    + apply before_later, before_later, Hab.
    + apply before_later, IH.
Qed.

Lemma sort_insert_goes_before (a b : A) (l : list A) :
  le a b = true -> In b l -> before a b (sort_insert le a l).
Proof.
  intros Hab. induction l as [|y l IH]; intros Hb; [contradiction|].
  cbn [sort_insert]. destruct (le a y) eqn:E.
  - apply before_here, Hb.
  - destruct Hb as [->|Hb]; [congruence|].
    apply before_later, IH, Hb.
Qed.

(** The sort is stable for a pair in order: when [a] comes before [b] in
    the array and [compare(a, b) <= 0], [a] comes before [b] in the sorted
    array. *)
Lemma Array_sort_stable (a b : A) (l : list A) :
  le a b = true -> before a b l -> before a b (Array_sort le l).
Proof.
  intros Hab. induction 1 as [l Hb|x l Hl IH]; cbn [Array_sort fold_right].
  - apply sort_insert_goes_before; [exact Hab|].
    apply (Permutation_in _ (Array_sort_perm le l)), Hb.
  - apply sort_insert_keeps_before, IH.
Qed.

Lemma before_nth_error (a b : A) (l : list A) :
  before a b l ->
  exists i j, (i < j)%nat /\ nth_error l i = Some a /\ nth_error l j = Some b.
Proof.
  induction 1 as [l Hb|x l Hl [i [j [Hij [Hi Hj]]]]].
  - apply In_nth_error in Hb. destruct Hb as [j Hj].
    exists 0%nat, (S j). split; [lia|]. split; [reflexivity | exact Hj].
  - exists (S i), (S j). split; [lia|]. split; assumption.
Qed.
End StableSort.

Lemma noteEvents_before (velocity : Z) (noteSegments : list NoteSegment) (n : NoteSegment) :
  In n noteSegments ->
  exists on off,
    noteEvents velocity n = [on; off]
    /\ before on off (flat_map (noteEvents velocity) noteSegments).
Proof.
  intros Hn. eexists. eexists. split; [reflexivity|].
  induction noteSegments as [|m rest IH]; [contradiction|].
  cbn [flat_map]. destruct Hn as [->|Hn].
  - unfold noteEvents at 1. cbn [app]. apply before_here. left. reflexivity.
  - unfold noteEvents at 1. cbn [app]. apply before_later, before_later, IH, Hn.
Qed.

Lemma length_flat_map_noteEvents (velocity : Z) (noteSegments : list NoteSegment) :
  length (flat_map (noteEvents velocity) noteSegments) = (2 * length noteSegments)%nat.
Proof.
  induction noteSegments as [|n rest IH]; [reflexivity|].
  cbn [flat_map length]. rewrite length_app, IH. cbn. lia.
Qed.

(** The sorted event list has two events per note, in ascending order of
    time, and for every note that does not end before it starts, its
    Note-On comes before its Note-Off (also when both fall on the same
    time). *)
Theorem allEvents_note_on_before_off (velocity : Z) (noteSegments : list NoteSegment)
    (n : NoteSegment) :
  In n noteSegments -> (note_start n <= note_end n)%Q ->
  length (allEvents velocity noteSegments) = (2 * length noteSegments)%nat
  /\ Sorted (fun a b => ev_time a <= ev_time b)%Q (allEvents velocity noteSegments)
  /\ exists i j,
       (i < j)%nat
       /\ nth_error (allEvents velocity noteSegments) i
          = Some {| ev_time := note_start n; ev_type := 0x90;
                    ev_note := Z.max 0 (Z.min 127 (pitch_midi n));
                    ev_velocity := Z.min 127 velocity |}
       /\ nth_error (allEvents velocity noteSegments) j
          = Some {| ev_time := note_end n; ev_type := 0x80;
                    ev_note := Z.max 0 (Z.min 127 (pitch_midi n));
                    ev_velocity := 0 |}.
Proof.
  intros Hn Hle. split; [|split].
  - unfold allEvents. rewrite Array_sort_length. apply length_flat_map_noteEvents.
  - eapply Sorted_weaken; [|apply allEvents_sorted].
    intros a b. unfold earlier. apply Qle_bool_iff.
  - destruct (noteEvents_before velocity noteSegments n Hn) as [on [off [E Hb]]].
    unfold noteEvents in E. injection E as <- <-.
    apply before_nth_error. unfold allEvents.
    apply Array_sort_stable; [|exact Hb].
    cbn [ev_time]. apply Qle_bool_iff, Hle.
Qed.

Lemma allEvents_note_on_before_off_witness :
  length (allEvents 80 two_notes) = (2 * length two_notes)%nat
  /\ Sorted (fun a b => ev_time a <= ev_time b)%Q (allEvents 80 two_notes)
  /\ exists i j,
       (i < j)%nat
       /\ nth_error (allEvents 80 two_notes) i
          = Some {| ev_time := 0.5; ev_type := 0x90;
                    ev_note := Z.max 0 (Z.min 127 69);
                    ev_velocity := Z.min 127 80 |}
       /\ nth_error (allEvents 80 two_notes) j
          = Some {| ev_time := 1; ev_type := 0x80;
                    ev_note := Z.max 0 (Z.min 127 69);
                    ev_velocity := 0 |}.
Proof.
  apply (allEvents_note_on_before_off 80 two_notes
           {| note_start := 0.5; note_end := 1; pitch_median := 440; pitch_midi := 69 |}).
  - left. reflexivity.
  - discriminate.
Defined.

(** ** Deltas add up to exact ticks *)




(** * Further properties of the segmenter *)

Local Open Scope Q_scope.

(** ** The merge pass leaves nothing to merge *)

Lemma mergeFrom_head_note (framePeriod : Q) (rest : list ProcessedNote) : forall prev,
  exists x tl, mergeFrom framePeriod prev rest = x :: tl
    /\ pn_start x = pn_start prev /\ pn_midi_pitch x = pn_midi_pitch prev.
Proof.
  induction rest as [|cur rest IH]; intros prev; cbn [mergeFrom].
  - exists prev, []. auto.
  - destruct (mergeable framePeriod prev cur).
    + destruct (IH (extended prev cur)) as [x [tl [E [Hs Hp]]]].
      exists x, tl. split; [exact E|]. split; [exact Hs | exact Hp].
    + exists prev, (mergeFrom framePeriod cur rest). auto.
Qed.

Lemma mergeFrom_complete (framePeriod : Q) (rest : list ProcessedNote) : forall prev,
  Sorted (fun p q => mergeable framePeriod p q = false) (mergeFrom framePeriod prev rest).
Proof.
  induction rest as [|cur rest IH]; intros prev; cbn [mergeFrom].
  - constructor; constructor.
  - destruct (mergeable framePeriod prev cur) eqn:E; [apply IH|].
    constructor; [apply IH|].
    destruct (mergeFrom_head_note framePeriod rest cur) as [x [tl [-> [Hs Hp]]]].
    constructor. unfold mergeable in *. rewrite Hs, Hp. exact E.
Qed.

Lemma unmergeable_output (framePeriod : Q) (p q : ProcessedNote) :
  mergeable framePeriod p q = false ->
  pitch_midi (outputNote p) = pitch_midi (outputNote q) ->
  framePeriod + epsilon - (1 # 10000)
  < note_start (outputNote q) - note_end (outputNote p).
Proof.
  unfold mergeable, outputNote. cbn [pitch_midi note_start note_end].
  intros H Hpitch. apply andb_false_iff in H. destruct H as [H|H].
  - assert (Hgap : framePeriod + epsilon < pn_start q - pn_end p).
    { apply Qnot_le_lt. intros Hle. apply Qle_bool_iff in Hle. congruence. }
    pose proof (toFixed4_error (pn_start q)) as [Hq _].
    pose proof (toFixed4_error (pn_end p)) as [_ Hp].
    lra.
  - apply Z.eqb_neq in H. contradiction.
Qed.

(** Two consecutive notes of the result never have the same MIDI pitch
    unless more than [framePeriod + epsilon] separates them (less the
    0.0001 that the rounding of the two times can take away): every pair
    that the merge pass could merge has been merged.  This holds for every
    input. *)
Theorem segmentNotes_merged_completely (Math_log2 Math_pow2 : Q -> Q)
    (timestamps pitchHz : list Q) (voicing : list bool) (params : SegmentationParams) :
  Sorted (fun n1 n2 =>
            pitch_midi n1 = pitch_midi n2 ->
            framePeriod timestamps + epsilon - (1 # 10000) < note_start n2 - note_end n1)
    (segmentNotes Math_log2 Math_pow2 timestamps pitchHz voicing params).
Proof.
  destruct (segmentNotes_cases Math_log2 Math_pow2 timestamps pitchHz voicing params)
    as [->|[first [rest [_ ->]]]]; [constructor|].
  apply Sorted_map with (R := fun p q => mergeable (framePeriod timestamps) p q = false).
  - intros p q. apply unmergeable_output.
  - apply mergeFrom_complete.
Qed.

(** ** Notes lie on the frame grid *)

Section NoteFrames.
Variables (period : Q) (timestamps : list Q).

(** [framed p a b]: the note starts at the timestamp of frame [a] and ends
    one frame period after the timestamp of frame [b]. *)
Definition framed (p : ProcessedNote) (a b : nat) : Prop :=
  nth_error timestamps a = Some (pn_start p)
  /\ plusPeriod (nth_error timestamps b) period = Some (pn_end p)
  /\ (a <= b)%nat.

(** [framedNotes lo notes hi]: the notes of [notes] take up disjoint
    intervals of frames, in increasing order, all within [lo, hi). *)
Fixpoint framedNotes (lo : nat) (notes : list ProcessedNote) (hi : nat) : Prop :=
  match notes with
  | [] => (lo <= hi)%nat
  | p :: rest =>
      exists a b, (lo <= a)%nat /\ (b < hi)%nat /\ framed p a b /\ framedNotes (S b) rest hi
  end.

Lemma framedNotes_weaken (lo lo' : nat) (notes : list ProcessedNote) (hi : nat) :
  (lo' <= lo)%nat -> framedNotes lo notes hi -> framedNotes lo' notes hi.
Proof.
  intros Hlo. destruct notes as [|p rest]; cbn [framedNotes].
  - lia.
  - intros [a [b [Ha H]]]. exists a, b. split; [lia | exact H].
Qed.

Lemma framedNotes_length (notes : list ProcessedNote) : forall lo hi,
  framedNotes lo notes hi -> (lo + length notes <= hi)%nat.
Proof.
  induction notes as [|p rest IH]; intros lo hi H; cbn [framedNotes length] in *.
  - lia.
  - destruct H as [a [b [Ha [Hb [[_ [_ Hab]] Hrest]]]]]. apply IH in Hrest. lia.
Qed.

Lemma framedNotes_within (notes : list ProcessedNote) : forall lo hi,
  framedNotes lo notes hi -> (lo <= length timestamps)%nat ->
  framedNotes lo notes (Nat.min hi (length timestamps)).
Proof.
  induction notes as [|p rest IH]; intros lo hi H Hlo; cbn [framedNotes] in *.
  - lia.
  - destruct H as [a [b [Ha [Hb [Hf Hrest]]]]].
    assert (Hin : (b < length timestamps)%nat).
    { destruct Hf as [_ [He _]]. apply plusPeriod_Some in He.
      destruct He as [x [Hx _]]. apply nth_error_Some. congruence. }
    exists a, b. split; [exact Ha|]. split; [lia|]. split; [exact Hf|].
    apply IH; [exact Hrest | lia].
Qed.

Lemma framedNotes_In (notes : list ProcessedNote) (p : ProcessedNote) : forall lo hi,
  framedNotes lo notes hi -> In p notes -> exists a b, framed p a b.
Proof.
  induction notes as [|q rest IH]; intros lo hi H Hin; [contradiction|].
  cbn [framedNotes] in H. destruct H as [a [b [_ [_ [Hf Hrest]]]]].
  destruct Hin as [->|Hin]; [eauto|]. eapply IH; eauto.
Qed.

Lemma processedNotes_framed (Math_pow2 : Q -> Q) (params : SegmentationParams)
    (segs : list RawSegment) : forall lo hi,
  spanned period timestamps lo segs hi ->
  framedNotes lo (processedNotes Math_pow2 params segs) hi.
Proof.
  induction segs as [|seg rest IH]; intros lo hi H.
  - exact H.
  - cbn [spanned] in H. destruct H as [a [b [Ha [Hb [Hc Hrest]]]]].
    apply IH in Hrest. unfold processedNotes in *. cbn [flat_map].
    destruct (processSegment Math_pow2 params seg) as [p|] eqn:E; cbn [app].
    + apply processSegment_Some in E. destruct E as [Hs [He _]].
      destruct Hc as [Hc1 [Hc2 Hc3]].
      exists a, b. split; [exact Ha|]. split; [exact Hb|]. split; [|exact Hrest].
      split; [congruence|]. split; [congruence | exact Hc3].
    + destruct Hc as [_ [_ Hc3]].
      apply (framedNotes_weaken (S b)); [lia | exact Hrest].
Qed.

Lemma mergeFrom_framed (rest : list ProcessedNote) : forall prev lo hi a b,
  (lo <= a)%nat -> (b < hi)%nat -> framed prev a b -> framedNotes (S b) rest hi ->
  framedNotes lo (mergeFrom period prev rest) hi.
Proof.
  induction rest as [|cur rest IH]; intros prev lo hi a b Ha Hb Hf Hrest;
    cbn [mergeFrom].
  - cbn [framedNotes]. exists a, b. split; [exact Ha|]. split; [exact Hb|].
    split; [exact Hf | lia].
  - cbn [framedNotes] in Hrest. destruct Hrest as [a' [b' [Ha' [Hb' [Hf' Hrest]]]]].
    destruct (mergeable period prev cur).
    + apply (IH (extended prev cur) lo hi a b'); [exact Ha | exact Hb' | | exact Hrest].
      destruct Hf as [H1 [_ H3]]. destruct Hf' as [_ [H2' H3']].
      split; [exact H1|]. split; [exact H2' | lia].
    + cbn [framedNotes]. exists a, b. split; [exact Ha|]. split; [exact Hb|].
      split; [exact Hf|].
      apply (IH cur (S b) hi a' b'); assumption.
Qed.
End NoteFrames.

(** For every input, the result is the rounding of notes each of which
    starts at the timestamp of a frame [a] and ends one frame period after
    the timestamp of a frame [b >= a]; these frame intervals are disjoint,
    come in increasing order and lie below both [voicing.length] and
    [timestamps.length].  So there are never more notes than frames. *)
Theorem segmentNotes_on_frame_grid (Math_log2 Math_pow2 : Q -> Q)
    (timestamps pitchHz : list Q) (voicing : list bool) (params : SegmentationParams) :
  (exists finalNotes,
     segmentNotes Math_log2 Math_pow2 timestamps pitchHz voicing params
     = map outputNote finalNotes
     /\ framedNotes (framePeriod timestamps) timestamps 0 finalNotes
          (Nat.min (length voicing) (length timestamps)))
  /\ (length (segmentNotes Math_log2 Math_pow2 timestamps pitchHz voicing params)
      <= Nat.min (length voicing) (length timestamps))%nat.
Proof.
  assert (H : exists finalNotes,
     segmentNotes Math_log2 Math_pow2 timestamps pitchHz voicing params
     = map outputNote finalNotes
     /\ framedNotes (framePeriod timestamps) timestamps 0 finalNotes
          (Nat.min (length voicing) (length timestamps))).
  { destruct (segmentNotes_cases Math_log2 Math_pow2 timestamps pitchHz voicing params)
      as [->|[first [rest [Hproc ->]]]].
    - exists []. split; [reflexivity|]. cbn [framedNotes]. lia.
    - exists (mergeFrom (framePeriod timestamps) first rest). split; [reflexivity|].
      apply framedNotes_within; [|lia].
      pose proof (processedNotes_framed (framePeriod timestamps) timestamps Math_pow2 params
                    _ _ _
                    (rawSegments_spanned Math_log2 timestamps pitchHz voicing params))
        as Hf.
      rewrite Hproc in Hf. cbn [framedNotes] in Hf.
      destruct Hf as [a [b [Ha [Hb [Hf Hrest]]]]].
      apply (mergeFrom_framed _ _ rest first 0%nat _ a b); assumption. }
  split; [exact H|].
  destruct H as [finalNotes [-> Hf]]. rewrite length_map.
  apply framedNotes_length in Hf. lia.
Qed.

(** ** Silence *)

Section Silence.
Variables (Math_log2 Math_pow2 : Q -> Q).
Variables (timestamps pitchHz : list Q) (voicing : list bool)
  (params : SegmentationParams).
Hypothesis silent :
  forall i p, nth_error pitchHz i = Some p -> nth i voicing false = true -> p <= 0.

Lemma silent_frame (i : nat) :
  (if nth i voicing false
   then contourAt (midiContour Math_log2 pitchHz voicing) i
   else None) = None.
Proof.
  destruct (nth i voicing false) eqn:Ev; [|reflexivity].
  unfold contourAt, midiContour. rewrite nth_error_Array_mapi.
  destruct (nth_error pitchHz i) as [p|] eqn:Ep; cbn [option_map]; [|reflexivity].
  rewrite Ev. cbn [andb].
  assert (E : Qltb 0 p = false) by (apply Qltb_ge; apply (silent i p Ep Ev)).
  rewrite E. reflexivity.
Qed.

Lemma silent_loop (frames : list nat) :
  fold_left (segmentFrame params (framePeriod timestamps) timestamps voicing
               (midiContour Math_log2 pitchHz voicing)) frames initialState
  = initialState.
Proof.
  induction frames as [|i frames IH]; [reflexivity|].
  cbn [fold_left].
  replace (segmentFrame params (framePeriod timestamps) timestamps voicing
             (midiContour Math_log2 pitchHz voicing) initialState i)
    with initialState; [exact IH|].
  unfold segmentFrame. rewrite silent_frame. reflexivity.
Qed.

Lemma silent_rawSegments :
  rawSegments Math_log2 timestamps pitchHz voicing params = [].
Proof. unfold rawSegments. rewrite silent_loop. reflexivity. Qed.
End Silence.

(** When no frame is both flagged as voiced and of positive pitch, whatever
    the timestamps and the lengths of the three arrays, the loop never
    opens a segment and [segmentNotes] returns the empty list. *)
Theorem segmentNotes_silence (Math_log2 Math_pow2 : Q -> Q)
    (timestamps pitchHz : list Q) (voicing : list bool) (params : SegmentationParams) :
  (forall i p, nth_error pitchHz i = Some p -> nth i voicing false = true -> p <= 0) ->
  segmentNotes Math_log2 Math_pow2 timestamps pitchHz voicing params = [].
Proof.
  intros Hsilent. unfold segmentNotes.
  destruct (length timestamps =? 0)%nat; [reflexivity|].
  rewrite silent_rawSegments; [reflexivity | exact Hsilent].
Qed.

Lemma segmentNotes_silence_witness :
  segmentNotes log2_floor pow2_floor [0; 0.016; 0.032] [0; 440; -1]
    [true; false; true] SEGMENTATION_PARAMS = [].
Proof.
  apply (segmentNotes_silence log2_floor pow2_floor [0; 0.016; 0.032] [0; 440; -1]
           [true; false; true] SEGMENTATION_PARAMS).
  intros i p Hp Hv.
  destruct i as [|[|[|i]]]; cbn in Hp, Hv.
  - injection Hp as <-. discriminate.
  - discriminate Hv.
  - injection Hp as <-. discriminate.
  - destruct i; discriminate Hp.
Defined.

(** * From the segmenter to the MIDI file *)

Lemma consecutive_Sorted (l : list Q) :
  (forall i a b, nth_error l i = Some a -> nth_error l (S i) = Some b -> a <= b) ->
  Sorted Qle l.
Proof.
  induction l as [|x l IH]; intros H; [constructor|].
  constructor.
  - apply IH. intros i a b Ha Hb. apply (H (S i) a b); assumption.
  - destruct l as [|y l]; constructor. apply (H 0%nat x y); reflexivity.
Qed.

(** [Array.prototype.sort] leaves an array that is already in order as it
    is. *)
Lemma Array_sort_of_sorted {A : Type} (le : A -> A -> bool) (l : list A) :
  Sorted (fun a b => le a b = true) l -> Array_sort le l = l.
Proof.
  induction 1 as [|x l Hs IH Hd]; [reflexivity|].
  change (Array_sort le (x :: l)) with (sort_insert le x (Array_sort le l)).
  rewrite IH. destruct Hd as [|y l' Hxy]; cbn [sort_insert]; [reflexivity|].
  rewrite Hxy. reflexivity.
Qed.

Lemma noteEvents_in_order (velocity : Z) (noteSegments : list NoteSegment) :
  Forall (fun n => note_start n <= note_end n) noteSegments ->
  Sorted (fun n1 n2 => note_end n1 <= note_start n2) noteSegments ->
  Sorted (fun a b => Qle_bool (ev_time a) (ev_time b) = true)
    (flat_map (noteEvents velocity) noteSegments).
Proof.
  intros Hall Hs. induction Hs as [|n rest Hs IH Hd]; [constructor|].
  apply Forall_cons_iff in Hall. destruct Hall as [Hn Hrest].
  cbn [flat_map]. unfold noteEvents at 1. cbn [app].
  constructor; [constructor; [exact (IH Hrest)|]|].
  - destruct Hd as [|m rest' Hnm]; [constructor|].
    cbn [flat_map]. unfold noteEvents at 1. cbn [app].
    constructor. cbn [ev_time]. apply Qle_bool_iff, Hnm.
  - constructor. cbn [ev_time]. apply Qle_bool_iff, Hn.
Qed.

(** When no note ends before it starts and every note ends no later than
    the next one starts, as in what [segmentNotes] returns, the sort of
    [createMidiFile] changes nothing: the events are the Note-On and the
    Note-Off of the first note, then those of the second, and so on. *)
Theorem allEvents_of_ordered_notes (velocity : Z) (noteSegments : list NoteSegment) :
  Forall (fun n => note_start n <= note_end n) noteSegments ->
  Sorted (fun n1 n2 => note_end n1 <= note_start n2) noteSegments ->
  allEvents velocity noteSegments = flat_map (noteEvents velocity) noteSegments.
Proof.
  intros Hall Hs. unfold allEvents.
  apply Array_sort_of_sorted, noteEvents_in_order; assumption.
Qed.

Lemma allEvents_of_ordered_notes_witness :
  allEvents 80 (rev two_notes) = flat_map (noteEvents 80) (rev two_notes).
Proof.
  apply (allEvents_of_ordered_notes 80 (rev two_notes)).
  - repeat (constructor; [discriminate|]). constructor.
  - repeat constructor. discriminate.
Defined.

Lemma toFixed4_nonneg (x : Q) : 0 <= x -> 0 <= toFixed 4 x.
Proof.
  intros Hx. apply Qle_trans with (toFixed 4 0).
  - vm_compute. discriminate.
  - apply toFixed_mono, Hx.
Qed.

Lemma framed_times (period : Q) (timestamps : list Q) (p : ProcessedNote) (a b : nat) :
  0 <= period -> Sorted Qle timestamps -> Forall (fun t => 0 <= t) timestamps ->
  framed period timestamps p a b ->
  0 <= pn_start p /\ pn_start p <= pn_end p.
Proof.
  intros Hp Hs Hpos [Ha [Hb Hab]].
  apply plusPeriod_Some in Hb. destruct Hb as [t [Ht ->]].
  assert (H0 : 0 <= pn_start p).
  { apply nth_error_In in Ha. rewrite Forall_forall in Hpos. apply Hpos, Ha. }
  pose proof (sorted_nth_error timestamps Hs a b _ _ Hab Ha Ht). lra.
Qed.

Lemma segmentNotes_times (Math_log2 Math_pow2 : Q -> Q)
    (timestamps pitchHz : list Q) (voicing : list bool) (params : SegmentationParams) :
  Sorted Qle timestamps -> Forall (fun t => 0 <= t) timestamps ->
  Forall (fun n => 0 <= note_start n /\ note_start n <= note_end n)
    (segmentNotes Math_log2 Math_pow2 timestamps pitchHz voicing params).
Proof.
  intros Hsorted Hpos.
  destruct (segmentNotes_cases Math_log2 Math_pow2 timestamps pitchHz voicing params)
    as [->|[first [rest [Hproc ->]]]]; [constructor|].
  pose proof (processedNotes_framed (framePeriod timestamps) timestamps Math_pow2 params
                _ _ _ (rawSegments_spanned Math_log2 timestamps pitchHz voicing params))
    as Hf.
  rewrite Hproc in Hf. cbn [framedNotes] in Hf.
  destruct Hf as [a [b [Ha [Hb [Hf Hrest]]]]].
  pose proof (mergeFrom_framed _ _ rest first 0%nat _ a b Ha Hb Hf Hrest) as Hm.
  apply Forall_map, Forall_forall. intros p Hin.
  destruct (framedNotes_In _ _ _ p _ _ Hm Hin) as [a' [b' Hp]].
  apply framed_times in Hp;
    [|apply sorted_framePeriod, Hsorted | exact Hsorted | exact Hpos].
  destruct Hp as [H0 Hle]. cbn [outputNote note_start note_end].
  split; [apply toFixed4_nonneg, H0 | apply toFixed_mono, Hle].
Qed.

Lemma createMidiFile_of_nonnegative_notes (noteSegments : list NoteSegment) (tempo : Q)
    (velocity : Z) :
  0 <= tempo ->
  Forall (fun n => 0 <= note_start n /\ note_start n <= note_end n) noteSegments ->
  exists bytes, createMidiFile noteSegments tempo velocity = Normal bytes.
Proof.
  intros Ht Htimes.
  assert (Hn : Forall (fun n => 0 <= note_start n /\ 0 <= note_end n) noteSegments).
  { eapply Forall_impl; [|exact Htimes]. intros n [H0 H]. split; [exact H0 | lra]. }
  pose proof (allEvents_sorted velocity noteSegments) as Hs.
  pose proof (allEvents_times velocity noteSegments Hn) as Hevents.
  assert (Hnb : not_before tempo 0 (allEvents velocity noteSegments)).
  { destruct (allEvents velocity noteSegments) as [|event rest]; [exact I|].
    cbn [not_before]. apply secondsToTicks_nonneg; [assumption|].
    apply Forall_inv in Hevents. exact Hevents. }
  unfold createMidiFile.
  destruct (encodeEvents_returns tempo (allEvents velocity noteSegments) Ht
              (tempoEvent tempo) 0%Z Hs Hnb) as [events He].
  rewrite He. cbn [bind]. eauto.
Qed.

(** What [downloadMidi] and [generateMidiForPlayer] do with the notes of
    [segmentNotes]: when the timestamps are not negative and do not
    decrease, and the tempo is not negative, no note starts or ends before
    time 0 and [createMidiFile] returns a file rather than throwing. *)
Theorem segmentNotes_createMidiFile_returns (Math_log2 Math_pow2 : Q -> Q)
    (timestamps pitchHz : list Q) (voicing : list bool) (params : SegmentationParams)
    (tempo : Q) (velocity : Z) :
  Sorted Qle timestamps -> Forall (fun t => 0 <= t) timestamps -> 0 <= tempo ->
  Forall (fun n => 0 <= note_start n /\ note_start n <= note_end n)
    (segmentNotes Math_log2 Math_pow2 timestamps pitchHz voicing params)
  /\ exists bytes,
       createMidiFile
         (segmentNotes Math_log2 Math_pow2 timestamps pitchHz voicing params)
         tempo velocity = Normal bytes.
Proof.
  intros Hsorted Hpos Ht.
  pose proof (segmentNotes_times Math_log2 Math_pow2 timestamps pitchHz voicing params
                Hsorted Hpos) as Htimes.
  split; [exact Htimes|].
  apply createMidiFile_of_nonnegative_notes; assumption.
Qed.

Lemma segmentNotes_createMidiFile_returns_witness :
  Forall (fun n => 0 <= note_start n /\ note_start n <= note_end n)
    (segmentNotes log2_floor pow2_floor [0; 0.02; 0.03; 0.07] [440; 440; 440; 880]
       [true; true; false; true] SEGMENTATION_PARAMS)
  /\ exists bytes,
       createMidiFile
         (segmentNotes log2_floor pow2_floor [0; 0.02; 0.03; 0.07] [440; 440; 440; 880]
            [true; true; false; true] SEGMENTATION_PARAMS)
         120 80 = Normal bytes.
Proof.
  apply (segmentNotes_createMidiFile_returns log2_floor pow2_floor [0; 0.02; 0.03; 0.07]
           [440; 440; 440; 880] [true; true; false; true] SEGMENTATION_PARAMS 120 80).
  - repeat (first [apply Sorted_cons | apply Sorted_nil | apply HdRel_cons | apply HdRel_nil]);
      discriminate.
  - repeat (constructor; [discriminate|]). constructor.
  - discriminate.
Defined.

(** * The peak normalisation *)

Lemma peak_loop (raw : list Q) : forall max0,
  let max := fold_left (fun max x => let absVal := Qabs x in
                                     if Qltb max absVal then absVal else max) raw max0 in
  max0 <= max
  /\ Forall (fun x => Qabs x <= max) raw
  /\ (max = max0 \/ exists x, In x raw /\ max = Qabs x).
Proof.
  induction raw as [|x raw IH]; intros max0; cbn [fold_left].
  - split; [apply Qle_refl|]. split; [constructor | left; reflexivity].
  - cbv zeta in IH |- *.
    destruct (Qltb max0 (Qabs x)) eqn:E.
    + apply Qltb_lt in E. destruct (IH (Qabs x)) as [H1 [H2 H3]].
      split; [lra|]. split; [constructor; assumption|].
      right. destruct H3 as [->|[y [Hy ->]]].
      * exists x. split; [left; reflexivity | reflexivity].
      * exists y. split; [right; exact Hy | reflexivity].
    + apply Qltb_ge in E. destruct (IH max0) as [H1 [H2 H3]].
      split; [exact H1|]. split; [constructor; [lra | assumption]|].
      destruct H3 as [->|[y [Hy ->]]]; [left; reflexivity|].
      right. exists y. split; [right; exact Hy | reflexivity].
Qed.

Lemma peak_bounds (raw : list Q) :
  0 <= peak raw
  /\ Forall (fun x => Qabs x <= peak raw) raw
  /\ (peak raw = 0 \/ exists x, In x raw /\ peak raw = Qabs x).
Proof. apply (peak_loop raw 0). Qed.

Lemma quotient_in_range (x max : Q) :
  0 < max -> Qabs x <= max -> -1 <= x / max /\ x / max <= 1.
Proof.
  intros Hmax Hx. apply Qabs_Qle_condition in Hx. destruct Hx as [Hlo Hhi].
  split.
  - apply Qle_shift_div_l; [exact Hmax | lra].
  - apply Qle_shift_div_r; [exact Hmax | lra].
Qed.

Lemma quotient_of_peak (x : Q) :
  0 < Qabs x -> x / Qabs x == 1 \/ x / Qabs x == -1.
Proof.
  intros Hx. destruct (Qlt_le_dec x 0) as [Hneg|Hpos].
  - right. rewrite (Qabs_neg x) by lra. field. lra.
  - left. rewrite (Qabs_pos x) by exact Hpos. rewrite Qabs_pos in Hx by exact Hpos.
    field. lra.
Qed.

Section PeakNormalisation.
Variable float32 : Q -> Q.
Hypothesis float32_monotone : forall x y, x <= y -> float32 x <= float32 y.
Hypothesis float32_one : float32 1 == 1.
Hypothesis float32_minus_one : float32 (-1) == -1.

Lemma float32_eq (x y : Q) : x == y -> float32 x == float32 y.
Proof.
  intros E. apply Qle_antisym; apply float32_monotone; rewrite E; apply Qle_refl.
Qed.

Lemma normalized_cases (raw : list Q) :
  (peak raw == 0 /\ normalized float32 raw = map (fun _ => 0) raw
   /\ Forall (fun x => x == 0) raw)
  \/ (0 < peak raw /\ normalized float32 raw = map (fun x => float32 (x / peak raw)) raw).
Proof.
  unfold normalized. cbv zeta.
  destruct (peak_bounds raw) as [H0 [Hall _]].
  destruct (Qltb 0 (peak raw)) eqn:E.
  - right. apply Qltb_lt in E. split; [exact E | reflexivity].
  - left. apply Qltb_ge in E.
    assert (Ez : peak raw == 0) by (apply Qle_antisym; assumption).
    split; [exact Ez|]. split; [reflexivity|].
    eapply Forall_impl; [|exact Hall]. cbv beta. intros x Hx.
    apply Qabs_Qle_condition in Hx. lra.
Qed.
End PeakNormalisation.

(** The array handed to the model has the length of the decoded channel and
    every sample of it lies in [-1, 1]; when some sample of the decoded
    channel is not zero, one sample of the result has magnitude exactly 1;
    when all are zero, the result is all zero.  This holds whatever the
    rounding of the stored quotient to single precision is, as long as it
    is monotone and leaves 1 and -1 as they are. *)
Theorem normalized_range (float32 : Q -> Q) (raw : list Q) :
  (forall x y, x <= y -> float32 x <= float32 y) ->
  float32 1 == 1 -> float32 (-1) == -1 ->
  length (normalized float32 raw) = length raw
  /\ Forall (fun y => -1 <= y /\ y <= 1) (normalized float32 raw)
  /\ ((exists x, In x raw /\ ~ x == 0) ->
      exists y, In y (normalized float32 raw) /\ Qabs y == 1)
  /\ (Forall (fun x => x == 0) raw ->
      normalized float32 raw = map (fun _ => 0) raw).
Proof.
  intros Hmono Hone Hminus.
  destruct (normalized_cases float32 raw) as [[Ez [E Hzero]]|[Hpos E]]; rewrite E.
  - split; [apply length_map|]. split; [|split].
    + apply Forall_map, Forall_forall. intros x _. split; discriminate.
    + intros [x [Hx Hnz]]. rewrite Forall_forall in Hzero. elim Hnz. apply Hzero, Hx.
    + reflexivity.
  - destruct (peak_bounds raw) as [_ [Hall Hattained]].
    split; [apply length_map|]. split; [|split].
    + apply Forall_map. eapply Forall_impl; [|exact Hall]. cbv beta. intros x Hx.
      destruct (quotient_in_range x (peak raw) Hpos Hx) as [Hlo Hhi].
      apply Hmono in Hlo. apply Hmono in Hhi. lra.
    + intros _. destruct Hattained as [E0|[x [Hx Ex]]]; [rewrite E0 in Hpos; lra|].
      exists (float32 (x / peak raw)).
      split; [apply (in_map (fun x => float32 (x / peak raw))), Hx|].
      rewrite Ex in *. destruct (quotient_of_peak x Hpos) as [Eq|Eq];
        apply (float32_eq float32 Hmono) in Eq.
      * rewrite Eq, Hone. reflexivity.
      * rewrite Eq, Hminus. reflexivity.
    + intros Hzero.
      destruct Hattained as [E0|[x [Hx Ex]]]; [rewrite E0 in Hpos; lra|].
      rewrite Forall_forall in Hzero. apply Hzero in Hx.
      rewrite Ex, Hx in Hpos. vm_compute in Hpos. discriminate Hpos.
Qed.

Lemma normalized_range_witness :
  length (normalized (fun q => q) [1 # 4; - (1 # 2); 0]) = length [1 # 4; - (1 # 2); 0]
  /\ Forall (fun y => -1 <= y /\ y <= 1) (normalized (fun q => q) [1 # 4; - (1 # 2); 0])
  /\ ((exists x, In x [1 # 4; - (1 # 2); 0] /\ ~ x == 0) ->
      exists y, In y (normalized (fun q => q) [1 # 4; - (1 # 2); 0]) /\ Qabs y == 1)
  /\ (Forall (fun x => x == 0) [1 # 4; - (1 # 2); 0] ->
      normalized (fun q => q) [1 # 4; - (1 # 2); 0]
      = map (fun _ => 0) [1 # 4; - (1 # 2); 0]).
Proof.
  apply (normalized_range (fun q => q) [1 # 4; - (1 # 2); 0]).
  - intros x y H. exact H.
  - reflexivity.
  - reflexivity.
Defined.

(** * The duration shown for the MIDI *)

Lemma duration_loop (noteSegments : list NoteSegment) : forall max0,
  let max := fold_left (fun max note => Qmax max (note_end note)) noteSegments max0 in
  max0 <= max
  /\ Forall (fun n => note_end n <= max) noteSegments
  /\ (max == max0 \/ exists n, In n noteSegments /\ max == note_end n).
Proof.
  induction noteSegments as [|n rest IH]; intros max0; cbn [fold_left].
  - split; [apply Qle_refl|]. split; [constructor | left; reflexivity].
  - cbv zeta in IH |- *.
    destruct (IH (Qmax max0 (note_end n))) as [H1 [H2 H3]].
    pose proof (Q.le_max_l max0 (note_end n)) as Hl.
    pose proof (Q.le_max_r max0 (note_end n)) as Hr.
    split; [lra|]. split; [constructor; [lra | exact H2]|].
    destruct H3 as [E|[m [Hm E]]].
    + destruct (Q.max_spec max0 (note_end n)) as [[_ Emax]|[_ Emax]].
      * right. exists n. split; [left; reflexivity|]. rewrite E. exact Emax.
      * left. rewrite E. exact Emax.
    + right. exists m. split; [right; exact Hm | exact E].
Qed.

(** The duration that [generateMidiForPlayer] reports is never negative, no
    note ends after it, and it is 0 or the end of one of the notes. *)
Theorem midiInfoDuration_latest_end (noteSegments : list NoteSegment) :
  0 <= midiInfoDuration noteSegments
  /\ Forall (fun n => note_end n <= midiInfoDuration noteSegments) noteSegments
  /\ (midiInfoDuration noteSegments == 0
      \/ exists n, In n noteSegments /\ midiInfoDuration noteSegments == note_end n).
Proof.
  destruct (duration_loop noteSegments 0) as [H0 [Hall Hatt]]. cbv zeta in *.
  fold (midiInfoDuration noteSegments) in *.
  split; [exact H0|]. split; [exact Hall | exact Hatt].
Qed.

(** * The chart and the voiced flags *)

(** The chart shows a pitch at exactly the frames that [voicedFlags] marks
    as voiced, and the pitch it shows there is the pitch of the frame: the
    watcher of [frameData] and [voicedFlags] apply the same test. *)
Theorem chartPoints_show_voiced_frames (fd : FrameData) (threshold : Q)
    (frequencyRange : Q * Q) :
  map (fun p => match cp_y p with Some _ => true | None => false end)
    (chartPoints (Some fd) threshold frequencyRange)
  = voicedFlags (Some fd) threshold frequencyRange
  /\ forall i p y,
       nth_error (chartPoints (Some fd) threshold frequencyRange) i = Some p ->
       cp_x p = nth_error (timestamps fd) i
       /\ cp_confidence p = nth_error (confidence fd) i
       /\ (cp_y p = Some y -> nth_error (pitch_hz fd) i = Some y).
Proof.
  split.
  - unfold chartPoints, voicedFlags, hasData, Array_mapi, voicedFlag.
    destruct (0 <? length (pitch_hz fd))%nat eqn:Ep.
    + rewrite map_map. apply map_ext. intros [i pitch]. cbn [fst snd].
      destruct (nth_error (confidence fd) i) as [c|]; [|reflexivity].
      destruct (Qltb threshold c && Qle_bool (fst frequencyRange) pitch
                && Qle_bool pitch (snd frequencyRange)); reflexivity.
    + apply Nat.ltb_ge in Ep.
      destruct (pitch_hz fd) as [|p0 ps]; [reflexivity | cbn [length] in Ep; lia].
  - intros i p y Hp. unfold chartPoints in Hp.
    rewrite nth_error_Array_mapi in Hp.
    destruct (nth_error (pitch_hz fd) i) as [pitch|]; cbn [option_map] in Hp;
      [|discriminate Hp].
    injection Hp as <-.
    destruct (match nth_error (confidence fd) i with
              | Some c =>
                  Qltb threshold c && Qle_bool (fst frequencyRange) pitch
                  && Qle_bool pitch (snd frequencyRange)
              | None => false
              end); cbn [cp_x cp_y cp_confidence].
    + split; [reflexivity|]. split; [reflexivity|]. intros E. exact E.
    + split; [reflexivity|]. split; [reflexivity|]. intros E. discriminate E.
Qed.

(** * The tempo meta-event *)

Lemma toInt32_low_bits (z : Z) : (toInt32 z mod 2 ^ 24 = z mod 2 ^ 24)%Z.
Proof.
  unfold toInt32.
  pose proof (Z.div_mod (z + 2 ^ 31) (2 ^ 32) ltac:(lia)) as H.
  set (k := ((z + 2 ^ 31) / 2 ^ 32)%Z) in *.
  replace ((z + 2 ^ 31) mod 2 ^ 32 - 2 ^ 31)%Z with (z + (- k * 256) * 2 ^ 24)%Z by lia.
  apply Z.mod_add. lia.
Qed.

Lemma low_three_bytes (t : Z) :
  bigEndian [Z.land (Z.shiftr t 16) 0xff; Z.land (Z.shiftr t 8) 0xff; Z.land t 0xff]
  = (t mod 2 ^ 24)%Z.
Proof.
  unfold bigEndian. cbn [fold_left].
  rewrite !land_ff_mod, !Z.shiftr_div_pow2 by lia.
  change (2 ^ 16)%Z with (256 * 256)%Z. change (2 ^ 8)%Z with 256%Z.
  rewrite <- !Z.div_div by lia.
  pose proof (Z.div_mod t 256 ltac:(lia)) as H0.
  pose proof (Z.mod_pos_bound t 256 ltac:(lia)) as B0.
  set (q1 := (t / 256)%Z) in *.
  pose proof (Z.div_mod q1 256 ltac:(lia)) as H1.
  pose proof (Z.mod_pos_bound q1 256 ltac:(lia)) as B1.
  set (q2 := (q1 / 256)%Z) in *.
  pose proof (Z.div_mod q2 256 ltac:(lia)) as H2.
  pose proof (Z.mod_pos_bound q2 256 ltac:(lia)) as B2.
  set (q3 := (q2 / 256)%Z) in *.
  apply (Z.mod_unique t (2 ^ 24) q3); lia.
Qed.

(** For every tempo the meta-event is [00 FF 51 03] and three bytes, and
    these three bytes, read most significant first, are the number of
    microseconds per beat [Math.round(60000000 / tempo)] reduced modulo
    [2^24]: the number itself from 3.58 beats per minute up, a wrapped
    value for a slower tempo. *)
Theorem tempoEvent_value (tempo : Q) :
  exists b1 b2 b3,
    tempoEvent tempo = [0x00; 0xFF; 0x51; 0x03; b1; b2; b3]%Z
    /\ Forall (fun b => 0 <= b < 256)%Z [b1; b2; b3]
    /\ bigEndian [b1; b2; b3] = (Math_round (60000000 / tempo) mod 2 ^ 24)%Z.
Proof.
  unfold tempoEvent. cbv zeta.
  eexists. eexists. eexists. split; [reflexivity|]. split.
  - repeat constructor; apply land_ff_range.
  - rewrite low_three_bytes. apply toInt32_low_bits.
Qed.

(** * The timestamps of the frames *)

Section FrameTimestamps.
Variable float32 : Q -> Q.
Hypothesis float32_monotone : forall x y, x <= y -> float32 x <= float32 y.
Hypothesis float32_zero : float32 0 == 0.

Lemma frame_time_mono (i j : nat) :
  (i <= j)%nat ->
  (inject_Z (Z.of_nat i) * 256 + 127.5) / 16000
  <= (inject_Z (Z.of_nat j) * 256 + 127.5) / 16000.
Proof.
  intros Hij.
  assert (H : inject_Z (Z.of_nat i) <= inject_Z (Z.of_nat j)).
  { rewrite <- Zle_Qle. lia. }
  apply Qle_shift_div_l; [reflexivity|].
  unfold Qdiv. rewrite <- Qmult_assoc.
  setoid_replace (/ 16000 * 16000) with 1 by reflexivity. lra.
Qed.

Lemma frameTimestamps_nth (nFrames i : nat) (t : Q) :
  nth_error (frameTimestamps float32 nFrames) i = Some t ->
  t = float32 ((inject_Z (Z.of_nat i) * 256 + 127.5) / 16000) /\ (i < nFrames)%nat.
Proof.
  unfold frameTimestamps. intros H.
  assert (Hi : (i < nFrames)%nat).
  { assert (Hs : nth_error (map (fun i => float32 ((inject_Z (Z.of_nat i) * 256 + 127.5)
                                                    / 16000)) (seq 0 nFrames)) i <> None)
      by congruence.
    apply nth_error_Some in Hs. rewrite length_map, length_seq in Hs. exact Hs. }
  rewrite nth_error_map, nth_error_seq in H.
  destruct (i <? nFrames)%nat eqn:E; [|apply Nat.ltb_ge in E; lia].
  cbn [option_map Nat.add] in H. injection H as <-. split; [reflexivity | exact Hi].
Qed.

Lemma frameTimestamps_sorted (nFrames : nat) :
  Sorted Qle (frameTimestamps float32 nFrames).
Proof.
  apply consecutive_Sorted. intros i a b Ha Hb.
  apply frameTimestamps_nth in Ha. apply frameTimestamps_nth in Hb.
  destruct Ha as [-> _]. destruct Hb as [-> _].
  apply float32_monotone, frame_time_mono. lia.
Qed.

Lemma frameTimestamps_nonneg (nFrames : nat) :
  Forall (fun t => 0 <= t) (frameTimestamps float32 nFrames).
Proof.
  unfold frameTimestamps. apply Forall_map, Forall_forall. intros i _.
  rewrite <- float32_zero. apply float32_monotone.
  apply Qle_shift_div_l; [reflexivity|].
  assert (H : inject_Z 0 <= inject_Z (Z.of_nat i)) by (rewrite <- Zle_Qle; lia).
  change (inject_Z 0) with 0 in H. lra.
Qed.
End FrameTimestamps.

(** The timestamps that [ONNXService] computes for [nFrames] frames are
    [nFrames] numbers that are not negative and do not decrease, whatever
    the rounding to single precision is, as long as it is monotone and
    leaves 0 as it is; so on these timestamps, for any pitches and flags,
    [createMidiFile] returns a file for the notes of [segmentNotes]. *)
Theorem frameTimestamps_ordered (float32 : Q -> Q) (nFrames : nat)
    (Math_log2 Math_pow2 : Q -> Q) (pitchHz : list Q) (voicing : list bool)
    (params : SegmentationParams) (tempo : Q) (velocity : Z) :
  (forall x y, x <= y -> float32 x <= float32 y) -> float32 0 == 0 -> 0 <= tempo ->
  length (frameTimestamps float32 nFrames) = nFrames
  /\ Sorted Qle (frameTimestamps float32 nFrames)
  /\ Forall (fun t => 0 <= t) (frameTimestamps float32 nFrames)
  /\ exists bytes,
       createMidiFile
         (segmentNotes Math_log2 Math_pow2 (frameTimestamps float32 nFrames) pitchHz
            voicing params)
         tempo velocity = Normal bytes.
Proof.
  intros Hmono Hzero Ht.
  pose proof (frameTimestamps_sorted float32 Hmono nFrames) as Hsorted.
  pose proof (frameTimestamps_nonneg float32 Hmono Hzero nFrames) as Hpos.
  split; [unfold frameTimestamps; rewrite length_map; apply length_seq|].
  split; [exact Hsorted|]. split; [exact Hpos|].
  apply createMidiFile_of_nonnegative_notes; [exact Ht|].
  apply segmentNotes_times; assumption.
Qed.

Lemma frameTimestamps_ordered_witness :
  length (frameTimestamps (fun q => q) 5) = 5%nat
  /\ Sorted Qle (frameTimestamps (fun q => q) 5)
  /\ Forall (fun t => 0 <= t) (frameTimestamps (fun q => q) 5)
  /\ exists bytes,
       createMidiFile
         (segmentNotes log2_floor pow2_floor (frameTimestamps (fun q => q) 5)
            [440; 440; 440; 440; 440] [true; true; true; true; true]
            SEGMENTATION_PARAMS)
         120 80 = Normal bytes.
Proof.
  apply (frameTimestamps_ordered (fun q => q) 5 log2_floor pow2_floor
           [440; 440; 440; 440; 440] [true; true; true; true; true]
           SEGMENTATION_PARAMS 120 80).
  - intros x y H. exact H.
  - reflexivity.
  - discriminate.
Defined.

(** * Note names *)

Lemma to_int_not_nil (z : Z) :
  Z.to_int z <> Decimal.Pos Decimal.Nil /\ Z.to_int z <> Decimal.Neg Decimal.Nil.
Proof.
  pose proof (DecimalZ.to_of (Z.to_int z)) as H. rewrite DecimalZ.of_to in H.
  split; intros E; rewrite E in H; discriminate H.
Qed.

Lemma Number_toString_inj (a b : Z) : Number_toString a = Number_toString b -> a = b.
Proof.
  unfold Number_toString. intros H.
  apply (f_equal NilZero.int_of_string) in H.
  destruct (to_int_not_nil a) as [Ha1 Ha2]. destruct (to_int_not_nil b) as [Hb1 Hb2].
  rewrite !NilZero.isi in H by assumption.
  apply DecimalZ.to_int_inj. congruence.
Qed.

Lemma Number_toString_head (z : Z) :
  exists c rest, Number_toString z = String c rest /\ c <> "#"%char.
Proof.
  unfold Number_toString.
  destruct (Z.to_int z) as [d|d]; cbn [NilZero.string_of_int].
  - destruct d; cbn; eexists; eexists; (split; [reflexivity | discriminate]).
  - eexists. eexists. split; [reflexivity | discriminate].
Qed.

Lemma names_apart (i j : nat) (c1 c2 : ascii) (r1 r2 : string) :
  (i < 12)%nat -> (j < 12)%nat -> c1 <> "#"%char -> c2 <> "#"%char ->
  (noteNameAt (Z.of_nat i) ++ String c1 r1 = noteNameAt (Z.of_nat j) ++ String c2 r2)%string ->
  i = j /\ String c1 r1 = String c2 r2.
Proof.
  intros Hi Hj N1 N2 H.
  do 12 (destruct i as [|i];
         [do 12 (destruct j as [|j];
                 [cbn in H; inversion H; subst;
                  first [congruence | split; reflexivity]|]); lia|]).
  lia.
Qed.

(** From MIDI note 0 up, [midiToNoteName] gives different names to
    different notes.  (Below 0 it does not: the remainder is negative, the
    name of the pitch class is [undefined], and the eleven notes of an
    octave that are not a C share one name.) *)
Theorem midiToNoteName_injective (a b : Z) :
  (0 <= a)%Z -> (0 <= b)%Z -> midiToNoteName a = midiToNoteName b -> a = b.
Proof.
  intros Ha Hb H. unfold midiToNoteName in H. cbv zeta in H.
  rewrite !Z.rem_mod_nonneg in H by lia.
  pose proof (Z.mod_pos_bound a 12 ltac:(lia)) as Ba.
  pose proof (Z.mod_pos_bound b 12 ltac:(lia)) as Bb.
  destruct (Number_toString_head (a / 12 - 1)) as [c1 [r1 [E1 N1]]].
  destruct (Number_toString_head (b / 12 - 1)) as [c2 [r2 [E2 N2]]].
  rewrite E1, E2 in H.
  rewrite <- (Z2Nat.id (a mod 12)), <- (Z2Nat.id (b mod 12)) in H by lia.
  apply names_apart in H; [|lia | lia | exact N1 | exact N2].
  destruct H as [Hij Hs]. rewrite <- E1, <- E2 in Hs.
  apply Number_toString_inj in Hs.
  pose proof (Z.div_mod a 12 ltac:(lia)). pose proof (Z.div_mod b 12 ltac:(lia)). lia.
Qed.

Lemma midiToNoteName_injective_witness :
  midiToNoteName 60 = "C4"%string /\ midiToNoteName (72 - 12) = "C4"%string
  /\ (72 - 12 = 60)%Z.
Proof.
  split; [reflexivity|]. split; [reflexivity|].
  apply (midiToNoteName_injective (72 - 12) 60); [lia | lia | reflexivity].
Defined.

(** * Where notes start *)

Section OpenedAt.
Variables (params : SegmentationParams) (period : Q) (timestamps : list Q)
  (voicing : list bool) (contour : list (option Q)).

(** [opened_at start]: [start] is [timestamps[a]] for a frame [a] that is
    flagged as voiced and has a pitch in the contour. *)
Definition opened_at (start : option Q) : Prop :=
  exists a, start = nth_error timestamps a
    /\ nth a voicing false = true /\ contourAt contour a <> None.

Definition opened_invariant (st : SegmenterState) : Prop :=
  Forall (fun seg => opened_at (seg_start seg)) (notes st)
  /\ match currentNoteSegment st with
     | Some cur => opened_at (seg_start cur)
     | None => True
     end.

Lemma segmentFrame_opened (i : nat) (st : SegmenterState) :
  opened_invariant st ->
  opened_invariant (segmentFrame params period timestamps voicing contour st i).
Proof.
  intros [Hnotes Hcur]. unfold segmentFrame.
  destruct (if nth i voicing false then contourAt contour i else None) as [midiPitch|] eqn:E.
  - assert (Hi : opened_at (nth_error timestamps i)).
    { exists i. split; [reflexivity|].
      destruct (nth i voicing false); [|discriminate E].
      split; [reflexivity | congruence]. }
    destruct (currentNoteSegment st) as [cur|].
    + destruct (Qle_bool (splitSemitoneThreshold params) (pitchDeviation cur midiPitch));
        split; cbn [notes currentNoteSegment newSegment seg_start]; try assumption.
      apply Forall_app. split; [assumption | constructor; [assumption | constructor]].
    + split; cbn [notes currentNoteSegment newSegment seg_start]; assumption.
  - destruct (currentNoteSegment st) as [cur|] eqn:Ecur.
    + destruct (Qle_bool (unvoicedGracePeriod params)
                  (inject_Z (unvoicedFramesCount st + 1) * period));
        split; cbn [notes currentNoteSegment seg_start]; try assumption; try exact I.
      apply Forall_app. split; [assumption | constructor; [assumption | constructor]].
    + split; [assumption|]. rewrite Ecur. exact I.
Qed.

Lemma frame_loop_opened (frames : list nat) : forall st,
  opened_invariant st ->
  opened_invariant
    (fold_left (segmentFrame params period timestamps voicing contour) frames st).
Proof.
  induction frames as [|i frames IH]; intros st H; [exact H|].
  cbn [fold_left]. apply IH, segmentFrame_opened, H.
Qed.
End OpenedAt.

Lemma rawSegments_opened (Math_log2 : Q -> Q) (timestamps pitchHz : list Q)
    (voicing : list bool) (params : SegmentationParams) :
  Forall (fun seg => opened_at timestamps voicing (midiContour Math_log2 pitchHz voicing)
                       (seg_start seg))
    (rawSegments Math_log2 timestamps pitchHz voicing params).
Proof.
  unfold rawSegments. cbv zeta.
  destruct (frame_loop_opened params (framePeriod timestamps) timestamps voicing
              (midiContour Math_log2 pitchHz voicing) (seq 0 (length voicing)) initialState)
    as [Hnotes Hcur].
  { split; [constructor | exact I]. }
  destruct (currentNoteSegment _) as [cur|]; [|exact Hnotes].
  apply Forall_app. split; [exact Hnotes | constructor; [exact Hcur | constructor]].
Qed.

Lemma mergeFrom_starts (P : Q -> Prop) (framePeriod : Q) (rest : list ProcessedNote) :
  forall prev,
  P (pn_start prev) -> Forall (fun p => P (pn_start p)) rest ->
  Forall (fun p => P (pn_start p)) (mergeFrom framePeriod prev rest).
Proof.
  induction rest as [|cur rest IH]; intros prev Hprev Hrest; cbn [mergeFrom].
  - constructor; [exact Hprev | constructor].
  - apply Forall_cons_iff in Hrest. destruct Hrest as [Hcur Hrest].
    destruct (mergeable framePeriod prev cur).
    + apply IH; [exact Hprev | exact Hrest].
    + constructor; [exact Hprev|]. apply IH; assumption.
Qed.

Lemma contourAt_voiced (Math_log2 : Q -> Q) (pitchHz : list Q) (voicing : list bool)
    (a : nat) :
  contourAt (midiContour Math_log2 pitchHz voicing) a <> None ->
  exists pitch, nth_error pitchHz a = Some pitch /\ 0 < pitch.
Proof.
  unfold contourAt, midiContour. rewrite nth_error_Array_mapi.
  destruct (nth_error pitchHz a) as [pitch|]; cbn [option_map]; [|congruence].
  destruct (nth a voicing false); cbn [andb]; [|congruence].
  destruct (Qltb 0 pitch) eqn:E; [|congruence].
  intros _. exists pitch. split; [reflexivity|]. apply Qltb_lt, E.
Qed.

(** For every input, every returned note starts at the (rounded) timestamp
    of a frame that is flagged as voiced and whose pitch is positive: the
    merge pass and the filter never move a start, and the frame loop opens
    a segment at such frames only. *)
Theorem segmentNotes_start_at_voiced_frames (Math_log2 Math_pow2 : Q -> Q)
    (timestamps pitchHz : list Q) (voicing : list bool) (params : SegmentationParams) :
  Forall (fun n => exists a t pitch,
            nth_error timestamps a = Some t
            /\ note_start n = toFixed 4 t
            /\ nth a voicing false = true
            /\ nth_error pitchHz a = Some pitch /\ 0 < pitch)
    (segmentNotes Math_log2 Math_pow2 timestamps pitchHz voicing params).
Proof.
  destruct (segmentNotes_cases Math_log2 Math_pow2 timestamps pitchHz voicing params)
    as [->|[first [rest [Hproc ->]]]]; [constructor|].
  set (P := fun start : Q =>
              opened_at timestamps voicing (midiContour Math_log2 pitchHz voicing)
                (Some start)).
  assert (Hall : Forall (fun p => P (pn_start p)) (first :: rest)).
  { rewrite <- Hproc. apply Forall_forall. intros p Hp.
    apply processedNotes_In in Hp. destruct Hp as [seg [Hseg Hp]].
    apply processSegment_Some in Hp. destruct Hp as [Hs _].
    pose proof (rawSegments_opened Math_log2 timestamps pitchHz voicing params) as Hraw.
    rewrite Forall_forall in Hraw. specialize (Hraw seg Hseg).
    unfold P. rewrite <- Hs. exact Hraw. }
  apply Forall_cons_iff in Hall. destruct Hall as [Hfirst Hrest].
  apply Forall_map.
  eapply Forall_impl; [|apply (mergeFrom_starts P); eassumption].
  cbv beta. intros p [a [Ha [Hv Hc]]].
  apply contourAt_voiced in Hc. destruct Hc as [pitch [Hp Hpos]].
  exists a, (pn_start p), pitch. cbn [outputNote note_start].
  split; [symmetry; exact Ha|]. split; [reflexivity|]. split; [exact Hv|].
  split; [exact Hp | exact Hpos].
Qed.

(** * The duration of the player *)

(** On a list of notes one of which ends at a time that is not negative,
    the duration that [loadNotes] of the player computes and the duration
    that [generateMidiForPlayer] reports are the same number. *)
Theorem loadNotes_duration_agrees (noteSegments : list NoteSegment) (n : NoteSegment) :
  In n noteSegments -> 0 <= note_end n ->
  exists d, loadNotes_duration noteSegments = Some d
    /\ d == midiInfoDuration noteSegments.
Proof.
  intros Hin Hn. destruct noteSegments as [|n0 rest]; [contradiction|].
  exists (fold_left Qmax (map note_end rest) (note_end n0)). split; [reflexivity|].
  unfold midiInfoDuration. cbn [fold_left].
  assert (Hgen : forall l a b, a == b ->
            fold_left Qmax (map note_end l) a
            == fold_left (fun max note => Qmax max (note_end note)) l b).
  { induction l as [|x l IH]; intros a b E; cbn [map fold_left]; [exact E|].
    apply IH. rewrite E. reflexivity. }
  destruct (Q.max_spec 0 (note_end n0)) as [[Hlt E]|[Hle E]].
  - apply Hgen. symmetry. exact E.
  - (* the first note ends before 0: some later note does not *)
    destruct Hin as [->|Hin]; [apply Hgen; symmetry; rewrite E; lra|].
    assert (Hmax : forall l a b, a <= b -> (exists m, In m l /\ b <= note_end m) ->
              fold_left Qmax (map note_end l) a
              == fold_left (fun max note => Qmax max (note_end note)) l b).
    { induction l as [|x l IH]; intros a b Hab [m [Hm Hbm]]; [contradiction|].
      cbn [map fold_left]. destruct Hm as [->|Hm].
      - apply Hgen. rewrite !Q.max_r by lra. reflexivity.
      - destruct (Qlt_le_dec (note_end x) b) as [Hx|Hx].
        + apply IH.
          * apply Q.max_le_compat_r. exact Hab.
          * exists m. split; [exact Hm|]. rewrite Q.max_l by lra. exact Hbm.
        + apply Hgen. rewrite !Q.max_r by lra. reflexivity. }
    apply Hmax; [rewrite E; exact Hle|].
    exists n. split; [exact Hin|]. rewrite E. exact Hn.
Qed.

Lemma loadNotes_duration_agrees_witness :
  exists d, loadNotes_duration two_notes = Some d /\ d == midiInfoDuration two_notes.
Proof.
  apply (loadNotes_duration_agrees two_notes
           {| note_start := 0.5; note_end := 1; pitch_median := 440; pitch_midi := 69 |}).
  - left. reflexivity.
  - discriminate.
Defined.

(** * The order of the notes in time *)

Local Open Scope Q_scope.

(** No two consecutive timestamps are closer than [period]. *)
Definition no_gap_below (period : Q) (timestamps : list Q) : Prop :=
  forall i a b,
    nth_error timestamps i = Some a -> nth_error timestamps (S i) = Some b ->
    a + period <= b.


Section NoteOrder.
Variables (period : Q) (timestamps : list Q).
Hypothesis timestamps_sorted : Sorted Qle timestamps.

(** [p] comes before [q]: it starts no later and ends no later, and it
    ends no later than [q] starts when no gap is below the period. *)
Definition ordered_notes (p q : ProcessedNote) : Prop :=
  pn_start p <= pn_start q /\ pn_end p <= pn_end q
  /\ (no_gap_below period timestamps -> pn_end p <= pn_start q).

Lemma framed_ordered (p q : ProcessedNote) (a b a' b' : nat) :
  framed period timestamps p a b -> framed period timestamps q a' b' -> (b < a')%nat ->
  ordered_notes p q.
Proof.
  intros [Ha [Hb Hab]] [Ha' [Hb' Hab']] Hlt.
  apply plusPeriod_Some in Hb. destruct Hb as [tb [Htb Eb]].
  apply plusPeriod_Some in Hb'. destruct Hb' as [tb' [Htb' Eb']].
  split; [|split].
  - apply (sorted_nth_error timestamps timestamps_sorted a a'); [lia | assumption..].
  - rewrite Eb, Eb'.
    pose proof (sorted_nth_error timestamps timestamps_sorted b b' tb tb'
                  ltac:(lia) Htb Htb').
    lra.
  - intros Hgap. rewrite Eb.
    destruct (nth_error timestamps (S b)) as [c|] eqn:Ec.
    + pose proof (Hgap b tb c Htb Ec).
      pose proof (sorted_nth_error timestamps timestamps_sorted (S b) a' c (pn_start q)
                    ltac:(lia) Ec Ha').
      lra.
    + apply nth_error_None in Ec.
      assert (Hsome : nth_error timestamps a' <> None) by congruence.
      apply nth_error_Some in Hsome. lia.
Qed.

Lemma framedNotes_In_bounds (notes : list ProcessedNote) (p : ProcessedNote) :
  forall lo hi,
  framedNotes period timestamps lo notes hi -> In p notes ->
  exists a b, (lo <= a)%nat /\ framed period timestamps p a b.
Proof.
  induction notes as [|q rest IH]; intros lo hi H Hin; [contradiction|].
  cbn [framedNotes] in H. destruct H as [a [b [Ha [_ [Hf Hrest]]]]].
  destruct Hin as [->|Hin].
  - exists a, b. split; assumption.
  - destruct (IH _ _ Hrest Hin) as [a' [b' [Ha' Hf']]].
    exists a', b'. split; [|exact Hf']. destruct Hf as [_ [_ Hab]]. lia.
Qed.

Lemma framedNotes_ordered (notes : list ProcessedNote) : forall lo hi,
  framedNotes period timestamps lo notes hi -> ForallOrdPairs ordered_notes notes.
Proof.
  induction notes as [|p rest IH]; intros lo hi H; [constructor|].
  cbn [framedNotes] in H. destruct H as [a [b [Ha [Hb [Hf Hrest]]]]].
  constructor; [|apply (IH _ _ Hrest)].
  apply Forall_forall. intros q Hq.
  destruct (framedNotes_In_bounds rest q _ _ Hrest Hq) as [a' [b' [Ha' Hf']]].
  apply (framed_ordered p q a b a' b'); [assumption | assumption | lia].
Qed.
End NoteOrder.

(** The same on the notes as returned. *)
Definition ordered_segments (timestamps : list Q) (n m : NoteSegment) : Prop :=
  note_start n <= note_start m /\ note_end n <= note_end m
  /\ (no_gap_below (framePeriod timestamps) timestamps -> note_end n <= note_start m).

Lemma ForallOrdPairs_map {A B : Type} (R : A -> A -> Prop) (S : B -> B -> Prop)
    (f : A -> B) (l : list A) :
  (forall a b, R a b -> S (f a) (f b)) -> ForallOrdPairs R l -> ForallOrdPairs S (map f l).
Proof.
  intros HRS. induction 1 as [|a l Ha Hl IH]; cbn [map]; constructor.
  - apply Forall_map. eapply Forall_impl; [|exact Ha]. intros b. apply HRS.
  - exact IH.
Qed.

Lemma ForallOrdPairs_impl {A : Type} (R S : A -> A -> Prop) (l : list A) :
  (forall a b, R a b -> S a b) -> ForallOrdPairs R l -> ForallOrdPairs S l.
Proof.
  intros HRS. induction 1 as [|a l Ha Hl IH]; constructor.
  - eapply Forall_impl; [|exact Ha]. intros b. apply HRS.
  - exact IH.
Qed.


Lemma ForallOrdPairs_before {A : Type} (R : A -> A -> Prop) (l : list A) (a b : A) :
  ForallOrdPairs R l -> before a b l -> R a b.
Proof.
  intros H Hb. induction Hb as [l Hin|x l Hb IH].
  - inversion H as [|y l' Hy Hl]; subst. rewrite Forall_forall in Hy. apply Hy, Hin.
  - inversion H as [|y l' Hy Hl]; subst. apply IH, Hl.
Qed.

Lemma ForallOrdPairs_last {A : Type} (R : A -> A -> Prop) (l : list A) (x : A) :
  ForallOrdPairs R (l ++ [x]) -> Forall (fun y => R y x) l.
Proof.
  induction l as [|y l IH]; intros H; [constructor|].
  cbn [app] in H. inversion H as [|z l' Hy Hl]; subst.
  constructor; [|apply IH, Hl].
  rewrite Forall_forall in Hy. apply Hy, in_app_iff. right. left. reflexivity.
Qed.

Lemma ForallOrdPairs_Sorted {A : Type} (R : A -> A -> Prop) (l : list A) :
  ForallOrdPairs R l -> Sorted R l.
Proof.
  induction 1 as [|x l Hx Hl IH]; constructor; [exact IH|].
  destruct l as [|y l]; constructor. apply Forall_inv in Hx. exact Hx.
Qed.

Lemma segmentNotes_framed (Math_log2 Math_pow2 : Q -> Q)
    (timestamps pitchHz : list Q) (voicing : list bool) (params : SegmentationParams) :
  exists finalNotes,
    segmentNotes Math_log2 Math_pow2 timestamps pitchHz voicing params
    = map outputNote finalNotes
    /\ framedNotes (framePeriod timestamps) timestamps 0 finalNotes (length voicing).
Proof.
  destruct (segmentNotes_cases Math_log2 Math_pow2 timestamps pitchHz voicing params)
    as [->|[first [rest [Hproc ->]]]].
  - exists []. split; [reflexivity|]. cbn [framedNotes]. lia.
  - exists (mergeFrom (framePeriod timestamps) first rest). split; [reflexivity|].
    pose proof (processedNotes_framed (framePeriod timestamps) timestamps Math_pow2 params
                  _ _ _ (rawSegments_spanned Math_log2 timestamps pitchHz voicing params))
      as Hf.
    rewrite Hproc in Hf. cbn [framedNotes] in Hf.
    destruct Hf as [a [b [Ha [Hb [Hf Hrest]]]]].
    apply (mergeFrom_framed _ _ rest first 0%nat _ a b); assumption.
Qed.

Lemma segmentNotes_ordered (Math_log2 Math_pow2 : Q -> Q)
    (timestamps pitchHz : list Q) (voicing : list bool) (params : SegmentationParams) :
  Sorted Qle timestamps ->
  ForallOrdPairs (ordered_segments timestamps)
    (segmentNotes Math_log2 Math_pow2 timestamps pitchHz voicing params).
Proof.
  intros Hsorted.
  destruct (segmentNotes_framed Math_log2 Math_pow2 timestamps pitchHz voicing params)
    as [finalNotes [-> Hf]].
  apply ForallOrdPairs_map
    with (R := ordered_notes (framePeriod timestamps) timestamps).
  - intros p q [Hs [He Hgap]]. unfold ordered_segments.
    cbn [outputNote note_start note_end].
    split; [apply toFixed_mono, Hs|]. split; [apply toFixed_mono, He|].
    intros H. apply toFixed_mono, Hgap, H.
  - apply (framedNotes_ordered _ _ Hsorted finalNotes _ _ Hf).
Qed.



(** Five frames 0.06255 seconds apart as a [Float32Array] holds them: the
    single-precision numbers nearest to 0, 0.06255, 0.1251, 0.18765 and
    0.2502.  The first two are 0.0625500008 apart, the third and the fourth
    0.0625499934. *)
Definition float32_frames : list Q :=
  [0; 8395319 # 134217728; 8395319 # 67108864; 6296489 # 33554432; 8395319 # 33554432].


(** ** The events of the notes of [segmentNotes] *)

(** The two events pushed for a note. *)
Definition noteOn (velocity : Z) (note : NoteSegment) : MidiEvent :=
  {| ev_time := note_start note; ev_type := 0x90;
     ev_note := Z.max 0 (Z.min 127 (pitch_midi note));
     ev_velocity := Z.min 127 velocity |}.

Definition noteOff (note : NoteSegment) : MidiEvent :=
  {| ev_time := note_end note; ev_type := 0x80;
     ev_note := Z.max 0 (Z.min 127 (pitch_midi note));
     ev_velocity := 0 |}.

Lemma noteEvents_on_off (velocity : Z) (note : NoteSegment) :
  noteEvents velocity note = [noteOn velocity note; noteOff note].
Proof. reflexivity. Qed.

Lemma before_noteOn (velocity : Z) (noteSegments : list NoteSegment) (n m : NoteSegment) :
  before n m noteSegments ->
  before (noteOn velocity n) (noteOn velocity m)
    (flat_map (noteEvents velocity) noteSegments).
Proof.
  induction 1 as [l Hin|x l Hb IH]; cbn [flat_map]; rewrite noteEvents_on_off; cbn [app].
  - apply before_here. right. apply in_flat_map. exists m.
    split; [exact Hin | left; reflexivity].
  - apply before_later, before_later, IH.
Qed.

Lemma before_noteOff (velocity : Z) (noteSegments : list NoteSegment) (n m : NoteSegment) :
  before n m noteSegments ->
  before (noteOff n) (noteOff m) (flat_map (noteEvents velocity) noteSegments).
Proof.
  induction 1 as [l Hin|x l Hb IH]; cbn [flat_map]; rewrite noteEvents_on_off; cbn [app].
  - apply before_later, before_here. apply in_flat_map. exists m.
    split; [exact Hin | right; left; reflexivity].
  - apply before_later, before_later, IH.
Qed.

(** When the timestamps do not decrease, the sort of [createMidiFile]
    keeps the notes of [segmentNotes] in their order: the Note-On of a note
    comes before the Note-On of every later note, and the Note-Off before
    the Note-Off of every later note.  When moreover no two consecutive
    timestamps are closer than the frame period
    [timestamps[1] - timestamps[0]], the sort changes nothing at all: the
    events are the Note-On and the Note-Off of the first note, then those
    of the second, and so on. *)
Theorem segmentNotes_events_in_note_order (Math_log2 Math_pow2 : Q -> Q)
    (timestamps pitchHz : list Q) (voicing : list bool) (params : SegmentationParams)
    (velocity : Z) :
  Sorted Qle timestamps ->
  (forall n m,
     before n m (segmentNotes Math_log2 Math_pow2 timestamps pitchHz voicing params) ->
     before (noteOn velocity n) (noteOn velocity m)
       (allEvents velocity
          (segmentNotes Math_log2 Math_pow2 timestamps pitchHz voicing params))
     /\ before (noteOff n) (noteOff m)
          (allEvents velocity
             (segmentNotes Math_log2 Math_pow2 timestamps pitchHz voicing params)))
  /\ (no_gap_below (framePeriod timestamps) timestamps ->
      allEvents velocity
        (segmentNotes Math_log2 Math_pow2 timestamps pitchHz voicing params)
      = flat_map (noteEvents velocity)
          (segmentNotes Math_log2 Math_pow2 timestamps pitchHz voicing params)).
Proof.
  intros Hsorted.
  pose proof (segmentNotes_ordered Math_log2 Math_pow2 timestamps pitchHz voicing params
                Hsorted) as Hord.
  split.
  - intros n m Hb.
    destruct (ForallOrdPairs_before _ _ n m Hord Hb) as [Hs [He _]].
    unfold allEvents. split.
    + apply Array_sort_stable; [|apply before_noteOn, Hb].
      cbn [noteOn ev_time]. apply Qle_bool_iff, Hs.
    + apply Array_sort_stable; [|apply before_noteOff, Hb].
      cbn [noteOff ev_time]. apply Qle_bool_iff, He.
  - intros Hgap.
    apply Array_sort_of_sorted, noteEvents_in_order.
    + destruct (segmentNotes_long_enough Math_log2 Math_pow2 timestamps pitchHz voicing
                  params Hsorted) as [E|[finalNotes [E Hlong]]].
      * rewrite E. constructor.
      * rewrite E. apply Forall_map. eapply Forall_impl; [|exact Hlong].
        intros p [_ Hp]. cbn [outputNote note_start note_end]. apply toFixed_mono, Hp.
    + apply ForallOrdPairs_Sorted.
      eapply ForallOrdPairs_impl; [|exact Hord].
      intros n m [_ [_ H]]. apply H, Hgap.
Qed.

Lemma segmentNotes_events_in_note_order_witness :
  Sorted Qle float32_frames
  /\ (forall n m,
        before n m
          (segmentNotes log2_floor pow2_floor float32_frames [440; 440; 440; 880; 880]
             [false; false; true; true; false] SEGMENTATION_PARAMS) ->
        before (noteOn 80 n) (noteOn 80 m)
          (allEvents 80
             (segmentNotes log2_floor pow2_floor float32_frames [440; 440; 440; 880; 880]
                [false; false; true; true; false] SEGMENTATION_PARAMS))
        /\ before (noteOff n) (noteOff m)
             (allEvents 80
                (segmentNotes log2_floor pow2_floor float32_frames
                   [440; 440; 440; 880; 880] [false; false; true; true; false]
                   SEGMENTATION_PARAMS)))
  /\ (no_gap_below (framePeriod float32_frames) float32_frames ->
      allEvents 80
        (segmentNotes log2_floor pow2_floor float32_frames [440; 440; 440; 880; 880]
           [false; false; true; true; false] SEGMENTATION_PARAMS)
      = flat_map (noteEvents 80)
          (segmentNotes log2_floor pow2_floor float32_frames [440; 440; 440; 880; 880]
             [false; false; true; true; false] SEGMENTATION_PARAMS)).
Proof.
  assert (Hsorted : Sorted Qle float32_frames).
  { repeat (first [apply Sorted_cons | apply Sorted_nil | apply HdRel_cons | apply HdRel_nil]);
      discriminate. }
  split; [exact Hsorted|].
  apply (segmentNotes_events_in_note_order log2_floor pow2_floor float32_frames
           [440; 440; 440; 880; 880] [false; false; true; true; false]
           SEGMENTATION_PARAMS 80 Hsorted).
Defined.

(** ** The duration reported for the notes of [segmentNotes] *)

(** On the notes of [segmentNotes], for timestamps that are not negative
    and do not decrease, the duration that [generateMidiForPlayer] reports
    is the end of the last note. *)
Theorem midiInfoDuration_of_segmentNotes (Math_log2 Math_pow2 : Q -> Q)
    (timestamps pitchHz : list Q) (voicing : list bool) (params : SegmentationParams)
    (front : list NoteSegment) (last : NoteSegment) :
  Sorted Qle timestamps -> Forall (fun t => 0 <= t) timestamps ->
  segmentNotes Math_log2 Math_pow2 timestamps pitchHz voicing params = front ++ [last] ->
  midiInfoDuration (segmentNotes Math_log2 Math_pow2 timestamps pitchHz voicing params)
  == note_end last.
Proof.
  intros Hsorted Hpos E.
  pose proof (segmentNotes_times Math_log2 Math_pow2 timestamps pitchHz voicing params
                Hsorted Hpos) as Htimes.
  pose proof (segmentNotes_ordered Math_log2 Math_pow2 timestamps pitchHz voicing params
                Hsorted) as Hord.
  rewrite E in *.
  destruct (duration_loop (front ++ [last]) 0) as [H0 [Hall Hatt]]. cbv zeta in *.
  fold (midiInfoDuration (front ++ [last])) in *.
  assert (Hlast : 0 <= note_end last).
  { rewrite Forall_forall in Htimes.
    destruct (Htimes last) as [H1 H2]; [apply in_app_iff; right; left; reflexivity|].
    lra. }
  apply ForallOrdPairs_last in Hord.
  apply Qle_antisym.
  - destruct Hatt as [Ez|[n [Hn En]]]; [lra|]. rewrite En.
    apply in_app_iff in Hn. destruct Hn as [Hn|[<-|[]]].
    + rewrite Forall_forall in Hord. apply (Hord n Hn).
    + apply Qle_refl.
  - rewrite Forall_forall in Hall. apply Hall. apply in_app_iff.
    right. left. reflexivity.
Qed.

Lemma midiInfoDuration_of_segmentNotes_witness :
  midiInfoDuration
    (segmentNotes log2_floor pow2_floor float32_frames [440; 440; 440; 880; 880]
       [false; false; true; true; false] SEGMENTATION_PARAMS)
  == note_end {| note_start := 0.1876; note_end := 0.2502;
                 pitch_median := 880.00; pitch_midi := 81 |}.
Proof.
  apply (midiInfoDuration_of_segmentNotes log2_floor pow2_floor float32_frames
           [440; 440; 440; 880; 880] [false; false; true; true; false]
           SEGMENTATION_PARAMS
           [ {| note_start := 0.1251; note_end := 0.1877;
                pitch_median := 440.00; pitch_midi := 69 |} ]).
  - repeat (first [apply Sorted_cons | apply Sorted_nil | apply HdRel_cons | apply HdRel_nil]);
      discriminate.
  - repeat (constructor; [discriminate|]). constructor.
  - vm_compute. reflexivity.
Defined.
